(** * salomeToOpenFOAM: the topology engine of [exportToFoam]

    A shallow embedding of [salomeToOpenFOAM_GUI_FixSelect.py]: the face
    key layer ([MeshBuffer]), the geometry kernel, the boundary group
    resolver, the cell pass, the upper-triangular post-pass and the order
    in which the output files are written, followed by the properties of
    the export that the specification states.

    Python integers are [Z]; Python lists are [list] with Python's
    indexing (negative indices count from the end, anything else out of
    range raises [IndexError]); the two face dictionaries are [gmap]s
    keyed by node tuples; doubles are the kernel's binary64 floats. *)

From Stdlib Require Import ZArith Floats DecimalString DecimalZ DecimalPos.
From stdpp Require Import gmap strings list sorting.

Local Open Scope Z_scope.

(** ** Python layer *)

Module Py.

(** The exceptions the export can raise. *)
Inductive exn :=
| Exception (msg : string)
| IndexError
| KeyError
| ZeroDivisionError.

Inductive res (A : Type) :=
| Ok (a : A)
| Raise (e : exn).
Arguments Ok {A} a.
Arguments Raise {A} e.

#[global] Instance res_ret : MRet res := fun _ a => Ok a.
#[global] Instance res_bind : MBind res := fun _ _ k m =>
  match m with
  | Ok a => k a
  | Raise e => Raise e
  end.

(** [for x in l: st = f st x], stopping at the first exception. *)
Fixpoint foldM {S A} (f : S → A → res S) (st : S) (l : list A) : res S :=
  match l with
  | [] => Ok st
  | x :: l' => st' ← f st x; foldM f st' l'
  end.

(** [map(f, l)] materialised left to right. *)
Fixpoint mapM {A B} (f : A → res B) (l : list A) : res (list B) :=
  match l with
  | [] => Ok []
  | x :: l' => y ← f x; ys ← mapM f l'; Ok (y :: ys)
  end.

(** Position addressed by the Python index [i] in a list of length [n]. *)
Definition index (n : nat) (i : Z) : option nat :=
  if bool_decide (0 ≤ i < Z.of_nat n) then Some (Z.to_nat i)
  else if bool_decide (- Z.of_nat n ≤ i < 0) then Some (Z.to_nat (Z.of_nat n + i))
  else None.

(** [l[i]] *)
Definition getitem {A} (l : list A) (i : Z) : res A :=
  match index (length l) i with
  | Some k => match l !! k with Some x => Ok x | None => Raise IndexError end
  | None => Raise IndexError
  end.

(** [l[i] = x] *)
Definition setitem {A} (l : list A) (i : Z) (x : A) : res (list A) :=
  match index (length l) i with
  | Some k => Ok (<[k:=x]> l)
  | None => Raise IndexError
  end.

(** Bound of a slice, clamped as Python clamps it. *)
Definition clamp (n : nat) (i : Z) : nat :=
  if bool_decide (i < 0) then Z.to_nat (Z.max 0 (Z.of_nat n + i))
  else Z.to_nat (Z.min i (Z.of_nat n)).

(** [l[s:e] = xs] *)
Definition setslice {A} (l : list A) (s e : Z) (xs : list A) : list A :=
  let s' := clamp (length l) s in
  let e' := Nat.max s' (clamp (length l) e) in
  take s' l ++ xs ++ drop e' l.

(** [range(s, e)] *)
Definition range (s e : Z) : list Z :=
  (fun k => s + Z.of_nat k) <$> seq 0 (Z.to_nat (e - s)).

(** [[x] * n] *)
Definition repeat_list {A} (x : A) (n : Z) : list A := replicate (Z.to_nat n) x.

(** [sorted(l, key=key)]: Python's sort is stable, and a stable sort has
    one result; this is insertion from the right, each element placed
    before the first element whose key is not smaller. *)
Fixpoint insert_by {A} (key : A → Z) (x : A) (l : list A) : list A :=
  match l with
  | [] => [x]
  | y :: l' => if bool_decide (key x ≤ key y) then x :: y :: l'
               else y :: insert_by key x l'
  end.

Fixpoint sorted_by {A} (key : A → Z) (l : list A) : list A :=
  match l with
  | [] => []
  | x :: l' => insert_by key x (sorted_by key l')
  end.

(** [sorted(l)] and [sorted(l, reverse=True)] on integers. *)
Definition sorted (l : list Z) : list Z := sorted_by id l.
Definition sorted_reverse (l : list Z) : list Z := sorted_by Z.opp l.

(** ['%d' % n] and [str(l)] for a list of integers. *)
Definition str_int (n : Z) : string := NilZero.string_of_int (Z.to_int n).

Fixpoint join (sep : string) (l : list string) : string :=
  match l with
  | [] => EmptyString
  | [s] => s
  | s :: l' => s +:+ sep +:+ join sep l'
  end.

Definition str_list (l : list Z) : string := "[" +:+ join ", " (str_int <$> l) +:+ "]".

(** [t in s] on strings. *)
Fixpoint contains (t s : string) : bool :=
  String.prefix t s ||
  match s with
  | EmptyString => false
  | String _ s' => contains t s'
  end.

End Py.
Import Py.

(** ** The host mesh platform

    What the export asks of the SALOME mesh object, as data. Element ids
    are the host's (1-based) ids. *)

Inductive ElementType := ALL | NODE | EDGE | FACE | VOLUME | ELEM0D | BALL.

#[global] Instance ElementType_eq_dec : EqDecision ElementType.
Proof. solve_decision. Defined.

Record Group := mkGroup {
  GetName : string;
  GetType : ElementType;
  GetIDs : list Z
}.

Definition vec : Type := float * float * float.

Record Mesh := mkMesh {
  (** [GetElementsByType(SMESH.NODE)] *)
  nodeIds : list Z;
  (** [GetNodeXYZ(n)] *)
  GetNodeXYZ : Z → vec;
  (** [GetElementsByType(SMESH.VOLUME)] *)
  volumeIds : list Z;
  (** The face node lists of a volume: [GetElemFaceNodes(v, i)] is entry
      [i], and the empty list from the end of the enumeration on. *)
  volumeFaces : Z → list (list Z);
  (** [GetElemNodes(id)], for volumes and for face elements *)
  GetElemNodes : Z → list Z;
  (** [GetGroups()] *)
  GetGroups : list Group;
  (** [GetIdsFromFilter(filter)] for the free-face filter *)
  freeFaceIds : list Z
}.

Definition GetElemFaceNodes (mesh : Mesh) (v : Z) (i : nat) : list Z :=
  default [] (volumeFaces mesh v !! i).

(** ** Face key and cache layer: [class MeshBuffer] *)

Record MeshBuffer := mkMeshBuffer {
  buf_v : Z;
  buf_faces : list (list Z);
  buf_keys : list (list Z);
  buf_fL : Z
}.

(** [MeshBuffer.Key] *)
Definition Key (fnodes : list Z) : list Z := sorted fnodes.

(** [MeshBuffer.ReverseKey]; [is_tuple] is [type(fnodes) is tuple]. The
    host hands out lists, so every call of the export passes [false]. *)
Definition ReverseKey (is_tuple : bool) (fnodes : list Z) : list Z :=
  if is_tuple then reverse fnodes else sorted_reverse fnodes.

(** The [while fnodes:] loop of [MeshBuffer.__init__]: faces are taken
    until the host answers with the empty list. *)
Fixpoint buffer_loop (answers : list (list Z)) : list (list Z) :=
  match answers with
  | [] => []
  | fnodes :: rest =>
      match fnodes with
      | [] => []
      | _ :: _ => fnodes :: buffer_loop rest
      end
  end.

Definition MeshBuffer_init (mesh : Mesh) (v : Z) : MeshBuffer :=
  let faces := buffer_loop (volumeFaces mesh v) in
  {| buf_v := v;
     buf_faces := faces;
     buf_keys := Key <$> faces;
     buf_fL := Z.of_nat (length faces) |}.

(** ** Geometry kernel *)

Section Geometry.

Local Open Scope float_scope.

(** [__diff__] *)
Definition diff (u v : vec) : vec :=
  let '(u0, u1, u2) := u in
  let '(v0, v1, v2) := v in
  (u0 - v0, u1 - v1, u2 - v2).

(** [__dotprod__] *)
Definition dotprod (u v : vec) : float :=
  let '(u0, u1, u2) := u in
  let '(v0, v1, v2) := v in
  u0 * v0 + u1 * v1 + u2 * v2.

(** [__crossprod__] *)
Definition crossprod (u v : vec) : vec :=
  let '(u0, u1, u2) := u in
  let '(v0, v1, v2) := v in
  (u1 * v2 - u2 * v1, u2 * v0 - u0 * v2, u0 * v1 - u1 * v0).

(** [float(len(nodes))] *)
Definition float_of_len {A} (l : list A) : float :=
  PrimFloat.of_uint63 (Uint63.of_Z (Z.of_nat (length l))).

(** [__cog__] *)
Definition cog (mesh : Mesh) (nodes : list Z) : res vec :=
  let c := foldl (fun c n =>
                    let '(c0, c1, c2) := c in
                    let '(x, y, z) := GetNodeXYZ mesh n in
                    (c0 + x, c1 + y, c2 + z))
                 (0, 0, 0) nodes in
  match nodes with
  | [] => Raise ZeroDivisionError
  | _ :: _ =>
      let '(c0, c1, c2) := c in
      let n := float_of_len nodes in
      Ok (c0 / n, c1 / n, c2 / n)
  end.

(** [__calcNormal__] *)
Definition calcNormal (mesh : Mesh) (nodes : list Z) : res vec :=
  n0 ← getitem nodes 0%Z;
  n1 ← getitem nodes 1%Z;
  nn ← getitem nodes (-1)%Z;
  let p0 := GetNodeXYZ mesh n0 in
  let p1 := GetNodeXYZ mesh n1 in
  let pn := GetNodeXYZ mesh nn in
  Ok (crossprod (diff p1 p0) (diff pn p0)).

(** The number [__verifyFaceOrder__] tests: face normal dot the vector
    from the face centre to the volume centre. *)
Definition orientation (mesh : Mesh) (vnodes fnodes : list Z) : res float :=
  vc ← cog mesh vnodes;
  fc ← cog mesh fnodes;
  let fcTovc := diff vc fc in
  fn ← calcNormal mesh fnodes;
  Ok (dotprod fn fcTovc).

(** [__verifyFaceOrder__] *)
Definition verifyFaceOrder (mesh : Mesh) (vnodes fnodes : list Z) : res bool :=
  d ← orientation mesh vnodes fnodes;
  Ok (if (0 <? d) then false else true).

End Geometry.

(** The node list the cell pass appends to [faces] for a new internal
    face of a cell with nodes [nodes]:
    [if verify: if not __verifyFaceOrder__(...): fnodes.reverse()]. *)
Definition oriented (verify : bool) (mesh : Mesh) (nodes fnodes : list Z)
  : res (list Z) :=
  if verify then
    (verifyFaceOrder mesh nodes fnodes ≫= λ good : bool,
       Ok (if good then fnodes else reverse fnodes))
  else Ok fnodes.

(** ** Boundary group resolver: step [1] of [exportToFoam] *)

(** The boundary face table under construction. *)
Record Registry := mkRegistry {
  bcFaces : list (list Z);
  bcFacesSorted : gmap (list Z) Z;
  ofbcfid : Z
}.

(** The locals of [exportToFoam] that the group loop updates. *)
Record Resolver := mkResolver {
  nrBCfaces : Z;
  nrFaces : Z;
  nrIntFaces : Z;
  reg : Registry;
  grpStartFace : list Z;
  grpNrFaces : list Z;
  grpNames : list string;
  nrExtFacesInGroups : Z
}.

(** [extFaces = set(mesh.GetIdsFromFilter(filter))]. The iteration order
    of a Python set is not specified; the model iterates in the order of
    the host's answer, an id that is repeated standing where it occurs
    last. *)
Definition extFaces (mesh : Mesh) : list Z := remove_dups (freeFaceIds mesh).

Definition nrExtFaces (mesh : Mesh) : Z := Z.of_nat (length (extFaces mesh)).

Definition buffers (mesh : Mesh) : list MeshBuffer :=
  MeshBuffer_init mesh <$> volumeIds mesh.

(** [nrFaces] after the counting loop: the sum of [b.fL]. *)
Definition countedFaces (mesh : Mesh) : Z :=
  foldl (fun n b => n + buf_fL b) 0 (buffers mesh).

(** The state at the head of the group loop. [int((a + b) / 2)] is the
    quotient of two non-negative integers. *)
Definition resolver_init (mesh : Mesh) : Resolver :=
  let nrFaces := (countedFaces mesh + nrExtFaces mesh) / 2 in
  {| nrBCfaces := nrExtFaces mesh;
     nrFaces := nrFaces;
     nrIntFaces := nrFaces - nrExtFaces mesh;
     reg := {| bcFaces := []; bcFacesSorted := ∅; ofbcfid := 0 |};
     grpStartFace := [];
     grpNrFaces := [];
     grpNames := [];
     nrExtFacesInGroups := 0 |}.

(** The text of the exception of the group loop. *)
Definition conflict_msg (sfid : Z) (fnodes : list Z) (name : string) : string :=
  "Error the face, elemId " +:+ str_int sfid +:+ ", " +:+ str_list fnodes
  +:+ " belongs to two " +:+ "or more groups. One is : " +:+ name.

(** Body of [for sfid in grIds]. *)
Definition register_face (mesh : Mesh) (gr : Group) (r : Registry) (sfid : Z)
  : res Registry :=
  let fnodes := GetElemNodes mesh sfid in
  let key := Key fnodes in
  match bcFacesSorted r !! key with
  | None =>
      Ok {| bcFaces := bcFaces r ++ [fnodes];
            bcFacesSorted := <[key := ofbcfid r]> (bcFacesSorted r);
            ofbcfid := ofbcfid r + 1 |}
  | Some _ => Raise (Exception (conflict_msg sfid fnodes (GetName gr)))
  end.

(** Body of the second [for sfid in gr.GetIDs()], taken for a baffle. *)
Definition register_reversed (mesh : Mesh) (r : Registry) (sfid : Z) : Registry :=
  let fnodes := GetElemNodes mesh sfid in
  let key := ReverseKey false fnodes in
  {| bcFaces := bcFaces r ++ [fnodes];
     bcFacesSorted := <[key := ofbcfid r]> (bcFacesSorted r);
     ofbcfid := ofbcfid r + 1 |}.

(** [__isGroupBaffle__] *)
Fixpoint isGroupBaffle_loop (ids : list Z) (ext : list Z) : bool :=
  match ids with
  | [] => false
  | sid :: rest => if bool_decide (sid ∈ ext) then isGroupBaffle_loop rest ext else true
  end.

Definition isGroupBaffle (gr : Group) (ext : list Z) : bool :=
  isGroupBaffle_loop (GetIDs gr) ext.

(** Body of [for gr in mesh.GetGroups()]. *)
Definition process_group (mesh : Mesh) (st : Resolver) (gr : Group) : res Resolver :=
  if decide (GetType gr = FACE) then
    let names := grpNames st ++ [GetName gr] in
    let grIds := GetIDs gr in
    let nr := Z.of_nat (length grIds) in
    let starts :=
      if bool_decide (nr > 0) then grpStartFace st ++ [nrIntFaces st + ofbcfid (reg st)]
      else grpStartFace st in
    let counts :=
      if bool_decide (nr > 0) then grpNrFaces st ++ [nr] else grpNrFaces st in
    r ← foldM (register_face mesh gr) (reg st) grIds;
    if isGroupBaffle gr (extFaces mesh) then
      counts' ← setitem counts (-1) (nr * 2);
      Ok {| nrBCfaces := nrBCfaces st + nr;
            nrFaces := nrFaces st + nr;
            nrIntFaces := nrIntFaces st - nr;
            reg := foldl (register_reversed mesh) r (GetIDs gr);
            grpStartFace := (fun x => x - nr) <$> starts;
            grpNrFaces := counts';
            grpNames := names;
            nrExtFacesInGroups := nrExtFacesInGroups st |}
    else
      Ok {| nrBCfaces := nrBCfaces st;
            nrFaces := nrFaces st;
            nrIntFaces := nrIntFaces st;
            reg := r;
            grpStartFace := starts;
            grpNrFaces := counts;
            grpNames := names;
            nrExtFacesInGroups := nrExtFacesInGroups st + nr |}
  else Ok st.

(** Body of [for face in extFaces] of the default group; the second
    component collects [salomeIDs]. *)
Definition collect_default (mesh : Mesh) (acc : Registry * list Z) (face : Z)
  : Registry * list Z :=
  let '(r, salomeIDs) := acc in
  let fnodes := GetElemNodes mesh face in
  let key := Key fnodes in
  match bcFacesSorted r !! key with
  | Some _ => (r, salomeIDs)
  | None =>
      ({| bcFaces := bcFaces r ++ [fnodes];
          bcFacesSorted := <[key := ofbcfid r]> (bcFacesSorted r);
          ofbcfid := ofbcfid r + 1 |},
       salomeIDs ++ [face])
  end.

(** [while newGrpName in grpNames]: at most [fuel] tests. The loop of
    the source has no bound; [newGrpName_fuel] below is enough for it to
    leave by itself (lemma [newGrpName_fresh]). *)
Fixpoint newGrpName_loop (fuel : nat) (names : list string) (newGrpName : string)
  (nri : Z) : string :=
  match fuel with
  | O => newGrpName
  | S fuel' =>
      if bool_decide (newGrpName ∈ names)
      then newGrpName_loop fuel' names ("defaultPatches_" +:+ str_int nri) (nri + 1)
      else newGrpName
  end.

Definition newGrpName_fuel (names : list string) : nat := S (length names).

Definition newGrpName (names : list string) : string :=
  newGrpName_loop (newGrpName_fuel names) names "defaultPatches" 1.

(** The end of step [1]: the resolver state and the group created on the
    host ([defGroup], with the ids added to it), if any. *)
Record Resolved := mkResolved {
  rs : Resolver;
  defGroup : option Group
}.

(** [if nrExtFacesInGroups < nrExtFaces:] *)
Definition default_group (mesh : Mesh) (st : Resolver) : Resolved :=
  if bool_decide (nrExtFacesInGroups st < nrExtFaces mesh) then
    let starts := grpStartFace st ++ [nrIntFaces st + ofbcfid (reg st)] in
    let counts := grpNrFaces st ++ [nrExtFaces mesh - nrExtFacesInGroups st] in
    let '(r, salomeIDs) := foldl (collect_default mesh) (reg st, []) (extFaces mesh) in
    let name := newGrpName (grpNames st) in
    {| rs := {| nrBCfaces := nrBCfaces st;
                nrFaces := nrFaces st;
                nrIntFaces := nrIntFaces st;
                reg := r;
                grpStartFace := starts;
                grpNrFaces := counts;
                grpNames := grpNames st ++ [name];
                nrExtFacesInGroups := nrExtFacesInGroups st |};
       defGroup := Some (mkGroup name FACE salomeIDs) |}
  else {| rs := st; defGroup := None |}.

Definition resolve_groups (mesh : Mesh) : res Resolved :=
  st ← foldM (process_group mesh) (resolver_init mesh) (GetGroups mesh);
  Ok (default_group mesh st).

(** ** Topology builder: step [2] of [exportToFoam] *)

(** The arrays the cell loop fills. *)
Record Topology := mkTopology {
  faces : list (list Z);
  facesSorted : gmap (list Z) Z;
  cellBcFaces : list (list Z);
  owner : list Z;
  neighbour : list Z;
  offid : Z
}.

(** [owner = [-1] * nrFaces; neighbour = [-1] * nrIntFaces] *)
Definition topology_init (st : Resolver) : Topology :=
  {| faces := [];
     facesSorted := ∅;
     cellBcFaces := bcFaces (reg st);
     owner := repeat_list (-1) (nrFaces st);
     neighbour := repeat_list (-1) (nrIntFaces st);
     offid := 0 |}.

(** The innermost [except KeyError]: a new internal face. The progress
    marks printed after it do not touch the arrays and are left out. *)
Definition new_internal_face (verify : bool) (mesh : Mesh) (nodes : list Z)
  (ofvid : Z) (t : Topology) (fnodes key : list Z) : res Topology :=
  fnodes' ← oriented verify mesh nodes fnodes;
  owner' ← setitem (owner t) (offid t) ofvid;
  Ok {| faces := faces t ++ [fnodes'];
        facesSorted := <[key := offid t]> (facesSorted t);
        cellBcFaces := cellBcFaces t;
        owner := owner';
        neighbour := neighbour t;
        offid := offid t + 1 |}.

(** Body of [while fi < b.fL] for the face [fnodes] with key [key] of the
    cell number [ofvid] whose nodes are [nodes]. A [KeyError] of the
    reversed-key lookup is caught by the same handler as a [KeyError] of
    the first boundary lookup. *)
Definition visit_face (verify : bool) (mesh : Mesh) (st : Resolver)
  (nodes : list Z) (ofvid : Z) (t : Topology) (face : list Z * list Z)
  : res Topology :=
  let '(fnodes, key) := face in
  match facesSorted t !! key with
  | Some fidinof =>
      neighbour' ← setitem (neighbour t) fidinof ofvid;
      Ok {| faces := faces t; facesSorted := facesSorted t;
            cellBcFaces := cellBcFaces t; owner := owner t;
            neighbour := neighbour'; offid := offid t |}
  | None =>
      match bcFacesSorted (reg st) !! key with
      | Some bcind =>
          o ← getitem (owner t) (nrIntFaces st + bcind);
          if bool_decide (o = -1) then
            owner' ← setitem (owner t) (nrIntFaces st + bcind) ofvid;
            bc' ← setitem (cellBcFaces t) bcind fnodes;
            Ok {| faces := faces t; facesSorted := facesSorted t;
                  cellBcFaces := bc'; owner := owner';
                  neighbour := neighbour t; offid := offid t |}
          else
            match bcFacesSorted (reg st) !! ReverseKey false fnodes with
            | Some bcind' =>
                bc' ← setitem (cellBcFaces t) bcind' fnodes;
                owner' ← setitem (owner t) (nrIntFaces st + bcind') ofvid;
                Ok {| faces := faces t; facesSorted := facesSorted t;
                      cellBcFaces := bc'; owner := owner';
                      neighbour := neighbour t; offid := offid t |}
            | None => new_internal_face verify mesh nodes ofvid t fnodes key
            end
      | None => new_internal_face verify mesh nodes ofvid t fnodes key
      end
  end.

(** Body of [for b in buffers]; the state carries [ofvid]. *)
Definition visit_cell (verify : bool) (mesh : Mesh) (st : Resolver)
  (acc : Topology * Z) (b : MeshBuffer) : res (Topology * Z) :=
  let '(t, ofvid) := acc in
  let nodes := GetElemNodes mesh (buf_v b) in
  t' ← foldM (visit_face verify mesh st nodes ofvid) t
        (zip (buf_faces b) (buf_keys b));
  Ok (t', ofvid + 1).

Definition cell_pass (verify : bool) (mesh : Mesh) (st : Resolver)
  : res (Topology * Z) :=
  foldM (visit_cell verify mesh st) (topology_init st, 0) (buffers mesh).

(** ** Upper-triangular reorderer *)

(** The three things the post-pass carries from one face to the next. *)
Record Reorder := mkReorder {
  ownedfaces : Z;
  r_neighbour : list Z;
  r_faces : list (list Z)
}.

(** The indices [inds] after the sort statement. [py3] is
    [sys.version_info.major > 2]: there the statement is
    [sorted(inds, key=neighbour.__getitem__)], whose result is dropped
    and which leaves [inds] as it was; otherwise it is
    [inds.sort(key = neighbour.__getitem__)]. Both evaluate the key of
    every index first. *)
Definition sort_inds (py3 : bool) (nb : list Z) (inds : list Z) : res (list Z) :=
  keys ← mapM (getitem nb) inds;
  Ok (if py3 then inds else (sorted_by fst (zip keys inds)).*2).

(** Body of [for faceId in quickrange(0, nrIntFaces)]. *)
Definition reorder_step (py3 : bool) (own : list Z) (r : Reorder) (faceId : Z)
  : res Reorder :=
  cellId ← getitem own faceId;
  nextCellId ← getitem own (faceId + 1);
  if bool_decide (cellId = nextCellId) then
    Ok {| ownedfaces := ownedfaces r + 1;
          r_neighbour := r_neighbour r; r_faces := r_faces r |}
  else if bool_decide (ownedfaces r > 1) then
    let sId := faceId - ownedfaces r + 1 in
    let eId := faceId in
    inds ← sort_inds py3 (r_neighbour r) (range sId (eId + 1));
    nb ← mapM (getitem (r_neighbour r)) inds;
    let neighbour' := setslice (r_neighbour r) sId (eId + 1) nb in
    fs ← mapM (getitem (r_faces r)) inds;
    Ok {| ownedfaces := 1;
          r_neighbour := neighbour';
          r_faces := setslice (r_faces r) sId (eId + 1) fs |}
  else
    Ok {| ownedfaces := 1; r_neighbour := r_neighbour r; r_faces := r_faces r |}.

(** The post-pass on [owner], [neighbour] and [faces]; [owner] is only
    read. The result is the new [neighbour] and [faces]. *)
Definition upper_triangular (py3 : bool) (nrIntFaces : Z) (own nb : list Z)
  (fs : list (list Z)) : res (list Z * list (list Z)) :=
  r ← foldM (reorder_step py3 own)
        {| ownedfaces := 1; r_neighbour := nb; r_faces := fs |}
        (range 0 nrIntFaces);
  Ok (r_neighbour r, r_faces r).

(** ** [exportToFoam] *)

Inductive OutFile := filePoints | fileFaces | fileOwner | fileNeighbour | fileBoundary.

(** What the export does to the output directory, in order. A [Write*]
    event is a [write] call (or the run of calls that writes one list);
    the header text and the number formats are left out. *)
Inductive Event :=
| Open (f : OutFile)
| WritePoints (count : Z) (pts : list vec)
| WriteFaces (count : Z) (fs : list (list Z))
| WriteOwner (note : Z * Z * Z * Z) (count : Z) (cells : list Z)
| WriteNeighbour (note : Z * Z * Z * Z) (count : Z) (cells : list Z)
| WriteBoundaryCount (count : Z)
| WritePatchName (gname : string)
| WritePatchType (label : string)
| WritePatchNFaces (n : Z)
| WritePatchStartFace (n : Z).

Definition is_write (ev : Event) : bool :=
  match ev with
  | Open _ => false
  | _ => true
  end.

(** What [exportToFoam] is run with besides the mesh: the interpreter's
    major version ([py3] is [sys.version_info.major > 2]), the global
    [verify], the texts of the combo boxes in the global list [bound],
    and which of the output files can be opened. *)
Record Env := mkEnv {
  py3 : bool;
  verify : bool;
  bound : list string;
  openable : OutFile → bool
}.

(** The locals of [exportToFoam] when the conversion is done. *)
Record Converted := mkConverted {
  x_nrFaces : Z;
  x_nrIntFaces : Z;
  x_nrCells : Z;
  x_faces : list (list Z);
  x_bcFaces : list (list Z);
  x_owner : list Z;
  x_neighbour : list Z;
  x_grpNames : list string;
  x_grpStartFace : list Z;
  x_grpNrFaces : list Z;
  x_defGroup : option Group
}.

(** How a run of [exportToFoam] ends: [Aborted] is the [return] after
    'could not open files aborting'; [Completed] is reached when the
    boundary file has been written and closed. The cellZones file, which
    the source writes after that, is outside this model. *)
Inductive Outcome :=
| Aborted
| Raised (e : exn)
| Completed (x : Converted).

(** The [try:] block of five [open] calls: the files are opened in
    order up to the first that cannot be. The directory is taken to
    exist or to be creatable ([os.makedirs] is outside the [try:]). *)
Fixpoint open_files (can_open : OutFile → bool) (fs : list OutFile)
  : list Event * bool :=
  match fs with
  | [] => ([], true)
  | f :: rest =>
      if can_open f then
        let '(evs, ok) := open_files can_open rest in (Open f :: evs, ok)
      else ([], false)
  end.

(** Everything between opening the files and writing them. *)
Definition convert (env : Env) (mesh : Mesh) : res Converted :=
  rd ← resolve_groups mesh;
  let st := rs rd in
  '(t, nrCells) ← cell_pass (verify env) mesh st;
  '(nb, fs) ← upper_triangular (py3 env) (nrIntFaces st) (owner t) (neighbour t) (faces t);
  Ok {| x_nrFaces := nrFaces st;
        x_nrIntFaces := nrIntFaces st;
        x_nrCells := nrCells;
        x_faces := fs;
        x_bcFaces := cellBcFaces t;
        x_owner := owner t;
        x_neighbour := nb;
        x_grpNames := grpNames st;
        x_grpStartFace := grpStartFace st;
        x_grpNrFaces := grpNrFaces st;
        x_defGroup := defGroup rd |}.

(** [for ind, gname in enumerate(grpNames)] of the boundary file, from
    index [ind] on. *)
Fixpoint write_patches (labels : list string) (counts starts : list Z) (ind : Z)
  (names : list string) : list Event * res () :=
  match names with
  | [] => ([], Ok ())
  | gname :: rest =>
      match getitem labels ind with
      | Raise e => ([WritePatchName gname], Raise e)
      | Ok label =>
          match getitem counts ind with
          | Raise e => ([WritePatchName gname; WritePatchType label], Raise e)
          | Ok n =>
              match getitem starts ind with
              | Raise e =>
                  ([WritePatchName gname; WritePatchType label; WritePatchNFaces n],
                   Raise e)
              | Ok s =>
                  let '(evs, r) := write_patches labels counts starts (ind + 1) rest in
                  (WritePatchName gname :: WritePatchType label
                     :: WritePatchNFaces n :: WritePatchStartFace s :: evs, r)
              end
          end
      end
  end.

(** The five files, in the order of the source. Node ids are written
    shifted to 0-based. *)
Definition write_files (env : Env) (mesh : Mesh) (x : Converted)
  : list Event * res () :=
  let nrPoints := Z.of_nat (length (nodeIds mesh)) in
  let note := (nrPoints, x_nrCells x, x_nrFaces x, x_nrIntFaces x) in
  let shift := fmap (M := list) (fun p => p - 1) in
  let '(evs, r) :=
    write_patches (bound env) (x_grpNrFaces x) (x_grpStartFace x) 0 (x_grpNames x) in
  ([ WritePoints nrPoints (GetNodeXYZ mesh <$> nodeIds mesh);
     WriteFaces (x_nrFaces x) (shift <$> (x_faces x ++ x_bcFaces x));
     WriteOwner note (Z.of_nat (length (x_owner x))) (x_owner x);
     WriteNeighbour note (Z.of_nat (length (x_neighbour x))) (x_neighbour x);
     WriteBoundaryCount (Z.of_nat (length (x_grpStartFace x))) ] ++ evs, r).

Definition exportToFoam (env : Env) (mesh : Mesh) : list Event * Outcome :=
  let '(opened, ok) :=
    open_files (openable env)
      [filePoints; fileFaces; fileOwner; fileNeighbour; fileBoundary] in
  if ok then
    match convert env mesh with
    | Raise e => (opened, Raised e)
    | Ok x =>
        let '(evs, r) := write_files env mesh x in
        (opened ++ evs,
         match r with
         | Ok _ => Completed x
         | Raise e => Raised e
         end)
    end
  else (opened, Aborted).

(** ** The cellZones file

    The last part of [exportToFoam], reached when the boundary file is
    closed: one zone for every group of volumes. *)

Inductive ZoneEvent :=
| OpenCellZones
| WriteZoneCount (nrCellZones : Z)
| WriteZoneHead (name : string) (nrGrpCells : Z)
| WriteZoneLabel (ofID : Z)
| WriteZoneEnd
| CloseCellZones.

(** How the part ends. [UnboundLocalError] is what the use of
    [fileCellZones] raises after the [except] branch of its [open]. *)
Inductive ZonesOutcome :=
| NoZones
| ZonesWritten
| ZonesKeyError
| ZonesUnboundLocalError.

(** [dict([sa, of] for of, sa in enumerate(volumes))] from position [of]
    on: a later pair replaces an earlier one with the same key. *)
Fixpoint scToOFc_from (of_ : Z) (volumes : list Z) (m : gmap Z Z) : gmap Z Z :=
  match volumes with
  | [] => m
  | sa :: rest => scToOFc_from (of_ + 1) rest (<[sa := of_]> m)
  end.

Definition scToOFc (volumes : list Z) : gmap Z Z := scToOFc_from 0 volumes ∅.

(** [for csId in cellSalomeIDs] *)
Fixpoint write_zone_labels (m : gmap Z Z) (cellSalomeIDs : list Z)
  : list ZoneEvent * bool :=
  match cellSalomeIDs with
  | [] => ([], true)
  | csId :: rest =>
      match m !! csId with
      | Some ofID =>
          let '(evs, ok) := write_zone_labels m rest in (WriteZoneLabel ofID :: evs, ok)
      | None => ([], false)
      end
  end.

(** The second [for grp in mesh.GetGroups()] *)
Fixpoint write_zones (m : gmap Z Z) (groups : list Group) : list ZoneEvent * bool :=
  match groups with
  | [] => ([], true)
  | grp :: rest =>
      if decide (GetType grp = VOLUME) then
        let head := WriteZoneHead (GetName grp) (Z.of_nat (length (GetIDs grp))) in
        let '(evs, ok) := write_zone_labels m (GetIDs grp) in
        if ok then
          let '(evs', ok') := write_zones m rest in
          (head :: evs ++ WriteZoneEnd :: evs', ok')
        else (head :: evs, false)
      else write_zones m rest
  end.

(** The part as a whole, for the groups [groups] the host has by then
    (those of the mesh and the default group, if one was made). *)
Definition write_cellZones (can_open : bool) (mesh : Mesh) (groups : list Group)
  : list ZoneEvent * ZonesOutcome :=
  let nrCellZones :=
    Z.of_nat (length (filter (fun grp => GetType grp = VOLUME) groups)) in
  if bool_decide (nrCellZones > 0) then
    if can_open then
      let '(evs, ok) := write_zones (scToOFc (volumeIds mesh)) groups in
      if ok then
        (OpenCellZones :: WriteZoneCount nrCellZones :: evs ++ [CloseCellZones],
         ZonesWritten)
      else (OpenCellZones :: WriteZoneCount nrCellZones :: evs, ZonesKeyError)
    else ([], ZonesUnboundLocalError)
  else ([], NoZones).

(** [exportToFoam] to its last line: the cellZones part is reached when
    the boundary file is closed, and reads the groups of the host once
    more, the default group among them if one was made. The third
    component is what the cellZones part did, if it was reached. *)
Definition exportToFoam_cellZones (env : Env) (zones_openable : bool) (mesh : Mesh)
  : list Event * Outcome * option (list ZoneEvent * ZonesOutcome) :=
  match exportToFoam env mesh with
  | (evs, Completed x) =>
      (evs, Completed x,
       Some (write_cellZones zones_openable mesh
               (GetGroups mesh ++ option_list (x_defGroup x))))
  | (evs, o) => (evs, o, None)
  end.

(** ** Notions the properties are stated with *)

(** [owner]/[neighbour] are in upper-triangular order on the internal
    faces: wherever two consecutive internal faces have the same owner,
    their neighbours ascend. *)
Definition upper_triangular_order (nrInt : Z) (own nb : list Z) : Prop :=
  ∀ (i : nat) c x y,
    Z.of_nat i + 1 < nrInt →
    own !! i = Some c → own !! S i = Some c →
    nb !! i = Some x → nb !! S i = Some y → x ≤ y.

(** The faces [k - m + 1 .. k] have one owner: what [ownedfaces = m]
    means when the post-pass is at face [k]. *)
Definition run (own : list Z) (k m : Z) : Prop :=
  1 ≤ m ≤ k + 1 ∧
  ∀ j : nat, k - m + 1 ≤ Z.of_nat j < k → own !! j = own !! S j.

(** The key and the reversed key of a face element of the host. *)
Definition key_of (mesh : Mesh) (sfid : Z) : list Z := Key (GetElemNodes mesh sfid).
Definition rkey_of (mesh : Mesh) (sfid : Z) : list Z :=
  ReverseKey false (GetElemNodes mesh sfid).

(** The ranges [(start, count)], taken in order, are non-empty, each
    starts where the one before ends, and together they are [lo, hi). *)
Fixpoint tiles (ranges : list (Z * Z)) (lo hi : Z) : Prop :=
  match ranges with
  | [] => lo = hi
  | (s, n) :: rest => s = lo ∧ 0 < n ∧ tiles rest (lo + n) hi
  end.

(** The invariant of the group loop. [claimed] are the members of the
    groups found not to be baffles. *)
Record resolver_inv (mesh : Mesh) (st : Resolver) : Prop := {
  inv_length : length (grpStartFace st) = length (grpNrFaces st);
  inv_tiles :
    tiles (zip (grpStartFace st) (grpNrFaces st))
      (nrIntFaces st) (nrIntFaces st + ofbcfid (reg st));
  inv_balance :
    nrFaces st - nrIntFaces st - ofbcfid (reg st)
    = nrExtFaces mesh - nrExtFacesInGroups st;
  inv_claimed :
    ∃ claimed : list Z,
      NoDup claimed ∧
      (∀ id, id ∈ claimed → id ∈ extFaces mesh) ∧
      Z.of_nat (length claimed) = nrExtFacesInGroups st ∧
      ∀ id, id ∈ claimed → is_Some (bcFacesSorted (reg st) !! key_of mesh id)
}.

(** The number of faces a group adds as a baffle. *)
Definition baffle_nr (mesh : Mesh) (gr : Group) : Z :=
  if decide (GetType gr = FACE) then
    if isGroupBaffle gr (extFaces mesh) then Z.of_nat (length (GetIDs gr)) else 0
  else 0.

(** The member faces of all baffle groups. *)
Definition baffleFaces (mesh : Mesh) : Z :=
  foldr (fun gr n => baffle_nr mesh gr + n) 0 (GetGroups mesh).

Definition same_lengths (t t' : Topology) : Prop :=
  length (owner t') = length (owner t) ∧ length (neighbour t') = length (neighbour t).

Definition is_face_group (gr : Group) : Prop := GetType gr = FACE.

(** The five [open] calls, all successful. *)
Definition opened_all : list Event :=
  [Open filePoints; Open fileFaces; Open fileOwner; Open fileNeighbour;
   Open fileBoundary].

(** The names the [while] loop of the default group tries, in order. *)
Definition candidate (k : nat) : string :=
  match k with
  | O => "defaultPatches"
  | S _ => "defaultPatches_" +:+ str_int (Z.of_nat k)
  end.

(** ** Example meshes *)

(** A host table: the answer for an id that is not listed is [d]. *)
Fixpoint assoc {A} (d : A) (table : list (Z * A)) (id : Z) : A :=
  match table with
  | [] => d
  | (id', a) :: rest => if bool_decide (id = id') then a else assoc d rest id
  end.

Definition point (x y z : float) : vec := (x, y, z).
Arguments point (x y z)%_float.

(** Runs of the export: every file opens, [verify] is on, and there are
    four combo boxes. *)
Definition run_env (py3 : bool) : Env :=
  {| py3 := py3; verify := true;
     bound := ["patch"; "wall"; "patch"; "patch"];
     openable := fun _ => true |}.

(** Two tetrahedra (volumes 1 and 2) that share the face of nodes 2, 3, 4.
    Face elements 11 to 16 are the six outer faces, 17 is the shared one. *)
Definition twoTets (groups : list Group) : Mesh :=
  {| nodeIds := [1; 2; 3; 4; 5];
     GetNodeXYZ := assoc (point 0 0 0)
       [(1, point 0 0 0); (2, point 1 0 0); (3, point 0 1 0);
        (4, point 0 0 1); (5, point 1 1 1)];
     volumeIds := [1; 2];
     volumeFaces := assoc []
       [(1, [[1; 2; 3]; [1; 4; 2]; [2; 4; 3]; [3; 4; 1]]);
        (2, [[2; 3; 4]; [2; 5; 3]; [3; 5; 4]; [4; 5; 2]])];
     GetElemNodes := assoc []
       [(1, [1; 2; 3; 4]); (2, [2; 3; 4; 5]);
        (11, [1; 2; 3]); (12, [1; 4; 2]); (13, [3; 4; 1]);
        (14, [2; 5; 3]); (15, [3; 5; 4]); (16, [4; 5; 2]); (17, [2; 4; 3])];
     GetGroups := groups;
     freeFaceIds := [11; 12; 13; 14; 15; 16] |}.

(** Three tetrahedra: volume 1 in the middle, whose first face is shared
    with volume 3 and whose second face is shared with volume 2. *)
Definition threeTets : Mesh :=
  {| nodeIds := [1; 2; 3; 4; 5; 6];
     GetNodeXYZ := assoc (point 0 0 0)
       [(1, point 0 0 0); (2, point 1 0 0); (3, point 0 1 0);
        (4, point 0 0 1); (5, point 1 1 1); (6, point 0 0 (-1))];
     volumeIds := [1; 2; 3];
     volumeFaces := assoc []
       [(1, [[2; 4; 3]; [1; 2; 3]; [1; 4; 2]; [3; 4; 1]]);
        (2, [[1; 3; 2]; [1; 2; 6]; [2; 3; 6]; [3; 1; 6]]);
        (3, [[2; 3; 4]; [2; 5; 3]; [3; 5; 4]; [4; 5; 2]])];
     GetElemNodes := assoc []
       [(1, [1; 2; 3; 4]); (2, [1; 2; 3; 6]); (3, [2; 3; 4; 5]);
        (11, [1; 4; 2]); (12, [3; 4; 1]); (13, [1; 2; 6]); (14, [2; 3; 6]);
        (15, [3; 1; 6]); (16, [2; 5; 3]); (17, [3; 5; 4]); (18, [4; 5; 2])];
     GetGroups := [];
     freeFaceIds := [11; 12; 13; 14; 15; 16; 17; 18] |}.

(** One hexahedron (the unit cube, volume 1) with its six quadrilaterals
    as face elements 11 to 16, all of them free, and the face group
    [baffle] that holds the bottom face. *)
Definition oneHex : Mesh :=
  {| nodeIds := [1; 2; 3; 4; 5; 6; 7; 8];
     GetNodeXYZ := assoc (point 0 0 0)
       [(1, point 0 0 0); (2, point 1 0 0); (3, point 1 1 0); (4, point 0 1 0);
        (5, point 0 0 1); (6, point 1 0 1); (7, point 1 1 1); (8, point 0 1 1)];
     volumeIds := [1];
     volumeFaces := assoc []
       [(1, [[1; 4; 3; 2]; [5; 6; 7; 8]; [1; 2; 6; 5];
             [2; 3; 7; 6]; [3; 4; 8; 7]; [4; 1; 5; 8]])];
     GetElemNodes := assoc []
       [(1, [1; 2; 3; 4; 5; 6; 7; 8]);
        (11, [1; 4; 3; 2]); (12, [5; 6; 7; 8]); (13, [1; 2; 6; 5]);
        (14, [2; 3; 7; 6]); (15, [3; 4; 8; 7]); (16, [4; 1; 5; 8])];
     GetGroups := [mkGroup "baffle" FACE [11]];
     freeFaceIds := [11; 12; 13; 14; 15; 16] |}.

(** Two triangles and no volume. *)
Definition surfaceOnly : Mesh :=
  {| nodeIds := [1; 2; 3; 4];
     GetNodeXYZ := assoc (point 0 0 0)
       [(1, point 0 0 0); (2, point 1 0 0); (3, point 0 1 0); (4, point 1 1 0)];
     volumeIds := [];
     volumeFaces := assoc [] [];
     GetElemNodes := assoc [] [(11, [1; 2; 3]); (12, [2; 4; 3])];
     GetGroups := [];
     freeFaceIds := [11; 12] |}.

(** Two straight prisms stacked on an arrowhead quadrilateral: nodes 1
    to 4 at height 0, the reflex corner first, counter-clockwise seen
    from above; nodes 5 to 8 below them at height -2 (volume 1), nodes 9
    to 12 above them at height 2 (volume 2). Face elements 21 to 30 are
    the ten outer faces. *)
Definition stackedPrisms : Mesh :=
  {| nodeIds := [1; 2; 3; 4; 5; 6; 7; 8; 9; 10; 11; 12];
     GetNodeXYZ := assoc (point 0 0 0)
       [(1, point 3 3 0); (2, point 5 0 0); (3, point 5 5 0); (4, point 0 5 0);
        (5, point 3 3 (-2)); (6, point 5 0 (-2)); (7, point 5 5 (-2));
        (8, point 0 5 (-2));
        (9, point 3 3 2); (10, point 5 0 2); (11, point 5 5 2); (12, point 0 5 2)];
     volumeIds := [1; 2];
     volumeFaces := assoc []
       [(1, [[1; 2; 3; 4]; [8; 7; 6; 5]; [1; 5; 6; 2];
             [2; 6; 7; 3]; [3; 7; 8; 4]; [4; 8; 5; 1]]);
        (2, [[4; 3; 2; 1]; [9; 10; 11; 12]; [1; 2; 10; 9];
             [2; 3; 11; 10]; [3; 4; 12; 11]; [4; 1; 9; 12]])];
     GetElemNodes := assoc []
       [(1, [1; 2; 3; 4; 5; 6; 7; 8]); (2, [1; 2; 3; 4; 9; 10; 11; 12]);
        (21, [8; 7; 6; 5]); (22, [1; 5; 6; 2]); (23, [2; 6; 7; 3]);
        (24, [3; 7; 8; 4]); (25, [4; 8; 5; 1]); (26, [9; 10; 11; 12]);
        (27, [1; 2; 10; 9]); (28, [2; 3; 11; 10]); (29, [3; 4; 12; 11]);
        (30, [4; 1; 9; 12])];
     GetGroups := [];
     freeFaceIds := [21; 22; 23; 24; 25; 26; 27; 28; 29; 30] |}.

(** Variants of [twoTets]: two groups that both hold face 12; a group of
    the shared face between two groups of outer faces; a face group
    without members; one group that holds every face element. *)
Definition conflictMesh : Mesh :=
  twoTets [mkGroup "inlet" FACE [11; 12]; mkGroup "outlet" FACE [12; 13]].
Definition baffleMesh : Mesh :=
  twoTets [mkGroup "inlet" FACE [11; 12]; mkGroup "baffle" FACE [17];
           mkGroup "outlet" FACE [13]].
Definition emptyGroupMesh : Mesh :=
  twoTets [mkGroup "inlet" FACE [11; 12]; mkGroup "empty" FACE [];
           mkGroup "outlet" FACE [13]].
Definition wallsMesh : Mesh :=
  twoTets [mkGroup "walls" FACE [11; 12; 13; 14; 15; 16; 17]].

(** The boundary face table is well formed: [ofbcfid] is the length of
    [bcFaces], and every index in the dictionary addresses an entry of
    [bcFaces] whose nodes have the key, or the reversed key, it is
    stored under. *)
Definition registry_ok (r : Registry) : Prop :=
  ofbcfid r = Z.of_nat (length (bcFaces r)) ∧
  ∀ k v, bcFacesSorted r !! k = Some v →
    0 ≤ v < ofbcfid r ∧
    ∃ f, bcFaces r !! Z.to_nat v = Some f ∧ (k = Key f ∨ k = ReverseKey false f).

(** The step all three registration loops share. *)
Definition push_face (r : Registry) (k f : list Z) : Registry :=
  {| bcFaces := bcFaces r ++ [f];
     bcFacesSorted := <[k := ofbcfid r]> (bcFacesSorted r);
     ofbcfid := ofbcfid r + 1 |}.

(** The member faces of the face groups, in the order the group loop
    reads them. *)
Fixpoint members (groups : list Group) : list Z :=
  match groups with
  | [] => []
  | gr :: rest =>
      (if decide (GetType gr = FACE) then GetIDs gr else []) ++ members rest
  end.

(** The keys of the table come from the faces [P] read so far, and the
    key of each of them is in the table. *)
Definition table_of (mesh : Mesh) (r : Registry) (P : list Z) : Prop :=
  (∀ k, is_Some (bcFacesSorted r !! k) →
        ∃ p, p ∈ P ∧ (k = key_of mesh p ∨ k = rkey_of mesh p)) ∧
  (∀ p, p ∈ P → is_Some (bcFacesSorted r !! key_of mesh p)).

(** What the patch loop writes when nothing is missing: four fields for
    every name. *)
Fixpoint patch_events (names labels : list string) (counts starts : list Z)
  : list Event :=
  match names, labels, counts, starts with
  | gname :: names', label :: labels', n :: counts', s :: starts' =>
      WritePatchName gname :: WritePatchType label
        :: WritePatchNFaces n :: WritePatchStartFace s
        :: patch_events names' labels' counts' starts'
  | _, _, _, _ => []
  end.

(** An entry of [owner] or [neighbour] is unset or the number of one of
    the first [n] cells. *)
Definition cell_or_unset (n : Z) (c : Z) : Prop := c = -1 ∨ 0 ≤ c < n.

(** The table of internal faces is well formed: [offid] is the length of
    [faces], every internal face has a slot in [owner] that holds a
    cell, and every index in [facesSorted] addresses the face whose
    nodes have that key. *)
Definition faces_ok (t : Topology) : Prop :=
  offid t = Z.of_nat (length (faces t)) ∧
  (length (faces t) ≤ length (owner t))%nat ∧
  (∀ i : nat, (i < length (faces t))%nat → ∃ c, owner t !! i = Some c ∧ 0 ≤ c) ∧
  ∀ k i, facesSorted t !! k = Some i →
    0 ≤ i < offid t ∧ ∃ f, faces t !! Z.to_nat i = Some f ∧ Key f = k.

(** The invariant of the cell loop while the cells below [n] write. *)
Definition pass_inv (n : Z) (t : Topology) : Prop :=
  Forall (cell_or_unset n) (owner t) ∧ Forall (cell_or_unset n) (neighbour t) ∧
  faces_ok t.

(** [l[i]], or [d] where that raises. *)
Definition item_or {A} (d : A) (l : list A) (i : Z) : A :=
  match getitem l i with Ok x => x | Raise _ => d end.

(** How the arrays after a round relate to those before it. *)
Definition rearranged (e : nat) (r r' : Reorder) : Prop :=
  length (r_neighbour r') = length (r_neighbour r) ∧
  length (r_faces r') = length (r_faces r) ∧
  zip (r_neighbour r') (r_faces r') ≡ₚ zip (r_neighbour r) (r_faces r) ∧
  drop e (r_neighbour r') = drop e (r_neighbour r) ∧
  drop e (r_faces r') = drop e (r_faces r).

(** The loop without Python 3, at face [k] with [ownedfaces = m]: the
    run that is open starts where the owner changes, and before it the
    neighbours are in order. *)
Definition sorted_so_far (own : list Z) (k : Z) (r : Reorder) : Prop :=
  run own k (ownedfaces r) ∧
  (∀ j : nat, Z.of_nat j + 1 = k - ownedfaces r + 1 → own !! j ≠ own !! S j) ∧
  upper_triangular_order (k - ownedfaces r + 1) own (r_neighbour r).

(** * Properties *)

(** ** Python layer *)

Section PyFacts.
Context {A : Type}.
Implicit Types (l : list A) (i : Z) (x : A).

Lemma index_nonneg (n : nat) i :
  0 ≤ i < Z.of_nat n → index n i = Some (Z.to_nat i).
Proof. intros H. unfold index. by rewrite bool_decide_eq_true_2. Qed.

Lemma index_lt (n : nat) i k : index n i = Some k → (k < n)%nat.
Proof.
  unfold index. repeat case_bool_decide; intros [= <-]; lia.
Qed.

Lemma getitem_nonneg l i :
  0 ≤ i → getitem l i = match l !! Z.to_nat i with
                        | Some x => Ok x
                        | None => Raise IndexError
                        end.
Proof.
  intros Hi. unfold getitem, index.
  case_bool_decide as H1.
  - done.
  - rewrite bool_decide_eq_false_2 by lia.
    rewrite lookup_ge_None_2; [done | lia].
Qed.

Lemma getitem_raise l i e : getitem l i = Raise e → e = IndexError.
Proof.
  unfold getitem. destruct (index _ _); [destruct (l !! _)|]; congruence.
Qed.

Lemma setitem_length l i x l' : setitem l i x = Ok l' → length l' = length l.
Proof.
  unfold setitem. destruct (index _ _); intros [= <-]. apply length_insert.
Qed.

Lemma setitem_last l x y : setitem (l ++ [x]) (-1) y = Ok (l ++ [y]).
Proof.
  unfold setitem, index. rewrite length_app. simpl length.
  rewrite bool_decide_eq_false_2 by lia.
  rewrite bool_decide_eq_true_2 by lia.
  f_equal. replace (Z.to_nat _) with (length l + 0)%nat by lia.
  by rewrite insert_app_r.
Qed.

Lemma foldM_app {S} (f : S → A → res S) (s : S) (l1 l2 : list A) :
  foldM f s (l1 ++ l2) = (s' ← foldM f s l1; foldM f s' l2).
Proof.
  revert s. induction l1 as [|a l1 IH]; intros s; simpl; [done|].
  destruct (f s a); simpl; [apply IH | done].
Qed.

(** An invariant of the loop body is an invariant of the loop. *)
Lemma foldM_invariant {S} (P : S → Prop) (f : S → A → res S) (l : list A) (s s' : S) :
  (∀ s a s', a ∈ l → P s → f s a = Ok s' → P s') →
  P s → foldM f s l = Ok s' → P s'.
Proof.
  revert s. induction l as [|a l IH]; intros s Hf Hs; simpl.
  - by intros [= <-].
  - destruct (f s a) as [s1|] eqn:E; simpl; [|done].
    apply IH; [|eapply Hf; eauto; left].
    intros ???? ; apply Hf. by right.
Qed.

End PyFacts.

Lemma range_nil s e : e ≤ s → range s e = [].
Proof. intros. unfold range. by replace (Z.to_nat (e - s)) with O by lia. Qed.

Lemma range_cons s e : s < e → range s e = s :: range (s + 1) e.
Proof.
  intros H. unfold range.
  replace (Z.to_nat (e - s)) with (S (Z.to_nat (e - (s + 1)))) by lia.
  simpl. f_equal; [lia|].
  rewrite <- fmap_S_seq, <- list_fmap_compose.
  apply list_fmap_ext. intros ? k _. simpl. lia.
Qed.

Lemma range_length s e : length (range s e) = Z.to_nat (e - s).
Proof. unfold range. by rewrite length_fmap, length_seq. Qed.

Lemma mapM_getitem_range {A} (l : list A) (s e : Z) :
  0 ≤ s → e ≤ Z.of_nat (length l) →
  mapM (getitem l) (range s e)
  = Ok (take (Z.to_nat (e - s)) (drop (Z.to_nat s) l)).
Proof.
  intros Hs He.
  remember (Z.to_nat (e - s)) as n eqn:Hn.
  revert s Hs Hn. induction n as [|n IH]; intros s Hs Hn.
  - rewrite range_nil by lia. done.
  - rewrite range_cons by lia. simpl.
    rewrite getitem_nonneg by lia.
    destruct (l !! Z.to_nat s) as [x|] eqn:Hx.
    2:{ apply lookup_ge_None_1 in Hx. lia. }
    simpl. rewrite (IH (s + 1)) by lia. simpl.
    f_equal. rewrite (drop_S _ x _ Hx). simpl.
    by replace (Z.to_nat (s + 1)) with (S (Z.to_nat s)) by lia.
Qed.

Lemma setslice_same {A} (l : list A) (s e : Z) :
  0 ≤ s ≤ e → e ≤ Z.of_nat (length l) →
  setslice l s e (take (Z.to_nat (e - s)) (drop (Z.to_nat s) l)) = l.
Proof.
  intros Hs He. unfold setslice, clamp.
  rewrite !bool_decide_eq_false_2 by lia.
  rewrite !Z.min_l by lia.
  rewrite Nat.max_r by lia.
  rewrite <- (take_drop (Z.to_nat s) l) at 4.
  f_equal.
  rewrite <- (take_drop (Z.to_nat (e - s)) (drop (Z.to_nat s) l)) at 2.
  f_equal. rewrite drop_drop. f_equal. lia.
Qed.

(** ** Sorting *)

Section SortFacts.
Context {A : Type} (key : A → Z).

Lemma insert_by_le x l :
  HdRel (fun a b => key a ≤ key b) x l → insert_by key x l = x :: l.
Proof.
  destruct 1 as [|y l H]; simpl; [done|].
  by rewrite bool_decide_eq_true_2.
Qed.

Lemma sorted_by_id l :
  Sorted (fun a b => key a ≤ key b) l → sorted_by key l = l.
Proof.
  induction 1 as [|x l Hs IH Hhd]; simpl; [done|].
  rewrite IH. by apply insert_by_le.
Qed.

End SortFacts.

Lemma Sorted_zip_fst (ks : list Z) (l : list Z) :
  Sorted Z.le ks → Sorted (fun a b : Z * Z => a.1 ≤ b.1) (zip ks l).
Proof.
  intros Hs. revert l. induction Hs as [|k ks Hs IH Hhd]; intros l; simpl.
  - constructor.
  - destruct l as [|i l]; [constructor|].
    constructor; [apply IH|].
    destruct Hhd as [|k' ks' H]; simpl; [constructor|].
    destruct l; constructor. done.
Qed.

Lemma Sorted_window (l : list Z) (n s : nat) :
  (∀ j x y, (s ≤ j)%nat → (S j < s + n)%nat →
            l !! j = Some x → l !! S j = Some y → x ≤ y) →
  Sorted Z.le (take n (drop s l)).
Proof.
  revert s. induction n as [|n IH]; intros s H.
  - rewrite take_0. constructor.
  - destruct (drop s l) as [|x t] eqn:E; [constructor|].
    assert (Hx : l !! s = Some x).
    { rewrite <- (Nat.add_0_r s), <- lookup_drop, E. done. }
    assert (Ht : t = drop (S s) l).
    { rewrite (drop_S _ _ _ Hx) in E. congruence. }
    simpl. constructor.
    + rewrite Ht. apply IH. intros j a b ? ?. apply H; lia.
    + destruct n as [|n]; [rewrite take_0; constructor|].
      destruct t as [|y t']; [constructor|]. simpl. constructor.
      assert (Hy : l !! S s = Some y).
      { rewrite <- (Nat.add_0_r (S s)), <- lookup_drop, <- Ht. done. }
      eapply (H s); eauto; lia.
Qed.

(** ** The post-pass on arrays that are in order *)

Section Reorder.
Variables (py3 : bool) (nrInt : Z) (own nb : list Z) (fs : list (list Z)).
Hypothesis Hown : nrInt < Z.of_nat (length own).
Hypothesis Hnb : nrInt ≤ Z.of_nat (length nb).
Hypothesis Hfs : nrInt ≤ Z.of_nat (length fs).
Hypothesis Hord : upper_triangular_order nrInt own nb.

Lemma sort_inds_ordered k m :
  0 ≤ k < nrInt → run own k m →
  sort_inds py3 nb (range (k - m + 1) (k + 1)) = Ok (range (k - m + 1) (k + 1)).
Proof.
  intros Hk [Hof Hrun]. unfold sort_inds.
  rewrite mapM_getitem_range by lia. simpl.
  destruct py3; [done|]. f_equal.
  rewrite sorted_by_id.
  - apply snd_zip. rewrite length_take, length_drop, range_length. lia.
  - apply Sorted_zip_fst, Sorted_window.
    intros j x y Hj1 Hj2 Hx Hy.
    assert (Hjj : own !! j = own !! S j) by (apply Hrun; lia).
    destruct (own !! j) as [c|] eqn:Hc.
    + eapply (Hord j c); eauto. lia.
    + apply lookup_ge_None_1 in Hc. lia.
Qed.

Lemma reorder_step_ordered k m :
  0 ≤ k < nrInt → run own k m →
  ∃ m', reorder_step py3 own (mkReorder m nb fs) k = Ok (mkReorder m' nb fs)
         ∧ run own (k + 1) m'.
Proof.
  intros Hk Hr. pose proof Hr as [Hof Hrun]. unfold reorder_step.
  rewrite !getitem_nonneg by lia.
  destruct (own !! Z.to_nat k) as [c|] eqn:Hc.
  2:{ apply lookup_ge_None_1 in Hc. lia. }
  destruct (own !! Z.to_nat (k + 1)) as [c'|] eqn:Hc'.
  2:{ apply lookup_ge_None_1 in Hc'. lia. }
  simpl. case_bool_decide as Heq.
  - eexists. split; [done|]. split; [lia|].
    intros j Hj. destruct (decide (Z.of_nat j = k)) as [<-|].
    + rewrite Nat2Z.id in Hc. rewrite Hc.
      replace (Z.to_nat (Z.of_nat j + 1)) with (S j) in Hc' by lia.
      by rewrite Hc', Heq.
    + apply Hrun. lia.
  - case_bool_decide as Hgt.
    + simpl. rewrite sort_inds_ordered by done. simpl.
      rewrite !mapM_getitem_range by lia. simpl.
      rewrite !setslice_same by lia.
      eexists. split; [done|]. split; [lia|]. intros j Hj. lia.
    + eexists. split; [done|]. split; [lia|]. intros j Hj. lia.
Qed.

Lemma reorder_loop_ordered (n : nat) : ∀ k m,
  n = Z.to_nat (nrInt - k) → 0 ≤ k → run own k m →
  ∃ m', foldM (reorder_step py3 own) (mkReorder m nb fs) (range k nrInt)
         = Ok (mkReorder m' nb fs).
Proof.
  induction n as [|n IH]; intros k m Hn Hk Hr.
  - rewrite range_nil by lia. by eexists.
  - rewrite range_cons by lia. simpl.
    destruct (reorder_step_ordered k m) as (m' & -> & Hr'); [lia|done|].
    simpl. apply IH; [lia|lia|done].
Qed.

(** Claim C9. The upper-triangular post-pass is a no-op on arrays that
    are already in order: when [owner] is longer than [nrIntFaces],
    [neighbour] and [faces] have at least [nrIntFaces] entries, and the
    neighbours ascend wherever consecutive internal faces share their
    owner, the pass returns [neighbour] and [faces] unchanged ([owner]
    is only read). This holds for both interpreter branches. *)
Theorem upper_triangular_noop :
  upper_triangular py3 nrInt own nb fs = Ok (nb, fs).
Proof.
  unfold upper_triangular.
  destruct (reorder_loop_ordered (Z.to_nat (nrInt - 0)) 0 1) as [m' ->];
    [done|done| |done].
  split; [lia|]. intros j Hj. lia.
Qed.

End Reorder.

(** ** Keys

    [sorted_by] is a sort, so a key depends on the nodes of a face and
    not on their order. *)

Section SortPerm.
Context {A : Type} (key : A → Z).

Lemma insert_by_Permutation x l : insert_by key x l ≡ₚ x :: l.
Proof.
  induction l as [|y l IH]; simpl; [done|].
  case_bool_decide; [done|]. rewrite IH. apply Permutation_swap.
Qed.

Lemma sorted_by_Permutation l : sorted_by key l ≡ₚ l.
Proof.
  induction l as [|x l IH]; simpl; [done|].
  by rewrite insert_by_Permutation, IH.
Qed.

Lemma insert_by_Sorted x l :
  Sorted (fun a b => key a ≤ key b) l →
  Sorted (fun a b => key a ≤ key b) (insert_by key x l).
Proof.
  induction 1 as [|y l Hs IH Hhd]; simpl.
  - repeat constructor.
  - case_bool_decide as Hle.
    + repeat constructor; done.
    + constructor; [done|].
      destruct Hhd as [|z l' Hz]; simpl.
      * constructor. lia.
      * case_bool_decide; constructor; lia.
Qed.

Lemma sorted_by_Sorted l : Sorted (fun a b => key a ≤ key b) (sorted_by key l).
Proof.
  induction l as [|x l IH]; simpl; [constructor|]. by apply insert_by_Sorted.
Qed.

End SortPerm.

Lemma Key_Permutation (a b : list Z) : a ≡ₚ b → Key a = Key b.
Proof.
  intros Hab. apply (Sorted_unique Z.le).
  - apply (sorted_by_Sorted id).
  - apply (sorted_by_Sorted id).
  - unfold Key, sorted. by rewrite !sorted_by_Permutation.
Qed.

(** Two faces with one reversed key have one key. *)
Lemma ReverseKey_Key (a b : list Z) :
  ReverseKey false a = ReverseKey false b → Key a = Key b.
Proof.
  intros H. apply Key_Permutation.
  rewrite <- (sorted_by_Permutation Z.opp a), <- (sorted_by_Permutation Z.opp b).
  unfold ReverseKey, sorted_reverse in H. by rewrite H.
Qed.

(** ** Boundary group resolver *)

(** *** The two registration loops *)

Section Registration.
Variable mesh : Mesh.

Lemma register_face_Ok gr r sfid r' :
  register_face mesh gr r sfid = Ok r' →
  bcFacesSorted r !! key_of mesh sfid = None ∧
  r' = {| bcFaces := bcFaces r ++ [GetElemNodes mesh sfid];
          bcFacesSorted := <[key_of mesh sfid := ofbcfid r]> (bcFacesSorted r);
          ofbcfid := ofbcfid r + 1 |}.
Proof.
  unfold register_face, key_of.
  destruct (bcFacesSorted r !! _); [done|]. by intros [= <-].
Qed.

Lemma register_faces_Ok gr ids : ∀ r r',
  foldM (register_face mesh gr) r ids = Ok r' →
  ofbcfid r' = ofbcfid r + Z.of_nat (length ids) ∧
  bcFaces r' = bcFaces r ++ (GetElemNodes mesh <$> ids) ∧
  NoDup (key_of mesh <$> ids) ∧
  (∀ sfid, sfid ∈ ids → bcFacesSorted r !! key_of mesh sfid = None) ∧
  (∀ sfid, sfid ∈ ids → is_Some (bcFacesSorted r' !! key_of mesh sfid)) ∧
  (∀ k, is_Some (bcFacesSorted r !! k) → bcFacesSorted r' !! k = bcFacesSorted r !! k).
Proof.
  induction ids as [|sfid ids IH]; intros r r'; simpl.
  - intros [= <-]. rewrite app_nil_r.
    split_and!; [lia|done|constructor|..]; [intros ? Hin; inversion Hin ..|done].
  - destruct (register_face mesh gr r sfid) as [r1|] eqn:E; simpl; [|done].
    intros Hrest. apply register_face_Ok in E as [Hfresh ->].
    apply IH in Hrest as (Ho & Hb & Hnd & Hnone & Hsome & Hkeep).
    simpl in *.
    assert (Hk1 : bcFacesSorted r' !! key_of mesh sfid = Some (ofbcfid r)).
    { rewrite Hkeep; rewrite lookup_insert_eq; eauto. }
    split_and!.
    + lia.
    + by rewrite Hb, <- app_assoc.
    + constructor; [|done]. intros Hin.
      apply list_elem_of_fmap in Hin as (s' & Hs' & Hin).
      specialize (Hnone s' Hin). rewrite <- Hs', lookup_insert_eq in Hnone. done.
    + intros s Hin. apply elem_of_cons in Hin as [->|Hin]; [done|].
      specialize (Hnone s Hin).
      destruct (decide (key_of mesh sfid = key_of mesh s)) as [Heq|Hne].
      * rewrite Heq, lookup_insert_eq in Hnone. done.
      * by rewrite lookup_insert_ne in Hnone.
    + intros s Hin. apply elem_of_cons in Hin as [->|Hin]; [by eexists|eauto].
    + intros k Hk. rewrite Hkeep.
      * rewrite lookup_insert_ne; [done|]. intros <-. rewrite Hfresh in Hk.
        by destruct Hk.
      * destruct (decide (key_of mesh sfid = k)) as [<-|Hne].
        -- rewrite lookup_insert_eq. eauto.
        -- by rewrite lookup_insert_ne.
Qed.

(** The first face of the group whose key is taken stops the loop. *)
Lemma register_faces_conflict gr ids : ∀ r sfid,
  sfid ∈ ids → is_Some (bcFacesSorted r !! key_of mesh sfid) →
  ∃ sfid', sfid' ∈ ids ∧
    foldM (register_face mesh gr) r ids
    = Raise (Exception (conflict_msg sfid' (GetElemNodes mesh sfid') (GetName gr))).
Proof.
  induction ids as [|s ids IH]; intros r sfid Hin Hreg; [inversion Hin|].
  simpl. destruct (register_face mesh gr r s) as [r1|e] eqn:E; simpl.
  - apply register_face_Ok in E as [Hfresh ->].
    apply elem_of_cons in Hin as [->|Hin].
    { rewrite Hfresh in Hreg. by destruct Hreg. }
    destruct (IH {| bcFaces := bcFaces r ++ [GetElemNodes mesh s];
                    bcFacesSorted := <[key_of mesh s:=ofbcfid r]> (bcFacesSorted r);
                    ofbcfid := ofbcfid r + 1 |} sfid Hin) as (s' & Hs' & ->).
    + simpl. destruct (decide (key_of mesh s = key_of mesh sfid)) as [->|Hne].
      * rewrite lookup_insert_eq. eauto.
      * by rewrite lookup_insert_ne.
    + exists s'. split; [by right|done].
  - exists s. split; [by left|]. unfold register_face in E.
    destruct (bcFacesSorted r !! Key (GetElemNodes mesh s)); [|done].
    by inversion E.
Qed.

(** The face the exception names is the first one of the list whose key
    is in the table when it is read: the faces before it were
    registered, and its key was in the table from the start or is the
    key of one of them. *)
Lemma register_faces_first_conflict gr ids : ∀ r sfid,
  sfid ∈ ids → is_Some (bcFacesSorted r !! key_of mesh sfid) →
  ∃ before sfid' after r',
    ids = before ++ sfid' :: after ∧
    foldM (register_face mesh gr) r before = Ok r' ∧
    is_Some (bcFacesSorted r' !! key_of mesh sfid') ∧
    (is_Some (bcFacesSorted r !! key_of mesh sfid')
     ∨ key_of mesh sfid' ∈ key_of mesh <$> before) ∧
    foldM (register_face mesh gr) r ids
    = Raise (Exception (conflict_msg sfid' (GetElemNodes mesh sfid') (GetName gr))).
Proof.
  induction ids as [|s ids IH]; intros r sfid Hin Hreg; [inversion Hin|].
  cbn [foldM]. destruct (register_face mesh gr r s) as [r1|e] eqn:E.
  - pose proof E as [Hfresh ->]%register_face_Ok.
    apply elem_of_cons in Hin as [->|Hin].
    { rewrite Hfresh in Hreg. by destruct Hreg. }
    destruct (IH {| bcFaces := bcFaces r ++ [GetElemNodes mesh s];
                    bcFacesSorted := <[key_of mesh s:=ofbcfid r]> (bcFacesSorted r);
                    ofbcfid := ofbcfid r + 1 |} sfid Hin)
      as (before & s' & after & r' & -> & Hpre & Hs' & Hfrom & Hraise).
    + simpl. destruct (decide (key_of mesh s = key_of mesh sfid)) as [->|Hne].
      * rewrite lookup_insert_eq. eauto.
      * by rewrite lookup_insert_ne.
    + exists (s :: before), s', after, r'. split_and!; [done| |done| |].
      * cbn [foldM]. rewrite E. exact Hpre.
      * destruct Hfrom as [Hfrom|Hfrom]; [|right; rewrite fmap_cons; by right].
        simpl in Hfrom.
        destruct (decide (key_of mesh s = key_of mesh s')) as [Heq|Hne].
        -- right. rewrite fmap_cons, Heq. by left.
        -- left. by rewrite lookup_insert_ne in Hfrom.
      * exact Hraise.
  - exists [], s, ids, r. unfold register_face in E. fold (key_of mesh s) in E.
    destruct (bcFacesSorted r !! key_of mesh s) as [v|] eqn:Hv; [|done].
    split_and!; [done|done|by eexists|left; by eexists|].
    cbn [mbind res_bind]. by inversion E.
Qed.

Lemma register_reversed_fold ids : ∀ r,
  let r' := foldl (register_reversed mesh) r ids in
  ofbcfid r' = ofbcfid r + Z.of_nat (length ids) ∧
  bcFaces r' = bcFaces r ++ (GetElemNodes mesh <$> ids) ∧
  (NoDup (rkey_of mesh <$> ids) →
   ∀ (i : nat) sfid, ids !! i = Some sfid →
     bcFacesSorted r' !! rkey_of mesh sfid = Some (ofbcfid r + Z.of_nat i)).
Proof.
  induction ids as [|s ids IH] using rev_ind; intros r; simpl.
  - rewrite app_nil_r. split_and!; [lia|done|]. intros _ i sfid Hi. done.
  - rewrite foldl_app. simpl.
    destruct (IH r) as (Ho & Hb & Hl).
    rewrite fmap_app, length_app. simpl. split_and!.
    + lia.
    + by rewrite Hb, <- app_assoc.
    + intros Hnd i sfid Hi. rewrite fmap_app in Hnd. simpl in Hnd.
      apply NoDup_app in Hnd as (Hnd & Hdisj & _).
      fold (rkey_of mesh s).
      destruct (decide (i < length ids)%nat) as [Hlt|Hge].
      * rewrite lookup_app_l in Hi by done.
        rewrite lookup_insert_ne; [by apply Hl|].
        intros Heq. apply (Hdisj (rkey_of mesh sfid)).
        -- apply list_elem_of_fmap. exists sfid. split; [done|].
           by eapply list_elem_of_lookup_2.
        -- rewrite <- Heq. by left.
      * rewrite lookup_app_r in Hi by lia.
        destruct (i - length ids)%nat as [|n] eqn:En; [|done].
        injection Hi as <-. rewrite lookup_insert_eq. f_equal. lia.
Qed.

Lemma NoDup_rkeys ids : NoDup (key_of mesh <$> ids) → NoDup (rkey_of mesh <$> ids).
Proof.
  induction ids as [|s ids IH]; simpl; [constructor|].
  intros Hnd. apply NoDup_cons in Hnd as [Hnotin Hnd].
  constructor; [|by apply IH].
  intros Hin. apply Hnotin.
  apply list_elem_of_fmap in Hin as (s' & Heq & Hin).
  apply list_elem_of_fmap. exists s'. split; [|done].
  by apply ReverseKey_Key.
Qed.

End Registration.

(** *** Ranges *)

Lemma tiles_app r1 r2 lo mid hi :
  tiles r1 lo mid → tiles r2 mid hi → tiles (r1 ++ r2) lo hi.
Proof.
  revert lo. induction r1 as [|[s n] r1 IH]; intros lo; simpl.
  - by intros ->.
  - intros (-> & Hn & H) H2. split_and!; [done..|]. by apply IH.
Qed.

Lemma tiles_shift d rs lo hi :
  tiles rs lo hi → tiles ((fun p : Z * Z => (p.1 - d, p.2)) <$> rs) (lo - d) (hi - d).
Proof.
  revert lo. induction rs as [|[s n] rs IH]; intros lo; simpl.
  - by intros ->.
  - intros (-> & Hn & H). split_and!; [done..|].
    replace (lo - d + n) with (lo + n - d) by lia. by apply IH.
Qed.

Lemma zip_shift d (ss cs : list Z) :
  zip ((fun x => x - d) <$> ss) cs = (fun p : Z * Z => (p.1 - d, p.2)) <$> zip ss cs.
Proof.
  revert cs. induction ss as [|s ss IH]; intros [|c cs]; simpl; [done..|].
  by rewrite IH.
Qed.

Lemma isGroupBaffle_loop_false ids ext :
  isGroupBaffle_loop ids ext = false → ∀ sid, sid ∈ ids → sid ∈ ext.
Proof.
  induction ids as [|s ids IH]; simpl; [by intros _ ? ?%elem_of_nil|].
  case_bool_decide; [|done]. intros Hf sid [->|Hin]%elem_of_cons; eauto.
Qed.

Lemma isGroupBaffle_loop_true ids ext :
  isGroupBaffle_loop ids ext = true ↔ ∃ sid, sid ∈ ids ∧ sid ∉ ext.
Proof.
  induction ids as [|s ids IH]; simpl.
  - split; [done|]. by intros (? & ?%elem_of_nil & _).
  - case_bool_decide as Hs.
    + rewrite IH. split.
      * intros (sid & ? & ?). exists sid. split; [by right|done].
      * intros (sid & [->|?]%elem_of_cons & ?); [done|]. by exists sid.
    + split; [|done]. intros _. exists s. split; [by left|done].
Qed.

Section Resolver.
Variable mesh : Mesh.

Local Abbreviation nr_of gr := (Z.of_nat (length (GetIDs gr))).

(** What one turn of the group loop does to the state, for a face group. *)
Lemma process_group_face st gr st' :
  GetType gr = FACE → process_group mesh st gr = Ok st' →
  ∃ r, foldM (register_face mesh gr) (reg st) (GetIDs gr) = Ok r ∧
    grpNames st' = grpNames st ++ [GetName gr] ∧
    if isGroupBaffle gr (extFaces mesh) then
      nrBCfaces st' = nrBCfaces st + nr_of gr ∧
      nrFaces st' = nrFaces st + nr_of gr ∧
      nrIntFaces st' = nrIntFaces st - nr_of gr ∧
      reg st' = foldl (register_reversed mesh) r (GetIDs gr) ∧
      grpStartFace st'
      = (fun x => x - nr_of gr) <$> (grpStartFace st ++ [nrIntFaces st + ofbcfid (reg st)]) ∧
      grpNrFaces st' = grpNrFaces st ++ [nr_of gr * 2] ∧
      nrExtFacesInGroups st' = nrExtFacesInGroups st
    else
      nrBCfaces st' = nrBCfaces st ∧
      nrFaces st' = nrFaces st ∧
      nrIntFaces st' = nrIntFaces st ∧
      reg st' = r ∧
      grpStartFace st'
      = grpStartFace st ++
        (if bool_decide (nr_of gr > 0) then [nrIntFaces st + ofbcfid (reg st)] else []) ∧
      grpNrFaces st'
      = grpNrFaces st ++ (if bool_decide (nr_of gr > 0) then [nr_of gr] else []) ∧
      nrExtFacesInGroups st' = nrExtFacesInGroups st + nr_of gr.
Proof.
  intros Hty. unfold process_group. rewrite decide_True by done.
  destruct (foldM _ _ _) as [r|] eqn:Hr; simpl; [|done].
  destruct (isGroupBaffle gr (extFaces mesh)) eqn:Hb.
  - assert (Hnr : nr_of gr > 0).
    { apply isGroupBaffle_loop_true in Hb as (sid & Hin & _).
      destruct (GetIDs gr); [by apply elem_of_nil in Hin|simpl; lia]. }
    rewrite !bool_decide_eq_true_2 by done.
    rewrite setitem_last. simpl. intros [= <-]. exists r. simpl. split_and!; done.
  - intros [= <-]. exists r. simpl.
    case_bool_decide; rewrite ?app_nil_r; split_and!; done.
Qed.

Lemma process_group_other st gr :
  GetType gr ≠ FACE → process_group mesh st gr = Ok st.
Proof. intros. unfold process_group. by rewrite decide_False. Qed.

Lemma resolver_inv_init : resolver_inv mesh (resolver_init mesh).
Proof.
  split; simpl; [done|lia|lia|].
  exists []. split_and!; [constructor|by intros ? ?%elem_of_nil|done|].
  by intros ? ?%elem_of_nil.
Qed.

Lemma register_reversed_keeps ids r k :
  is_Some (bcFacesSorted r !! k) →
  is_Some (bcFacesSorted (foldl (register_reversed mesh) r ids) !! k).
Proof.
  revert r. induction ids as [|s ids IH]; intros r Hk; simpl; [done|].
  apply IH. unfold register_reversed. cbn [bcFacesSorted].
  destruct (decide (ReverseKey false (GetElemNodes mesh s) = k)) as [->|].
  - rewrite lookup_insert_eq. eauto.
  - by rewrite lookup_insert_ne.
Qed.

Lemma NoDup_keys_ids ids : NoDup (key_of mesh <$> ids) → NoDup ids.
Proof. apply NoDup_fmap_1. Qed.

Lemma process_group_inv st gr st' :
  resolver_inv mesh st → process_group mesh st gr = Ok st' → resolver_inv mesh st'.
Proof.
  intros [Hlen Htiles Hbal (claimed & Hnd & Hext & Hcl & Hkeys)] Hstep.
  destruct (decide (GetType gr = FACE)) as [Hty|Hty].
  2:{ rewrite process_group_other in Hstep by done. injection Hstep as <-.
      split; eauto 10. }
  apply process_group_face in Hstep as (r & Hr & Hnames & Hcase); [|done].
  apply register_faces_Ok in Hr as (Ho & Hbc & Hndk & Hnone & Hsome & Hkeep).
  destruct (isGroupBaffle gr (extFaces mesh)) eqn:Hb.
  - destruct Hcase as (_ & HnF & HnI & Hreg & Hst & Hcn & Hin).
    assert (Hnr : 0 < nr_of gr).
    { apply isGroupBaffle_loop_true in Hb as (sid & Hsid & _).
      destruct (GetIDs gr); [by apply elem_of_nil in Hsid|simpl; lia]. }
    destruct (register_reversed_fold mesh (GetIDs gr) r) as (Ho2 & _ & _).
    rewrite <- Hreg in Ho2.
    split.
    + rewrite Hst, Hcn, length_fmap, !length_app. simpl. lia.
    + rewrite Hst, Hcn, zip_shift, zip_with_app by done.
      rewrite fmap_app. rewrite HnI.
      eapply tiles_app.
      * apply tiles_shift, Htiles.
      * simpl. split_and!; lia.
    + lia.
    + exists claimed. rewrite Hin. split_and!; [done..|].
      intros id Hid. rewrite Hreg. apply register_reversed_keeps.
      rewrite Hkeep; eauto.
  - destruct Hcase as (_ & HnF & HnI & Hreg & Hst & Hcn & Hin).
    subst r. split.
    + rewrite Hst, Hcn, !length_app. case_bool_decide; simpl; lia.
    + rewrite Hst, Hcn, zip_with_app by done. rewrite HnI.
      eapply tiles_app; [apply Htiles|].
      case_bool_decide; simpl; [split_and!; lia|lia].
    + lia.
    + exists (claimed ++ GetIDs gr). split_and!.
      * apply NoDup_app. split_and!; [done| |by eapply NoDup_keys_ids].
        intros id Hid Hid'. specialize (Hkeys id Hid).
        rewrite (Hnone id Hid') in Hkeys. by destruct Hkeys.
      * intros id [Hid|Hid]%elem_of_app; [eauto|].
        by eapply isGroupBaffle_loop_false.
      * rewrite length_app. lia.
      * intros id [Hid|Hid]%elem_of_app; [|eauto].
        rewrite Hkeep; eauto.
Qed.

Lemma resolver_inv_loop groups st st' :
  resolver_inv mesh st →
  foldM (process_group mesh) st groups = Ok st' → resolver_inv mesh st'.
Proof.
  intros Hst. apply (foldM_invariant (resolver_inv mesh)); [|done].
  intros ? ? ? _. apply process_group_inv.
Qed.

Lemma claimed_bound st : resolver_inv mesh st → nrExtFacesInGroups st ≤ nrExtFaces mesh.
Proof.
  intros [_ _ _ (claimed & Hnd & Hext & <- & _)]. unfold nrExtFaces.
  apply inj_le, submseteq_length, NoDup_submseteq; done.
Qed.

(** After step [1] the declared ranges are exactly [nrIntFaces, nrFaces). *)
Lemma default_group_tiles st :
  resolver_inv mesh st →
  let st' := rs (default_group mesh st) in
  length (grpStartFace st') = length (grpNrFaces st') ∧
  tiles (zip (grpStartFace st') (grpNrFaces st')) (nrIntFaces st') (nrFaces st').
Proof.
  intros Hinv. pose proof (claimed_bound st Hinv) as Hle.
  destruct Hinv as [Hlen Htiles Hbal _].
  unfold default_group. case_bool_decide as Hlt.
  - destruct (foldl _ _ _) as [r ids]. simpl. split.
    + rewrite !length_app. simpl. lia.
    + rewrite zip_with_app by done. eapply tiles_app; [apply Htiles|].
      simpl. split_and!; lia.
  - simpl. split; [done|].
    replace (nrFaces st) with (nrIntFaces st + ofbcfid (reg st)) by lia. done.
Qed.

End Resolver.

(** *** Counts *)

Lemma baffle_nr_nonneg mesh gr : 0 ≤ baffle_nr mesh gr.
Proof. unfold baffle_nr. repeat case_match; lia. Qed.

Lemma process_group_counts mesh st gr st' :
  process_group mesh st gr = Ok st' →
  nrFaces st' = nrFaces st + baffle_nr mesh gr ∧
  nrIntFaces st' = nrIntFaces st - baffle_nr mesh gr.
Proof.
  intros Hstep. unfold baffle_nr. case_decide as Hty.
  - apply process_group_face in Hstep as (r & _ & _ & Hcase); [|done].
    destruct (isGroupBaffle _ _); destruct Hcase as (_ & -> & -> & _); lia.
  - rewrite process_group_other in Hstep by done. injection Hstep as <-. lia.
Qed.

Lemma group_loop_counts mesh groups : ∀ st st',
  foldM (process_group mesh) st groups = Ok st' →
  nrFaces st' = nrFaces st + foldr (fun gr n => baffle_nr mesh gr + n) 0 groups ∧
  nrIntFaces st' = nrIntFaces st - foldr (fun gr n => baffle_nr mesh gr + n) 0 groups.
Proof.
  induction groups as [|gr groups IH]; intros st st'; simpl.
  - intros [= <-]. lia.
  - destruct (process_group mesh st gr) as [st1|] eqn:E; simpl; [|done].
    intros Hrest. apply process_group_counts in E as [E1 E2].
    apply IH in Hrest as [-> ->]. lia.
Qed.

Lemma default_group_counts mesh st :
  nrFaces (rs (default_group mesh st)) = nrFaces st ∧
  nrIntFaces (rs (default_group mesh st)) = nrIntFaces st.
Proof.
  unfold default_group. case_bool_decide; [|done]. by destruct (foldl _ _ _).
Qed.

Lemma resolve_groups_Ok mesh rd :
  resolve_groups mesh = Ok rd →
  ∃ st, foldM (process_group mesh) (resolver_init mesh) (GetGroups mesh) = Ok st
        ∧ rd = default_group mesh st.
Proof.
  unfold resolve_groups. destruct (foldM _ _ _) as [st|]; simpl; [|done].
  intros [= <-]. by exists st.
Qed.

Lemma countedFaces_nonneg mesh : 0 ≤ countedFaces mesh.
Proof.
  unfold countedFaces.
  assert (H : ∀ bs n, Forall (fun b => 0 ≤ buf_fL b) bs → 0 ≤ n →
                      0 ≤ foldl (fun n b => n + buf_fL b) n bs).
  { intros bs n Hb. revert n. induction Hb as [|b bs Hb _ IH]; intros n Hn; simpl.
    - done.
    - apply IH. lia. }
  apply H; [|done].
  unfold buffers. apply Forall_fmap, Forall_true. intros v. simpl. lia.
Qed.

Lemma baffleFaces_nonneg mesh : 0 ≤ baffleFaces mesh.
Proof.
  unfold baffleFaces. induction (GetGroups mesh) as [|g gs IH]; simpl; [done|].
  pose proof (baffle_nr_nonneg mesh g). lia.
Qed.

(** *** The cell loop keeps the lengths of [owner] and [neighbour] *)

Lemma new_internal_face_lengths verify mesh nodes ofvid t fnodes key t' :
  new_internal_face verify mesh nodes ofvid t fnodes key = Ok t' → same_lengths t t'.
Proof.
  unfold new_internal_face.
  destruct (oriented _ _ _ _); simpl; [|done].
  destruct (setitem (owner t) _ _) as [o|] eqn:E; simpl; [|done].
  intros [= <-]. split; simpl; [by eapply setitem_length|done].
Qed.

Lemma visit_face_lengths verify mesh st nodes ofvid t face t' :
  visit_face verify mesh st nodes ofvid t face = Ok t' → same_lengths t t'.
Proof.
  destruct face as [fnodes key]. unfold visit_face.
  destruct (facesSorted t !! key).
  { destruct (setitem (neighbour t) _ _) as [n|] eqn:E; simpl; [|done].
    intros [= <-]. split; simpl; [done|by eapply setitem_length]. }
  destruct (bcFacesSorted (reg st) !! key); [|apply new_internal_face_lengths].
  destruct (getitem (owner t) _); simpl; [|done].
  case_bool_decide.
  - destruct (setitem (owner t) _ _) as [o|] eqn:E; simpl; [|done].
    destruct (setitem (cellBcFaces t) _ _); simpl; [|done].
    intros [= <-]. split; simpl; [by eapply setitem_length|done].
  - destruct (bcFacesSorted (reg st) !! _); [|apply new_internal_face_lengths].
    destruct (setitem (cellBcFaces t) _ _); simpl; [|done].
    destruct (setitem (owner t) _ _) as [o|] eqn:E; simpl; [|done].
    intros [= <-]. split; simpl; [by eapply setitem_length|done].
Qed.

Lemma visit_cell_lengths verify mesh st t0 acc b acc' :
  same_lengths t0 acc.1 →
  visit_cell verify mesh st acc b = Ok acc' → same_lengths t0 acc'.1.
Proof.
  destruct acc as [t ofvid]. unfold visit_cell. simpl. intros Ht.
  destruct (foldM _ _ _) as [t1|] eqn:E; simpl; [|done].
  intros [= <-]. simpl. revert E.
  apply (foldM_invariant (same_lengths t0)); [|done].
  intros s a s' _ [H1 H2] [H3 H4]%visit_face_lengths. split; congruence.
Qed.

Lemma cell_pass_lengths verify mesh st t n :
  cell_pass verify mesh st = Ok (t, n) →
  length (owner t) = Z.to_nat (nrFaces st) ∧
  length (neighbour t) = Z.to_nat (nrIntFaces st).
Proof.
  unfold cell_pass. intros H.
  assert (same_lengths (topology_init st) (t, n).1) as [H1 H2].
  { revert H. apply (foldM_invariant (fun acc => same_lengths (topology_init st) acc.1)).
    - intros s a s' _. apply visit_cell_lengths.
    - done. }
  simpl in *. rewrite H1, H2. unfold repeat_list. by rewrite !length_replicate.
Qed.

(** *** Names against entries *)

Lemma group_loop_names mesh groups : ∀ st st',
  foldM (process_group mesh) st groups = Ok st' →
  grpNames st' = grpNames st ++ (GetName <$> filter is_face_group groups).
Proof.
  induction groups as [|gr groups IH]; intros st st'; simpl.
  - intros [= <-]. by rewrite app_nil_r.
  - destruct (process_group mesh st gr) as [st1|] eqn:E; simpl; [|done].
    intros ->%IH.
    destruct (decide (GetType gr = FACE)) as [Hty|Hty].
    + rewrite filter_cons_True by done.
      apply process_group_face in E as (r & _ & -> & _); [|done].
      by rewrite <- app_assoc.
    + rewrite filter_cons_False by done.
      rewrite process_group_other in E by done. by injection E as <-.
Qed.

(** One turn of the group loop adds a name for every face group and an
    entry only for a face group that has members. *)
Lemma process_group_lengths mesh st gr st' :
  process_group mesh st gr = Ok st' →
  (length (grpNames st) ≤ length (grpNames st'))%nat ∧
  (length (grpNrFaces st') + length (grpNames st)
   ≤ length (grpNrFaces st) + length (grpNames st'))%nat ∧
  (GetType gr = FACE → GetIDs gr = [] →
   grpNames st' = grpNames st ++ [GetName gr] ∧
   grpStartFace st' = grpStartFace st ∧
   grpNrFaces st' = grpNrFaces st).
Proof.
  intros E. destruct (decide (GetType gr = FACE)) as [Hty|Hty].
  - apply process_group_face in E as (r & _ & Hnames & Hcase); [|done].
    rewrite Hnames, length_app. simpl.
    destruct (isGroupBaffle gr _) eqn:Hb.
    + destruct Hcase as (_ & _ & _ & _ & _ & -> & _). rewrite length_app. simpl.
      split_and!; [lia..|]. intros _ Hnil.
      apply isGroupBaffle_loop_true in Hb as (? & Hin & _).
      rewrite Hnil in Hin. by apply elem_of_nil in Hin.
    + destruct Hcase as (_ & _ & _ & _ & -> & -> & _). rewrite length_app.
      split_and!; [lia|case_bool_decide; simpl; lia|].
      intros _ ->. simpl. by rewrite !app_nil_r.
  - rewrite process_group_other in E by done. injection E as <-.
    split_and!; [lia..|done].
Qed.

Lemma group_loop_lengths mesh groups st st' :
  foldM (process_group mesh) st groups = Ok st' →
  (length (grpNames st) ≤ length (grpNames st'))%nat ∧
  (length (grpNrFaces st') + length (grpNames st)
   ≤ length (grpNrFaces st) + length (grpNames st'))%nat.
Proof.
  apply (foldM_invariant
           (fun s => (length (grpNames st) ≤ length (grpNames s))%nat ∧
                     (length (grpNrFaces s) + length (grpNames st)
                      ≤ length (grpNrFaces st) + length (grpNames s))%nat));
    [|lia].
  intros s a s' _ [H1 H2] (H3 & H4 & _)%process_group_lengths. lia.
Qed.

(** A face group without members leaves the entries behind the names
    for the rest of the loop. *)
Lemma group_loop_empty_group mesh gr st' :
  gr ∈ GetGroups mesh → GetType gr = FACE → GetIDs gr = [] →
  foldM (process_group mesh) (resolver_init mesh) (GetGroups mesh) = Ok st' →
  GetName gr ∈ grpNames st' ∧
  (length (grpNrFaces st') < length (grpNames st'))%nat.
Proof.
  intros Hin Hty Hnil Hloop. split.
  { rewrite (group_loop_names _ _ _ _ Hloop). simpl.
    apply list_elem_of_fmap. exists gr. split; [done|].
    by apply list_elem_of_filter. }
  apply list_elem_of_split in Hin as (pre & post & Hsplit).
  rewrite Hsplit, foldM_app in Hloop.
  destruct (foldM _ _ pre) as [st1|] eqn:E1; simpl in Hloop; [|done].
  destruct (process_group mesh st1 gr) as [st2|] eqn:E2; simpl in Hloop; [|done].
  apply group_loop_lengths in E1 as [A1 A2], Hloop as [C1 C2].
  apply process_group_lengths in E2 as (_ & _ & B). destruct (B Hty Hnil) as (B1 & _ & B3).
  rewrite B1, length_app in C1, C2. rewrite B3 in C2. simpl in *. lia.
Qed.

Lemma default_group_names mesh st :
  let rd := default_group mesh st in
  grpNames (rs rd)
  = grpNames st ++ match defGroup rd with Some g => [GetName g] | None => [] end ∧
  (length (grpNrFaces (rs rd)) + length (grpNames st)
   = length (grpNrFaces st) + length (grpNames (rs rd)))%nat.
Proof.
  unfold default_group. case_bool_decide.
  - destruct (foldl _ _ _). simpl. rewrite !length_app. simpl. split; [done|lia].
  - simpl. rewrite app_nil_r. split; [done|lia].
Qed.

(** *** The patch loop of the boundary file *)

(** With fewer face counts than names the loop ends in an [IndexError];
    when every name has its combo box, the failing lookup is the one in
    [grpNrFaces]: the last things written are a name and its type. *)
Lemma write_patches_short labels counts starts names : ∀ ind,
  0 ≤ ind ≤ Z.of_nat (length counts) →
  length starts = length counts →
  Z.of_nat (length counts) < ind + Z.of_nat (length names) →
  ∃ evs, write_patches labels counts starts ind names = (evs, Raise IndexError) ∧
    (ind + Z.of_nat (length names) ≤ Z.of_nat (length labels) →
     ∃ evs' g l, evs = evs' ++ [WritePatchName g; WritePatchType l]).
Proof.
  induction names as [|g names IH]; intros ind Hind Hlen Hshort; simpl in *; [lia|].
  destruct (getitem labels ind) as [label|e] eqn:El.
  2:{ pose proof (getitem_raise _ _ _ El) as ->. eexists. split; [done|].
      intros Hl. rewrite getitem_nonneg in El by lia.
      destruct (labels !! Z.to_nat ind) eqn:E; [done|].
      apply lookup_ge_None_1 in E. lia. }
  rewrite (getitem_nonneg counts) by lia.
  destruct (counts !! Z.to_nat ind) as [n|] eqn:Ec.
  - apply lookup_lt_Some in Ec.
    rewrite (getitem_nonneg starts) by lia.
    destruct (starts !! Z.to_nat ind) as [s|] eqn:Es.
    2:{ apply lookup_ge_None_1 in Es. lia. }
    destruct (IH (ind + 1)) as (evs & -> & Hev); [lia|done|lia|].
    eexists. split; [done|]. intros Hl.
    destruct Hev as (evs' & g' & l' & ->); [lia|].
    exists (WritePatchName g :: WritePatchType label :: WritePatchNFaces n
              :: WritePatchStartFace s :: evs'), g', l'. done.
  - eexists. split; [done|]. intros _. by exists [], g, label.
Qed.

(** *** The name of the default group *)

Lemma str_int_inj (a b : Z) : str_int a = str_int b → a = b.
Proof.
  unfold str_int. intros H. apply DecimalZ.to_int_inj.
  assert (Hn : ∀ z, Z.to_int z ≠ Decimal.Pos Decimal.Nil
                    ∧ Z.to_int z ≠ Decimal.Neg Decimal.Nil).
  { intros [|p|p]; simpl; split; try discriminate;
      intros [= Hp]; by apply Unsigned.to_uint_nonnil in Hp. }
  pose proof (NilZero.isi (Z.to_int a) (proj1 (Hn a)) (proj2 (Hn a))) as Ha.
  pose proof (NilZero.isi (Z.to_int b) (proj1 (Hn b)) (proj2 (Hn b))) as Hb.
  rewrite H in Ha. congruence.
Qed.

Lemma candidate_inj (j k : nat) : candidate j = candidate k → j = k.
Proof.
  destruct j as [|j], k as [|k]; unfold candidate; [done|..].
  - intros H. cbv [String.append] in H. congruence.
  - intros H. cbv [String.append] in H. congruence.
  - intros H%(inj (String.app _))%str_int_inj. lia.
Qed.

Lemma newGrpName_loop_spec names : ∀ fuel k,
  ∃ n, (k ≤ n ≤ k + fuel)%nat ∧
    newGrpName_loop fuel names (candidate k) (Z.of_nat k + 1) = candidate n ∧
    (∀ j, (k ≤ j < n)%nat → candidate j ∈ names) ∧
    ((n < k + fuel)%nat → candidate n ∉ names).
Proof.
  induction fuel as [|fuel IH]; intros k; cbn [newGrpName_loop].
  - exists k. split_and!; [lia|lia|done|intros; lia|lia].
  - case_bool_decide as Hin.
    + destruct (IH (S k)) as (n & Hn & Hr & Hall & Hfresh).
      exists n. split_and!; [lia|lia| |..].
      * rewrite <- Hr. f_equal; [|lia]. unfold candidate. do 2 f_equal. lia.
      * intros j Hj. destruct (decide (j = k)) as [->|]; [done|]. apply Hall. lia.
      * intros ?. apply Hfresh. lia.
    + exists k. split_and!; [lia|lia|done|intros; lia|done].
Qed.

(** The loop of the default name leaves within [newGrpName_fuel] tests:
    the name it yields is not a name of the list, it is [defaultPatches]
    or [defaultPatches_n], and every candidate before it is taken. *)
Lemma newGrpName_fresh names :
  (newGrpName names ∉ names) ∧
  (∃ n, newGrpName names = candidate n ∧ ∀ j, (j < n)%nat → candidate j ∈ names).
Proof.
  unfold newGrpName, newGrpName_fuel.
  destruct (newGrpName_loop_spec names (S (length names)) 0)
    as (n & Hn & Hr & Hall & Hfresh).
  change (candidate 0) with "defaultPatches" in Hr.
  change (Z.of_nat 0 + 1) with 1 in Hr. rewrite Hr.
  split; [|exists n; split; [done|intros; apply Hall; lia]].
  apply Hfresh. destruct (decide (n < 0 + S (length names))%nat); [done|].
  exfalso. assert (n = S (length names)) as -> by lia.
  assert (Hsub : candidate <$> seq 0 (S (length names)) ⊆+ names).
  { apply NoDup_submseteq.
    - apply NoDup_fmap_2; [|apply NoDup_seq]. intros ? ?. apply candidate_inj.
    - intros c (j & -> & Hj%elem_of_seq)%list_elem_of_fmap. apply Hall. lia. }
  apply submseteq_length in Hsub. rewrite length_fmap, length_seq in Hsub. lia.
Qed.

(** ** [exportToFoam] by cases *)

Lemma open_files_all env :
  (∀ f, openable env f = true) →
  open_files (openable env)
    [filePoints; fileFaces; fileOwner; fileNeighbour; fileBoundary]
  = (opened_all, true).
Proof. intros H. simpl. by rewrite !H. Qed.

Lemma exportToFoam_Completed env mesh evs x :
  exportToFoam env mesh = (evs, Completed x) →
  convert env mesh = Ok x ∧ ∃ evs', write_files env mesh x = (evs', Ok ()).
Proof.
  unfold exportToFoam. destruct (open_files _ _) as [opened [|]]; [|done].
  destruct (convert env mesh) as [x'|]; [|done].
  destruct (write_files env mesh x') as [evs' [[]|]] eqn:E; [|done].
  intros [= <- <-]. eauto.
Qed.

Lemma exportToFoam_Raise env mesh e :
  (∀ f, openable env f = true) → convert env mesh = Raise e →
  exportToFoam env mesh = (opened_all, Raised e).
Proof.
  intros Ho Hc. unfold exportToFoam. by rewrite open_files_all, Hc.
Qed.

Lemma convert_Ok env mesh x :
  convert env mesh = Ok x →
  ∃ rd t, resolve_groups mesh = Ok rd ∧
    cell_pass (verify env) mesh (rs rd) = Ok (t, x_nrCells x) ∧
    x_nrFaces x = nrFaces (rs rd) ∧ x_nrIntFaces x = nrIntFaces (rs rd) ∧
    x_owner x = owner t ∧
    x_grpNames x = grpNames (rs rd) ∧
    x_grpStartFace x = grpStartFace (rs rd) ∧
    x_grpNrFaces x = grpNrFaces (rs rd) ∧
    x_defGroup x = defGroup rd.
Proof.
  unfold convert. destruct (resolve_groups mesh) as [rd|]; simpl; [|done].
  destruct (cell_pass _ _ _) as [[t n]|] eqn:Hc; simpl; [|done].
  destruct (upper_triangular _ _ _ _ _) as [[nb fs]|]; simpl; [|done].
  intros [= <-]. exists rd, t. simpl. split_and!; done.
Qed.


Section Strings.

Lemma append_cons a (s t : string) : String a s +:+ t = String a (s +:+ t).
Proof. reflexivity. Qed.

Lemma append_nil_r (s : string) : s +:+ EmptyString = s.
Proof.
  induction s as [|a s IH]; [done|]. by rewrite append_cons, IH.
Qed.

Lemma prefix_app (t b : string) : String.prefix t (t +:+ b) = true.
Proof.
  induction t as [|a t IH]; [by destruct b|].
  rewrite append_cons. simpl.
  destruct (Ascii.ascii_dec a a); [done|congruence].
Qed.

Lemma contains_prefix (t b : string) : contains t (t +:+ b) = true.
Proof.
  pose proof (prefix_app t b) as H.
  destruct (t +:+ b); unfold contains; fold contains; by rewrite H.
Qed.

Lemma contains_refl (t : string) : contains t t = true.
Proof.
  pose proof (contains_prefix t EmptyString) as H.
  by rewrite append_nil_r in H.
Qed.

Lemma contains_app_r (t a s : string) :
  contains t s = true → contains t (a +:+ s) = true.
Proof.
  intros H. induction a as [|c a IH]; [done|].
  rewrite append_cons. simpl. rewrite IH. apply orb_true_r.
Qed.

End Strings.

(** The text of the exception has the element id, the node list and the
    name of the group in it. *)
Lemma conflict_msg_contains sfid fnodes name :
  contains (str_int sfid) (conflict_msg sfid fnodes name) = true ∧
  contains (str_list fnodes) (conflict_msg sfid fnodes name) = true ∧
  contains name (conflict_msg sfid fnodes name) = true.
Proof.
  unfold conflict_msg. split_and!.
  - apply contains_app_r, contains_prefix.
  - do 3 apply contains_app_r. apply contains_prefix.
  - do 6 apply contains_app_r. apply contains_refl.
Qed.

(** * The claims of the specification *)

(** ** The post-pass (C1, C9) *)

(** ** Under Python 3 the post-pass changes nothing *)

Lemma mapM_Ok_elem {A B} (f : A → res B) (l : list A) (v : list B) (x : A) :
  mapM f l = Ok v → x ∈ l → ∃ y, f x = Ok y.
Proof.
  revert v. induction l as [|a l IH]; intros v; simpl; [by intros _ ?%elem_of_nil|].
  destruct (f a) as [b|] eqn:E; simpl; [|done].
  destruct (mapM f l) as [bs|]; simpl; [|done].
  intros _ [->|Hin]%elem_of_cons; eauto.
Qed.

Lemma mapM_getitem_range_bound {A} (l : list A) (s e : Z) (v : list A) :
  0 ≤ s < e → mapM (getitem l) (range s e) = Ok v → e ≤ Z.of_nat (length l).
Proof.
  intros Hs Hv.
  destruct (mapM_Ok_elem _ _ _ (e - 1) Hv) as [y Hy].
  { unfold range. apply list_elem_of_fmap. exists (Z.to_nat (e - 1 - s)).
    split; [lia|]. apply elem_of_seq. lia. }
  rewrite getitem_nonneg in Hy by lia.
  destruct (l !! Z.to_nat (e - 1)) eqn:E; [|done].
  apply lookup_lt_Some in E. lia.
Qed.

Lemma reorder_step_py3 own r k r' :
  0 ≤ k → 1 ≤ ownedfaces r ≤ k + 1 →
  reorder_step true own r k = Ok r' →
  r_neighbour r' = r_neighbour r ∧ r_faces r' = r_faces r ∧
  1 ≤ ownedfaces r' ≤ k + 2.
Proof.
  intros Hk Hm. unfold reorder_step.
  destruct (getitem own k); simpl; [|done].
  destruct (getitem own (k + 1)); simpl; [|done].
  case_bool_decide.
  { intros [= <-]. simpl. split_and!; [done|done|lia|lia]. }
  case_bool_decide.
  2:{ intros [= <-]. simpl. split_and!; [done|done|lia|lia]. }
  unfold sort_inds.
  destruct (mapM (getitem (r_neighbour r)) _) as [keys|] eqn:Hkeys; simpl; [|done].
  rewrite Hkeys. simpl.
  destruct (mapM (getitem (r_faces r)) _) as [fs|] eqn:Hfs; simpl; [|done].
  intros [= <-]. simpl.
  assert (k + 1 ≤ Z.of_nat (length (r_neighbour r)))
    by (eapply mapM_getitem_range_bound; [|exact Hkeys]; lia).
  assert (k + 1 ≤ Z.of_nat (length (r_faces r)))
    by (eapply mapM_getitem_range_bound; [|exact Hfs]; lia).
  rewrite mapM_getitem_range in Hkeys by lia.
  rewrite mapM_getitem_range in Hfs by lia.
  injection Hkeys as <-. injection Hfs as <-.
  rewrite !setslice_same by lia. split_and!; [done|done|lia|lia].
Qed.

Lemma reorder_loop_py3 own e (n : nat) : ∀ k r r',
  n = Z.to_nat (e - k) → 0 ≤ k → 1 ≤ ownedfaces r ≤ k + 1 →
  foldM (reorder_step true own) r (range k e) = Ok r' →
  r_neighbour r' = r_neighbour r ∧ r_faces r' = r_faces r.
Proof.
  induction n as [|n IH]; intros k r r' Hn Hk Hm.
  - rewrite range_nil by lia. by intros [= <-].
  - rewrite range_cons by lia. simpl.
    destruct (reorder_step true own r k) as [r1|] eqn:E; simpl; [|done].
    apply reorder_step_py3 in E as (E1 & E2 & E3); [|done..].
    intros Hrest. apply IH in Hrest as [-> ->]; [done|lia|lia|lia].
Qed.

(** With [sys.version_info.major > 2] the post-pass returns [neighbour]
    and [faces] as it got them, whatever they hold. *)
Lemma upper_triangular_py3_identity nrInt own nb fs nb' fs' :
  upper_triangular true nrInt own nb fs = Ok (nb', fs') → nb' = nb ∧ fs' = fs.
Proof.
  unfold upper_triangular.
  destruct (foldM _ _ _) as [r|] eqn:E; simpl; [|done].
  intros [= <- <-].
  eapply reorder_loop_py3 in E as [-> ->]; simpl; [done|done|lia|lia].
Qed.

(** Claim C1 (the source misses it). After the post-pass the neighbours
    of a run of internal faces with one owner should ascend, with the
    node lists permuted alike. On the example of the source's own
    comment (owners 0 0 0 1, neighbours 15 3 17 5) the Python 3 branch
    returns the arrays as they were, where the Python 2 branch gives 3
    15 17 5; the Python 2 branch in turn leaves a run unsorted when it
    reaches [nrIntFaces] and the first boundary face has the same
    owner; and the export of [threeTets] ends, on either branch, with
    owners 0 0 and neighbours 2 1 on its two internal faces. *)
Theorem upper_triangular_unsorted :
  upper_triangular true 4 [0; 0; 0; 1; 1] [15; 3; 17; 5] [[1]; [2]; [3]; [4]]
  = Ok ([15; 3; 17; 5], [[1]; [2]; [3]; [4]]) ∧
  upper_triangular false 4 [0; 0; 0; 1; 1] [15; 3; 17; 5] [[1]; [2]; [3]; [4]]
  = Ok ([3; 15; 17; 5], [[2]; [1]; [3]; [4]]) ∧
  upper_triangular false 3 [0; 0; 0; 0; 1] [15; 3; 17] [[1]; [2]; [3]]
  = Ok ([15; 3; 17], [[1]; [2]; [3]]) ∧
  ∀ py3, ∃ evs x,
    exportToFoam (run_env py3) threeTets = (evs, Completed x) ∧
    x_nrIntFaces x = 2 ∧ take 3 (x_owner x) = [0; 0; 0] ∧ x_neighbour x = [2; 1] ∧
    ¬ upper_triangular_order (x_nrIntFaces x) (x_owner x) (x_neighbour x).
Proof.
  split_and!; [by vm_compute..|].
  intros py3. eexists _, _. split; [destruct py3; vm_compute; reflexivity|].
  destruct py3; (split_and!; [done..|]);
    intros H; specialize (H 0%nat 0 2 1); vm_compute in H;
    by specialize (H eq_refl eq_refl eq_refl eq_refl eq_refl).
Qed.

(** Witness of C9: an ordered run of three faces and a run of one. *)
Lemma upper_triangular_noop_witness :
  upper_triangular false 4 [0; 0; 0; 1; 1] [3; 15; 17; 5] [[1]; [2]; [3]; [4]]
  = Ok ([3; 15; 17; 5], [[1]; [2]; [3]; [4]]).
Proof.
  apply upper_triangular_noop; [simpl; lia..|].
  intros [|[|[|i]]] c x y Hi; simpl; intros; simplify_eq; lia.
Defined.

(** ** Counts and lengths (C2) *)

(** Claim C2, as stated, fails where [nrIntFaces] is negative: for two
    free triangles and no volume, [nrFaces] is 1, [nrIntFaces] is -1,
    and [neighbour] is the empty list. *)
Lemma neighbour_length_counterexample :
  ∃ rd t n,
    resolve_groups surfaceOnly = Ok rd ∧
    cell_pass true surfaceOnly (rs rd) = Ok (t, n) ∧
    nrIntFaces (rs rd) = -1 ∧ neighbour t = [] ∧
    Z.of_nat (length (neighbour t)) ≠ nrIntFaces (rs rd).
Proof.
  eexists _, _, _. split; [vm_compute; reflexivity|].
  split; [vm_compute; reflexivity|]. by vm_compute.
Qed.

(** Claim C2, amended. After the cell pass [owner] has [nrFaces]
    entries and [neighbour] has [max 0 nrIntFaces] entries (so
    [nrIntFaces] entries whenever that number is not negative), where
    [nrFaces] is (the sum of the cells' face counts + the number of free
    faces) / 2 plus the member faces of the baffle groups, and
    [nrIntFaces] is [nrFaces] minus the free faces and twice the member
    faces of the baffle groups. *)
Theorem owner_neighbour_lengths verify mesh rd t n :
  resolve_groups mesh = Ok rd →
  cell_pass verify mesh (rs rd) = Ok (t, n) →
  let st := rs rd in
  nrFaces st = (countedFaces mesh + nrExtFaces mesh) / 2 + baffleFaces mesh ∧
  nrIntFaces st = nrFaces st - (nrExtFaces mesh + 2 * baffleFaces mesh) ∧
  Z.of_nat (length (owner t)) = nrFaces st ∧
  Z.of_nat (length (neighbour t)) = Z.max 0 (nrIntFaces st).
Proof.
  intros Hres Hcells. cbv zeta.
  apply resolve_groups_Ok in Hres as (st & Hloop & ->).
  apply group_loop_counts in Hloop as [HF HI].
  destruct (default_group_counts mesh st) as [HF' HI'].
  apply cell_pass_lengths in Hcells as [Ho Hn].
  fold (baffleFaces mesh) in HF, HI. simpl in HF, HI.
  pose proof (countedFaces_nonneg mesh). pose proof (baffleFaces_nonneg mesh).
  assert (0 ≤ nrExtFaces mesh) by (unfold nrExtFaces; lia).
  assert (0 ≤ (countedFaces mesh + nrExtFaces mesh) / 2) by (apply Z.div_pos; lia).
  rewrite Ho, Hn, HF', HI', HF, HI. split_and!; lia.
Qed.

Lemma owner_neighbour_lengths_witness :
  ∃ rd t n,
    resolve_groups baffleMesh = Ok rd ∧
    cell_pass true baffleMesh (rs rd) = Ok (t, n) ∧
    Z.of_nat (length (owner t)) = nrFaces (rs rd) ∧
    Z.of_nat (length (neighbour t)) = Z.max 0 (nrIntFaces (rs rd)).
Proof.
  destruct (resolve_groups baffleMesh) as [rd|e] eqn:H1.
  2:{ vm_compute in H1. discriminate H1. }
  assert (H2 : ∃ t n, cell_pass true baffleMesh (rs rd) = Ok (t, n)).
  { vm_compute in H1. injection H1 as <-. eexists _, _. vm_compute. reflexivity. }
  destruct H2 as (t & n & H2). exists rd, t, n.
  split; [reflexivity|]. split; [exact H2|].
  exact (proj2 (proj2 (owner_neighbour_lengths true baffleMesh rd t n H1 H2))).
Defined.

(** ** The group conflict (C3) *)

(** Claim C3, as stated, fails on the text of the exception: it names
    the group being read when the conflict is found and not the group
    that registered the face before. *)
Lemma conflict_names_one_group :
  ∃ msg,
    exportToFoam (run_env true) conflictMesh = (opened_all, Raised (Exception msg)) ∧
    msg = "Error the face, elemId 12, [1, 4, 2] belongs to two or more groups. One is : outlet" ∧
    contains "outlet" msg = true ∧ contains "inlet" msg = false.
Proof. eexists. split; [vm_compute; reflexivity|]. by vm_compute. Qed.

(** Claim C3, amended. When a face of a face group has a key that the
    groups before it have registered, [exportToFoam] ends in an
    exception raised from the group loop. Its text holds the element id
    and the node list of the offending face, and the name of the group
    being read. The offending face is the first member of that group
    whose key is in the table when it is read: the members before it
    were registered, and its key was taken by a group before or by one
    of those members. Up to then the output files have only been
    opened. *)
Theorem group_conflict_aborts env mesh pre gr post st sfid :
  (∀ f, openable env f = true) →
  GetGroups mesh = pre ++ gr :: post →
  foldM (process_group mesh) (resolver_init mesh) pre = Ok st →
  GetType gr = FACE →
  sfid ∈ GetIDs gr →
  is_Some (bcFacesSorted (reg st) !! Key (GetElemNodes mesh sfid)) →
  ∃ before sfid' after r evs,
    GetIDs gr = before ++ sfid' :: after ∧
    sfid' ∈ GetIDs gr ∧
    foldM (register_face mesh gr) (reg st) before = Ok r ∧
    is_Some (bcFacesSorted r !! Key (GetElemNodes mesh sfid')) ∧
    (is_Some (bcFacesSorted (reg st) !! Key (GetElemNodes mesh sfid'))
     ∨ ∃ sfid0, sfid0 ∈ before ∧
         Key (GetElemNodes mesh sfid0) = Key (GetElemNodes mesh sfid')) ∧
    let msg := conflict_msg sfid' (GetElemNodes mesh sfid') (GetName gr) in
    exportToFoam env mesh = (evs, Raised (Exception msg)) ∧
    Forall (fun ev => is_write ev = false) evs ∧
    contains (str_int sfid') msg = true ∧
    contains (str_list (GetElemNodes mesh sfid')) msg = true ∧
    contains (GetName gr) msg = true.
Proof.
  intros Hopen Hgroups Hpre Hty Hin Hreg.
  destruct (register_faces_first_conflict mesh gr (GetIDs gr) (reg st) sfid Hin Hreg)
    as (before & sfid' & after & r & Hsplit & Hbefore & Htaken & Hfrom & Hraise).
  exists before, sfid', after, r, opened_all.
  split; [done|]. split; [rewrite Hsplit; apply elem_of_app; right; by left|].
  split; [done|]. split; [done|]. split.
  { destruct Hfrom as [Hfrom|Hfrom]; [by left|right].
    apply list_elem_of_fmap in Hfrom as (sfid0 & Heq & Hin0). by exists sfid0. }
  simpl.
  split_and!; [|repeat constructor|apply conflict_msg_contains..].
  apply exportToFoam_Raise; [done|].
  assert (Hgr : process_group mesh st gr
                = Raise (Exception (conflict_msg sfid' (GetElemNodes mesh sfid')
                                      (GetName gr)))).
  { unfold process_group. rewrite decide_True by done. by rewrite Hraise. }
  unfold convert, resolve_groups. rewrite Hgroups, foldM_app, Hpre.
  cbn [mbind res_bind foldM]. by rewrite Hgr.
Qed.

(** Witness of C3: the second group of [conflictMesh] holds face 12,
    which the first group registered. *)
Lemma group_conflict_aborts_witness :
  ∃ before sfid' after evs,
    [12; 13] = before ++ sfid' :: after ∧
    exportToFoam (run_env true) conflictMesh
    = (evs, Raised (Exception (conflict_msg sfid' (GetElemNodes conflictMesh sfid')
                                 "outlet"))) ∧
    Forall (fun ev => is_write ev = false) evs.
Proof.
  destruct (foldM (process_group conflictMesh) (resolver_init conflictMesh)
              [mkGroup "inlet" FACE [11; 12]]) as [st|e] eqn:Hpre.
  2:{ vm_compute in Hpre. discriminate Hpre. }
  assert (Hreg : is_Some (bcFacesSorted (reg st) !! Key (GetElemNodes conflictMesh 12))).
  { vm_compute in Hpre. injection Hpre as <-. vm_compute. by eexists. }
  destruct (group_conflict_aborts (run_env true) conflictMesh
              [mkGroup "inlet" FACE [11; 12]] (mkGroup "outlet" FACE [12; 13]) []
              st 12 (fun _ => eq_refl) eq_refl Hpre eq_refl
              (list_elem_of_here 12 [13]) Hreg)
    as (before & sfid' & after & r & evs & Hsplit & _ & _ & _ & _ & Hexp & Hw & _).
  exists before, sfid', after, evs. split; [exact Hsplit|]. split; [exact Hexp|exact Hw].
Defined.

(** ** Baffle groups (C4, C5) *)

(** Claim C4. For a face group with a member that is not a free face,
    one turn of the group loop appends every member face a second time
    to [bcFaces], registers it under its reversed key at the index of
    that second entry, sets the group's face count to twice its member
    count, and lowers every start face computed so far, the group's own
    included, by the member count. *)
Theorem baffle_group_doubled mesh st gr st' :
  GetType gr = FACE →
  isGroupBaffle gr (extFaces mesh) = true →
  process_group mesh st gr = Ok st' →
  let ids := GetIDs gr in
  let nr := Z.of_nat (length ids) in
  bcFaces (reg st')
  = bcFaces (reg st) ++ (GetElemNodes mesh <$> ids) ++ (GetElemNodes mesh <$> ids) ∧
  (∀ (i : nat) sfid, ids !! i = Some sfid →
     bcFacesSorted (reg st') !! ReverseKey false (GetElemNodes mesh sfid)
     = Some (ofbcfid (reg st) + nr + Z.of_nat i)) ∧
  ofbcfid (reg st') = ofbcfid (reg st) + 2 * nr ∧
  last (grpNrFaces st') = Some (2 * nr) ∧
  grpStartFace st'
  = ((fun x => x - nr) <$> grpStartFace st) ++ [nrIntFaces st + ofbcfid (reg st) - nr].
Proof.
  intros Hty Hb Hstep. cbv zeta.
  apply process_group_face in Hstep as (r & Hr & _ & Hcase); [|done].
  rewrite Hb in Hcase. destruct Hcase as (_ & _ & _ & -> & -> & -> & _).
  apply register_faces_Ok in Hr as (Ho & Hbc & Hnd & _).
  destruct (register_reversed_fold mesh (GetIDs gr) r) as (Ho2 & Hbc2 & Hl).
  split_and!.
  - by rewrite Hbc2, Hbc, <- app_assoc.
  - intros i sfid Hi. unfold rkey_of in Hl.
    rewrite (Hl (NoDup_rkeys _ _ Hnd) i sfid Hi). f_equal. lia.
  - lia.
  - rewrite last_snoc. f_equal. lia.
  - by rewrite fmap_app.
Qed.

Lemma baffle_group_doubled_witness :
  ∃ st',
    process_group baffleMesh (resolver_init baffleMesh) (mkGroup "baffle" FACE [17])
    = Ok st' ∧
    bcFaces (reg st') = [[2; 4; 3]; [2; 4; 3]] ∧
    bcFacesSorted (reg st') !! [4; 3; 2] = Some 1 ∧
    last (grpNrFaces st') = Some 2 ∧
    grpStartFace st' = [0].
Proof.
  destruct (process_group baffleMesh (resolver_init baffleMesh)
              (mkGroup "baffle" FACE [17])) as [st'|e] eqn:H1.
  2:{ vm_compute in H1. discriminate H1. }
  exists st'. split; [reflexivity|].
  destruct (baffle_group_doubled baffleMesh (resolver_init baffleMesh)
              (mkGroup "baffle" FACE [17]) st' eq_refl eq_refl H1)
    as (Hb & Hk & _ & Hn & Hs).
  split_and!; [exact Hb|exact (Hk 0%nat 17 eq_refl)|exact Hn|exact Hs].
Defined.

(** Claim C5, as stated, fails: in a mesh of one hexahedron every face
    is a free face, so a group of one of its faces is not a baffle; its
    face count is 1 and no second entry with mirrored nodes exists. *)
Lemma hex_group_not_doubled :
  ∃ evs x,
    exportToFoam (run_env true) oneHex = (evs, Completed x) ∧
    x_grpNames x !! 0%nat = Some "baffle" ∧
    x_grpNrFaces x !! 0%nat = Some 1 ∧
    x_grpNrFaces x !! 0%nat ≠ Some 2 ∧
    x_bcFaces x !! 1%nat ≠ Some (reverse [1; 4; 3; 2]).
Proof. eexists _, _. split; [vm_compute; reflexivity|]. by vm_compute. Qed.

(** Claim C5, amended. For one hexahedron with one of its six
    quadrilaterals in a face group, the group is not a baffle: its face
    count is 1, it has the one boundary face entry 0, owned by cell 0,
    and the other five faces form [defaultPatches]. *)
Theorem hex_group_single py3 :
  isGroupBaffle (mkGroup "baffle" FACE [11]) (extFaces oneHex) = false ∧
  ∃ evs x,
    exportToFoam (run_env py3) oneHex = (evs, Completed x) ∧
    x_grpNames x = ["baffle"; "defaultPatches"] ∧
    x_grpNrFaces x = [1; 5] ∧
    x_grpStartFace x = [0; 1] ∧
    x_nrIntFaces x = 0 ∧ x_nrFaces x = 6 ∧
    x_bcFaces x = [[1; 4; 3; 2]; [5; 6; 7; 8]; [1; 2; 6; 5];
                   [2; 3; 7; 6]; [3; 4; 8; 7]; [4; 1; 5; 8]] ∧
    x_owner x = [0; 0; 0; 0; 0; 0] ∧
    x_defGroup x = Some (mkGroup "defaultPatches" FACE [12; 13; 14; 15; 16]).
Proof.
  split; [reflexivity|]. eexists _, _.
  split; [destruct py3; vm_compute; reflexivity|].
  destruct py3; by vm_compute.
Qed.

(** ** The default group (C6) *)

(** Claim C6 (the source misses it). The default group should be made
    exactly when some free face is in no group. The source compares
    counts, and counts the members of baffle groups as if none of them
    were free: with one group holding the six free faces and the shared
    face, every free face is claimed, yet [defaultPatches] is created,
    declared with 6 faces and given none. *)
Theorem default_group_without_faces :
  (∀ id, id ∈ extFaces wallsMesh → id ∈ [11; 12; 13; 14; 15; 16; 17]) ∧
  ∃ rd,
    resolve_groups wallsMesh = Ok rd ∧
    defGroup rd = Some (mkGroup "defaultPatches" FACE []) ∧
    grpNames (rs rd) = ["walls"; "defaultPatches"] ∧
    grpNrFaces (rs rd) = [14; 6] ∧
    grpStartFace (rs rd) = [-6; 8] ∧
    nrIntFaces (rs rd) = -6 ∧ nrFaces (rs rd) = 14 ∧
    length (bcFaces (reg (rs rd))) = 14%nat.
Proof.
  split.
  - intros id Hid. vm_compute in Hid.
    repeat (apply elem_of_cons in Hid as [->|Hid];
            [repeat ((by left) || right)|]).
    by apply elem_of_nil in Hid.
  - eexists. split; [vm_compute; reflexivity|]. by vm_compute.
Qed.

(** ** The ranges of the patches (C7) *)



(** ** Face orientation (C8) *)

(** Claim C8, as stated, fails for a face that is not convex: the
    arrowhead face between the two prisms is wound outward from the
    lower prism, the test at its reflex first corner gives 5, the face
    is reversed, and the recorded order gives 10, still positive. *)
Lemma reversed_face_still_inward :
  ∃ evs x,
    exportToFoam (run_env true) stackedPrisms = (evs, Completed x) ∧
    x_faces x = [[4; 3; 2; 1]] ∧ x_owner x !! 0%nat = Some 0 ∧
    orientation stackedPrisms (GetElemNodes stackedPrisms 1) [1; 2; 3; 4]
    = Ok 5%float ∧
    orientation stackedPrisms (GetElemNodes stackedPrisms 1) [4; 3; 2; 1]
    = Ok 10%float ∧
    (0 <? 10)%float = true ∧ (10 <=? 0)%float = false.
Proof. eexists _, _. split; [vm_compute; reflexivity|]. by vm_compute. Qed.

(** Claim C8, amended. With [verify] on, a new internal face is
    recorded reversed exactly when the tested number (normal from the
    first, second and last node, dot the vector from the face centre to
    the cell centre) is greater than 0; a face recorded as the host gave
    it has a tested number that is not greater than 0. Nothing is
    tested again after a reversal. *)
Theorem new_face_orientation mesh nodes ofvid t fnodes key d :
  orientation mesh nodes fnodes = Ok d →
  is_Some (index (length (owner t)) (offid t)) →
  ∃ t', new_internal_face true mesh nodes ofvid t fnodes key = Ok t' ∧
    faces t' = faces t ++ [if (0 <? d)%float then reverse fnodes else fnodes] ∧
    ((0 <? d)%float = false →
     last (faces t') = Some fnodes ∧ orientation mesh nodes fnodes = Ok d).
Proof.
  intros Hd [k Hk]. unfold new_internal_face, oriented, verifyFaceOrder.
  rewrite Hd. simpl. unfold setitem. rewrite Hk. simpl.
  eexists. split; [done|]. simpl.
  destruct (0 <? d)%float; simpl; [done|].
  split; [done|]. intros _. by rewrite last_snoc.
Qed.

Lemma new_face_orientation_witness :
  ∃ t',
    new_internal_face true stackedPrisms [1; 2; 3; 4; 5; 6; 7; 8] 0
      (mkTopology [] ∅ [] [-1; -1] [-1] 0) [1; 2; 3; 4] [1; 2; 3; 4] = Ok t' ∧
    faces t' = [[4; 3; 2; 1]].
Proof.
  destruct (new_face_orientation stackedPrisms [1; 2; 3; 4; 5; 6; 7; 8] 0
              (mkTopology [] ∅ [] [-1; -1] [-1] 0) [1; 2; 3; 4] [1; 2; 3; 4] 5%float)
    as (t' & H1 & H2 & _).
  - vm_compute. reflexivity.
  - by eexists.
  - exists t'. split; [exact H1|exact H2].
Defined.

(** ** A face group without members (C10) *)

(** Claim C10. A face group without members adds its name and no start
    face or face count. After that [grpNrFaces] is shorter than
    [grpNames]: if the conversion raises nothing, the patch loop of the
    boundary file ends in an [IndexError], raised by the lookup in
    [grpNrFaces] when every name has its combo box, and in no case does
    the export complete. *)
Theorem empty_face_group_index_error env mesh gr :
  gr ∈ GetGroups mesh → GetType gr = FACE → GetIDs gr = [] →
  (∀ st, ∃ st', process_group mesh st gr = Ok st' ∧
     grpNames st' = grpNames st ++ [GetName gr] ∧
     grpStartFace st' = grpStartFace st ∧
     grpNrFaces st' = grpNrFaces st) ∧
  (∀ x, convert env mesh = Ok x →
     length (x_grpStartFace x) = length (x_grpNrFaces x) ∧
     (length (x_grpNrFaces x) < length (x_grpNames x))%nat ∧
     ∃ evs, write_files env mesh x = (evs, Raise IndexError) ∧
       ((length (x_grpNames x) ≤ length (bound env))%nat →
        ∃ evs' g l, evs = evs' ++ [WritePatchName g; WritePatchType l])) ∧
  (∀ evs x, exportToFoam env mesh ≠ (evs, Completed x)).
Proof.
  intros Hin Hty Hnil.
  assert (Hconv : ∀ x, convert env mesh = Ok x →
     length (x_grpStartFace x) = length (x_grpNrFaces x) ∧
     (length (x_grpNrFaces x) < length (x_grpNames x))%nat ∧
     ∃ evs, write_files env mesh x = (evs, Raise IndexError) ∧
       ((length (x_grpNames x) ≤ length (bound env))%nat →
        ∃ evs' g l, evs = evs' ++ [WritePatchName g; WritePatchType l])).
  { intros x Hx.
    apply convert_Ok in Hx
      as (rd & t & Hres & _ & _ & _ & _ & Hnames & Hstarts & Hcounts & _).
    apply resolve_groups_Ok in Hres as (st & Hloop & ->).
    pose proof (resolver_inv_loop mesh _ _ _ (resolver_inv_init mesh) Hloop) as Hinv.
    destruct (default_group_tiles mesh st Hinv) as [Hlen _].
    destruct (default_group_names mesh st) as [_ Hdl].
    destruct (group_loop_empty_group mesh gr st Hin Hty Hnil Hloop) as [_ Hlt].
    rewrite Hstarts, Hcounts, Hnames.
    assert (Hshort : (length (grpNrFaces (rs (default_group mesh st)))
                      < length (grpNames (rs (default_group mesh st))))%nat) by lia.
    split_and!; [done..|].
    destruct (write_patches_short (bound env)
                (grpNrFaces (rs (default_group mesh st)))
                (grpStartFace (rs (default_group mesh st)))
                (grpNames (rs (default_group mesh st))) 0) as (evs2 & Hr & Hev);
      [lia|done|lia|].
    unfold write_files. rewrite Hcounts, Hstarts, Hnames, Hr.
    eexists. split; [done|]. intros Hb.
    destruct Hev as (evs' & g & l & ->); [lia|].
    eexists (_ :: _ :: _ :: _ :: _ :: evs'), g, l. done. }
  split_and!; [|done|].
  - intros st. unfold process_group. rewrite decide_True by done.
    unfold isGroupBaffle. rewrite Hnil. simpl.
    eexists. split; [done|]. simpl. done.
  - intros evs x (Hx & evs' & Hw)%exportToFoam_Completed.
    destruct (Hconv x Hx) as (_ & _ & evs2 & Hr & _). congruence.
Qed.

Lemma empty_face_group_index_error_witness :
  ∃ x evs,
    convert (run_env true) emptyGroupMesh = Ok x ∧
    (length (x_grpNrFaces x) < length (x_grpNames x))%nat ∧
    write_files (run_env true) emptyGroupMesh x = (evs, Raise IndexError).
Proof.
  assert (Hin : mkGroup "empty" FACE [] ∈ GetGroups emptyGroupMesh).
  { simpl. right. by left. }
  destruct (empty_face_group_index_error (run_env true) emptyGroupMesh
              (mkGroup "empty" FACE []) Hin eq_refl eq_refl) as (_ & H2 & _).
  destruct (convert (run_env true) emptyGroupMesh) as [x|e] eqn:Hc.
  2:{ vm_compute in Hc. discriminate Hc. }
  destruct (H2 x eq_refl) as (_ & Hlt & evs & Hw & _).
  exists x, evs. split; [reflexivity|]. split; [exact Hlt|exact Hw].
Defined.

Example empty_group_export :
  (exportToFoam (run_env true) emptyGroupMesh).2 = Raised IndexError ∧
  last (exportToFoam (run_env true) emptyGroupMesh).1 = Some (WritePatchType "patch").
Proof. by vm_compute. Qed.

(** * Further properties of the code *)

(** ** More on keys *)

Lemma Sorted_mono {A} (R R' : relation A) (l : list A) :
  (∀ x y, R x y → R' x y) → Sorted R l → Sorted R' l.
Proof.
  intros HR. induction 1 as [|x l Hs IH Hhd]; constructor; [done|].
  destruct Hhd; constructor; auto.
Qed.

Lemma Key_Sorted (l : list Z) : Sorted Z.le (Key l).
Proof. apply (sorted_by_Sorted id). Qed.

Lemma Key_perm (l : list Z) : Key l ≡ₚ l.
Proof. apply sorted_by_Permutation. Qed.

(** Property X1. [Key] is a canonical form of a node list up to order:
    two lists have the same key exactly when one is a rearrangement of
    the other; the key ascends, holds the nodes of the list as often as
    the list does, and is its own key. *)
Theorem Key_canonical (a b : list Z) :
  (a ≡ₚ b ↔ Key a = Key b) ∧ Sorted Z.le (Key a) ∧ Key a ≡ₚ a ∧ Key (Key a) = Key a.
Proof.
  split_and!.
  - split; [apply Key_Permutation|].
    intros H. by rewrite <- (Key_perm a), <- (Key_perm b), H.
  - apply Key_Sorted.
  - apply Key_perm.
  - apply Key_Permutation, Key_perm.
Qed.

#[local] Instance Zge_transitive : Transitive (fun a b : Z => b ≤ a).
Proof. intros a b c. lia. Qed.

#[local] Instance Zge_antisymm : AntiSymm (=) (fun a b : Z => b ≤ a).
Proof. intros a b. lia. Qed.

Lemma sorted_reverse_reverse (l : list Z) : sorted_reverse l = reverse (sorted l).
Proof.
  apply (Sorted_unique (fun a b : Z => b ≤ a)).
  - eapply Sorted_mono; [|apply (sorted_by_Sorted Z.opp)]. simpl. intros; lia.
  - apply (Sorted_reverse Z.le), (sorted_by_Sorted id).
  - unfold sorted_reverse, sorted.
    by rewrite reverse_Permutation, !sorted_by_Permutation.
Qed.

Lemma ReverseKey_false_reverse (fnodes : list Z) :
  ReverseKey false fnodes = reverse (Key fnodes).
Proof. unfold ReverseKey, Key. by rewrite sorted_reverse_reverse. Qed.

Lemma Key_idemp (l : list Z) : Key (Key l) = Key l.
Proof. apply Key_Permutation, Key_perm. Qed.

Lemma Key_ReverseKey (fnodes : list Z) : Key (ReverseKey false fnodes) = Key fnodes.
Proof.
  rewrite ReverseKey_false_reverse. apply Key_Permutation.
  by rewrite reverse_Permutation, Key_perm.
Qed.

(** Property X2. The reversed key is the key read backwards, whichever
    branch of [ReverseKey] computes it (a list is sorted descending, a
    tuple that is a key is reversed), and a face found under a reversed
    key has the key of the face that was stored. *)
Theorem ReverseKey_reverse (fnodes : list Z) :
  ReverseKey false fnodes = reverse (Key fnodes) ∧
  ReverseKey true (Key fnodes) = ReverseKey false fnodes ∧
  Key (ReverseKey false fnodes) = Key fnodes.
Proof.
  unfold ReverseKey, Key. rewrite sorted_reverse_reverse. split_and!; [done..|].
  apply Key_Permutation. unfold sorted.
  by rewrite reverse_Permutation, sorted_by_Permutation.
Qed.

Lemma Sorted_both_const (k : list Z) :
  Sorted Z.le k → Sorted (fun a b : Z => b ≤ a) k →
  ∀ x y, x ∈ k → y ∈ k → x = y.
Proof.
  intros H1%(Sorted_StronglySorted Z.le) H2%(Sorted_StronglySorted _).
  assert (Hhd : ∀ a k', k = a :: k' → ∀ x, x ∈ k → x = a).
  { intros a k' ->. apply StronglySorted_inv in H1 as [_ F1].
    apply StronglySorted_inv in H2 as [_ F2].
    rewrite Forall_forall in F1, F2.
    intros x [->|Hx]%elem_of_cons; [done|].
    specialize (F1 x Hx). specialize (F2 x Hx). lia. }
  destruct k as [|a k']; [by intros ? ? ?%elem_of_nil|].
  intros x y Hx Hy. rewrite (Hhd a k' eq_refl x Hx), (Hhd a k' eq_refl y Hy). done.
Qed.

Lemma const_Sorted (R : relation Z) `{!Reflexive R} (l : list Z) :
  (∀ x y, x ∈ l → y ∈ l → x = y) → Sorted R l.
Proof.
  induction l as [|a l IH]; intros H; constructor.
  - apply IH. intros x y Hx Hy. apply H; by right.
  - destruct l as [|b l]; constructor.
    rewrite (H a b); [done|by left|right; by left].
Qed.

(** Property X3. The key and the reversed key of a face are the same
    dictionary key only when the face has one node (repeated or not):
    on a face with two different nodes the two entries a baffle face
    gets never overwrite each other. *)
Theorem ReverseKey_collides (fnodes : list Z) :
  Key fnodes = ReverseKey false fnodes ↔ ∀ x y, x ∈ fnodes → y ∈ fnodes → x = y.
Proof.
  rewrite ReverseKey_false_reverse. split.
  - intros Heq x y Hx Hy.
    apply (Sorted_both_const (Key fnodes)).
    + apply Key_Sorted.
    + rewrite Heq. apply (Sorted_reverse Z.le). apply Key_Sorted.
    + by rewrite Key_perm.
    + by rewrite Key_perm.
  - intros Hc.
    assert (Hid : Key fnodes = fnodes).
    { apply (sorted_by_id id), (const_Sorted Z.le), Hc. }
    rewrite Hid.
    apply (Sorted_unique Z.le).
    + by apply (const_Sorted Z.le).
    + apply (const_Sorted Z.le). intros x y Hx Hy. rewrite elem_of_reverse in Hx, Hy. by apply Hc.
    + by rewrite reverse_Permutation.
Qed.

(** ** The boundary face table after step [1] *)

Lemma registry_ok_push r k f :
  registry_ok r → k = Key f ∨ k = ReverseKey false f → registry_ok (push_face r k f).
Proof.
  intros [Hlen Hval] Hk. split; simpl.
  - rewrite length_app. simpl. lia.
  - intros k' v Hv. destruct (decide (k = k')) as [<-|Hne].
    + rewrite lookup_insert_eq in Hv. injection Hv as <-. split; [lia|].
      exists f. split; [|done].
      rewrite Hlen, Nat2Z.id. by apply list_lookup_middle.
    + rewrite lookup_insert_ne in Hv by done.
      destruct (Hval k' v Hv) as (Hr & f' & Hf' & Hk'). split; [lia|].
      exists f'. split; [|done]. rewrite lookup_app_l; [done|].
      by eapply lookup_lt_Some.
Qed.

Lemma register_faces_ok mesh gr ids : ∀ r r',
  registry_ok r → foldM (register_face mesh gr) r ids = Ok r' → registry_ok r'.
Proof.
  intros r r' Hr. apply (foldM_invariant registry_ok); [|done].
  intros s a s' _ Hs [_ ->]%register_face_Ok.
  apply (registry_ok_push s (key_of mesh a) (GetElemNodes mesh a)); [done|by left].
Qed.

Lemma register_reversed_ok mesh ids : ∀ r,
  registry_ok r → registry_ok (foldl (register_reversed mesh) r ids).
Proof.
  induction ids as [|s ids IH]; intros r Hr; simpl; [done|].
  apply IH.
  apply (registry_ok_push r (ReverseKey false (GetElemNodes mesh s))
           (GetElemNodes mesh s)); [done|by right].
Qed.

Lemma collect_default_step mesh r ids face :
  collect_default mesh (r, ids) face
  = match bcFacesSorted r !! key_of mesh face with
    | Some _ => (r, ids)
    | None => (push_face r (key_of mesh face) (GetElemNodes mesh face), ids ++ [face])
    end.
Proof. reflexivity. Qed.

(** What the loop over the free faces adds to the table. *)
Lemma collect_default_fold mesh ext : ∀ r ids r' ids',
  foldl (collect_default mesh) (r, ids) ext = (r', ids') →
  ∃ added,
    ids' = ids ++ added ∧
    bcFaces r' = bcFaces r ++ (GetElemNodes mesh <$> added) ∧
    ofbcfid r' = ofbcfid r + Z.of_nat (length added) ∧
    (registry_ok r → registry_ok r') ∧
    (∀ id, id ∈ added → id ∈ ext ∧ bcFacesSorted r !! key_of mesh id = None) ∧
    NoDup (key_of mesh <$> added) ∧
    (∀ id, id ∈ ext → is_Some (bcFacesSorted r' !! key_of mesh id)) ∧
    (∀ k, is_Some (bcFacesSorted r !! k) → bcFacesSorted r' !! k = bcFacesSorted r !! k) ∧
    (∀ k, is_Some (bcFacesSorted r' !! k) →
          is_Some (bcFacesSorted r !! k) ∨ k ∈ key_of mesh <$> added).
Proof.
  induction ext as [|face ext IH]; intros r ids r' ids'; cbn [foldl].
  - intros [= <- <-]. exists []. rewrite !app_nil_r. simpl.
    split_and!;
      first [done | lia | by constructor | by intros ? ?%elem_of_nil
            | by (intros k Hk; left)].
  - rewrite collect_default_step.
    destruct (bcFacesSorted r !! key_of mesh face) as [v|] eqn:Hface.
    + intros (added & -> & Hb & Ho & Hok & Hin & Hnd & Hall & Hkeep & Hdom)%IH.
      exists added. split_and!; try done.
      * intros id Hid. destruct (Hin id Hid). split; [by right|done].
      * intros id [->|Hid]%elem_of_cons; [|by apply Hall].
        rewrite Hkeep; rewrite Hface; eauto.
    + intros (added & -> & Hb & Ho & Hok & Hin & Hnd & Hall & Hkeep & Hdom)%IH.
      cbn [push_face bcFaces bcFacesSorted ofbcfid] in *.
      assert (Hreg : bcFacesSorted r' !! key_of mesh face = Some (ofbcfid r)).
      { rewrite Hkeep; rewrite lookup_insert_eq; eauto. }
      exists (face :: added). simpl. split_and!.
      * by rewrite <- app_assoc.
      * by rewrite Hb, <- app_assoc.
      * lia.
      * intros Hr. apply Hok.
        apply (registry_ok_push r (key_of mesh face) (GetElemNodes mesh face));
          [done|by left].
      * intros id [->|Hid]%elem_of_cons; [split; [by left|done]|].
        destruct (Hin id Hid) as [He Hn]. split; [by right|].
        destruct (decide (key_of mesh face = key_of mesh id)) as [Heq|Hne].
        -- rewrite Heq, lookup_insert_eq in Hn. done.
        -- by rewrite lookup_insert_ne in Hn.
      * constructor; [|done]. intros (id & Heq & Hid)%list_elem_of_fmap.
        destruct (Hin id Hid) as [_ Hn]. rewrite <- Heq, lookup_insert_eq in Hn. done.
      * intros id [->|Hid]%elem_of_cons; [by eexists|by apply Hall].
      * intros k Hk. rewrite Hkeep.
        -- rewrite lookup_insert_ne; [done|]. intros <-. rewrite Hface in Hk.
           by destruct Hk.
        -- destruct (decide (key_of mesh face = k)) as [<-|Hne].
           ++ rewrite lookup_insert_eq. eauto.
           ++ by rewrite lookup_insert_ne.
      * intros k Hk. destruct (Hdom k Hk) as [Hk'|Hk'].
        -- destruct (decide (key_of mesh face = k)) as [<-|Hne].
           ++ right. by left.
           ++ rewrite lookup_insert_ne in Hk' by done. by left.
        -- right. by right.
Qed.

Lemma process_group_registry_ok mesh st gr st' :
  registry_ok (reg st) → process_group mesh st gr = Ok st' → registry_ok (reg st').
Proof.
  intros Hr Hstep. destruct (decide (GetType gr = FACE)) as [Hty|Hty].
  - apply process_group_face in Hstep as (r & Hreg & _ & Hcase); [|done].
    apply register_faces_ok in Hreg; [|done].
    destruct (isGroupBaffle gr _).
    + destruct Hcase as (_ & _ & _ & -> & _). by apply register_reversed_ok.
    + by destruct Hcase as (_ & _ & _ & -> & _).
  - rewrite process_group_other in Hstep by done. by injection Hstep as <-.
Qed.

Lemma default_group_unfold mesh st :
  (nrExtFacesInGroups st < nrExtFaces mesh ∧
   ∃ r ids, foldl (collect_default mesh) (reg st, []) (extFaces mesh) = (r, ids) ∧
     reg (rs (default_group mesh st)) = r ∧
     defGroup (default_group mesh st)
     = Some (mkGroup (newGrpName (grpNames st)) FACE ids))
  ∨ (nrExtFaces mesh ≤ nrExtFacesInGroups st ∧ default_group mesh st = mkResolved st None).
Proof.
  unfold default_group. case_bool_decide.
  - left. split; [done|]. destruct (foldl _ _ _) as [r ids]. by exists r, ids.
  - right. split; [lia|done].
Qed.

Lemma resolve_groups_registry_ok mesh rd :
  resolve_groups mesh = Ok rd → registry_ok (reg (rs rd)).
Proof.
  intros (st & Hloop & ->)%resolve_groups_Ok.
  assert (Hst : registry_ok (reg st)).
  { revert Hloop. apply (foldM_invariant (fun s => registry_ok (reg s))).
    - intros s a s' _. apply process_group_registry_ok.
    - split; simpl; [done|]. intros k v Hv. by rewrite lookup_empty in Hv. }
  destruct (default_group_unfold mesh st)
    as [(_ & r & ids & Hf & -> & _)|(_ & ->)]; [|done].
  apply collect_default_fold in Hf as (added & _ & _ & _ & Hok & _). by apply Hok.
Qed.

(** Property X4. When step [1] ends well the boundary face table is
    well formed: [ofbcfid] is the number of faces in [bcFaces], and
    every index stored in [bcFacesSorted] addresses a face of [bcFaces]
    whose nodes have the key, or the reversed key, it is stored
    under. *)
Theorem boundary_table_well_formed mesh rd :
  resolve_groups mesh = Ok rd → registry_ok (reg (rs rd)).
Proof. apply resolve_groups_registry_ok. Qed.

(** Witness of X4: the mesh with a baffle group. *)
Lemma boundary_table_well_formed_witness :
  ∃ rd, resolve_groups baffleMesh = Ok rd ∧ registry_ok (reg (rs rd)).
Proof.
  destruct (resolve_groups baffleMesh) as [rd|e] eqn:H;
    [|vm_compute in H; discriminate H].
  exists rd. split; [reflexivity|].
  exact (boundary_table_well_formed baffleMesh rd H).
Defined.

(** Property X5. When step [1] ends well every free face of the mesh
    has its key in the boundary face table, whether a group of the mesh
    or the default group brought it there: the cell pass finds every
    outer face of a cell among the boundary faces. *)
Theorem free_faces_registered mesh rd id :
  resolve_groups mesh = Ok rd → id ∈ extFaces mesh →
  is_Some (bcFacesSorted (reg (rs rd)) !! Key (GetElemNodes mesh id)).
Proof.
  intros (st & Hloop & ->)%resolve_groups_Ok Hid.
  pose proof (resolver_inv_loop mesh _ _ _ (resolver_inv_init mesh) Hloop) as Hinv.
  destruct (default_group_unfold mesh st)
    as [(_ & r & ids & Hf & -> & _)|(Hge & ->)].
  - apply collect_default_fold in Hf as (added & _ & _ & _ & _ & _ & _ & Hall & _).
    by apply Hall.
  - simpl. destruct Hinv as [_ _ _ (claimed & Hnd & Hsub & Hlen & Hkeys)].
    apply Hkeys.
    assert (Hperm : claimed ≡ₚ extFaces mesh).
    { apply submseteq_length_Permutation.
      - by apply NoDup_submseteq.
      - unfold nrExtFaces in Hge. lia. }
    by rewrite Hperm.
Qed.

(** Witness of X5: face 14 of the mesh with a baffle group, which no
    group of the mesh holds. *)
Lemma free_faces_registered_witness :
  ∃ rd, resolve_groups baffleMesh = Ok rd ∧ 14 ∈ extFaces baffleMesh ∧
    is_Some (bcFacesSorted (reg (rs rd)) !! Key (GetElemNodes baffleMesh 14)).
Proof.
  destruct (resolve_groups baffleMesh) as [rd|e] eqn:H;
    [|vm_compute in H; discriminate H].
  assert (Hin : 14 ∈ extFaces baffleMesh) by (vm_compute; repeat constructor).
  exists rd. split; [reflexivity|]. split; [exact Hin|].
  exact (free_faces_registered baffleMesh rd 14 H Hin).
Defined.

(** Property X6. The default group, when one is made, is a face group
    under a name that is not in [grpNames], so that no face group of
    the mesh has it (the names of groups of other types are not looked
    at); its members are free faces whose key no group registered, no
    two of them alike or with the same key; every free face that no
    group registered has the key of one of them; and their node lists
    are appended to [bcFaces] in the order of the members. *)
Theorem default_group_members mesh st g :
  foldM (process_group mesh) (resolver_init mesh) (GetGroups mesh) = Ok st →
  defGroup (default_group mesh st) = Some g →
  GetType g = FACE ∧
  (GetName g ∉ grpNames st) ∧
  (∀ gr, gr ∈ GetGroups mesh → GetType gr = FACE → GetName gr ≠ GetName g) ∧
  NoDup (GetIDs g) ∧
  NoDup (key_of mesh <$> GetIDs g) ∧
  (∀ id, id ∈ GetIDs g →
         id ∈ extFaces mesh ∧ bcFacesSorted (reg st) !! key_of mesh id = None) ∧
  (∀ id, id ∈ extFaces mesh → bcFacesSorted (reg st) !! key_of mesh id = None →
         key_of mesh id ∈ key_of mesh <$> GetIDs g) ∧
  bcFaces (reg (rs (default_group mesh st)))
  = bcFaces (reg st) ++ (GetElemNodes mesh <$> GetIDs g).
Proof.
  intros Hloop Hg.
  destruct (default_group_unfold mesh st)
    as [(_ & r & ids & Hf & Hr & Hd)|(_ & Hd)]; [|by rewrite Hd in Hg].
  rewrite Hd in Hg. injection Hg as <-. simpl. rewrite Hr.
  apply collect_default_fold
    in Hf as (added & -> & Hb & _ & _ & Hin & Hnd & Hall & _ & Hdom).
  simpl. split_and!; [done|apply newGrpName_fresh| | |done|done| |done].
  - intros gr Hgr Hty Heq.
    apply (proj1 (newGrpName_fresh (grpNames st))). rewrite <- Heq.
    rewrite (group_loop_names mesh _ _ _ Hloop). simpl.
    apply list_elem_of_fmap. exists gr. split; [done|].
    by apply list_elem_of_filter.
  - by eapply NoDup_fmap_1.
  - intros id Hid Hnone. destruct (Hdom (key_of mesh id) (Hall id Hid)) as [Hs|Hk].
    + rewrite Hnone in Hs. by destruct Hs.
    + done.
Qed.

(** Witness of X6: the mesh with a baffle group, whose default group
    holds the faces 14, 15 and 16. *)
Lemma default_group_members_witness :
  ∃ st g,
    foldM (process_group baffleMesh) (resolver_init baffleMesh) (GetGroups baffleMesh)
    = Ok st ∧
    defGroup (default_group baffleMesh st) = Some g ∧
    GetIDs g = [14; 15; 16] ∧
    GetType g = FACE ∧
    (GetName g ∉ grpNames st) ∧
    (∀ gr, gr ∈ GetGroups baffleMesh → GetType gr = FACE → GetName gr ≠ GetName g) ∧
    NoDup (GetIDs g) ∧
    NoDup (key_of baffleMesh <$> GetIDs g) ∧
    (∀ id, id ∈ GetIDs g →
           id ∈ extFaces baffleMesh ∧
           bcFacesSorted (reg st) !! key_of baffleMesh id = None) ∧
    (∀ id, id ∈ extFaces baffleMesh →
           bcFacesSorted (reg st) !! key_of baffleMesh id = None →
           key_of baffleMesh id ∈ key_of baffleMesh <$> GetIDs g) ∧
    bcFaces (reg (rs (default_group baffleMesh st)))
    = bcFaces (reg st) ++ (GetElemNodes baffleMesh <$> GetIDs g).
Proof.
  destruct (foldM (process_group baffleMesh) (resolver_init baffleMesh)
              (GetGroups baffleMesh)) as [st|e] eqn:H;
    [|vm_compute in H; discriminate H].
  destruct (defGroup (default_group baffleMesh st)) as [g|] eqn:G.
  2:{ exfalso. pose proof H as H'. vm_compute in H'. injection H' as <-.
      vm_compute in G. discriminate G. }
  exists st, g. split; [reflexivity|]. split; [exact G|].
  split.
  - pose proof H as H'. vm_compute in H'. injection H' as <-.
    vm_compute in G. injection G as <-. reflexivity.
  - exact (default_group_members baffleMesh st g H G).
Defined.

(** Property X7. When step [1] ends well, every index [v] of the boundary
    face table makes [nrIntFaces + v], the position the cell pass writes
    the owner of that face to, a face number from [nrIntFaces] on and
    below [nrFaces]. *)
Theorem boundary_index_range mesh rd k v :
  resolve_groups mesh = Ok rd →
  bcFacesSorted (reg (rs rd)) !! k = Some v →
  nrIntFaces (rs rd) ≤ nrIntFaces (rs rd) + v < nrFaces (rs rd).
Proof.
  intros Hres Hv.
  destruct (resolve_groups_registry_ok mesh rd Hres) as [Hlen Hval].
  destruct (Hval k v Hv) as [Hrange _].
  apply resolve_groups_Ok in Hres as (st & Hloop & ->).
  pose proof (resolver_inv_loop mesh _ _ _ (resolver_inv_init mesh) Hloop) as Hinv.
  pose proof (claimed_bound mesh st Hinv) as Hle.
  destruct Hinv as [_ _ Hbal (claimed & Hnd & Hsub & Hcl & Hkeys)].
  destruct (default_group_counts mesh st) as [HF HI]. rewrite HF, HI.
  destruct (default_group_unfold mesh st)
    as [(Hlt & r & ids & Hf & Hr & _)|(Hge & Hd)].
  - rewrite Hr in Hrange.
    apply collect_default_fold
      in Hf as (added & _ & _ & Ho & _ & Hin & Hndk & _).
    assert (Hadd : (length (added ++ claimed) ≤ length (extFaces mesh))%nat).
    { apply submseteq_length, NoDup_submseteq.
      - apply NoDup_app. split_and!; [by eapply NoDup_fmap_1| |done].
        intros id Hid Hid'. destruct (Hin id Hid) as [_ Hnone].
        specialize (Hkeys id Hid'). rewrite Hnone in Hkeys. by destruct Hkeys.
      - intros id [Hid|Hid]%elem_of_app; [by apply Hin|by apply Hsub]. }
    rewrite length_app in Hadd. unfold nrExtFaces in *. lia.
  - rewrite Hd in Hrange. simpl in Hrange. lia.
Qed.

(** Witness of X7: the face of nodes 2, 5, 3 of the mesh with a baffle
    group. *)
Lemma boundary_index_range_witness :
  ∃ rd v, resolve_groups baffleMesh = Ok rd ∧
    bcFacesSorted (reg (rs rd)) !! [2; 3; 5] = Some v ∧
    nrIntFaces (rs rd) ≤ nrIntFaces (rs rd) + v < nrFaces (rs rd).
Proof.
  destruct (resolve_groups baffleMesh) as [rd|e] eqn:H;
    [|vm_compute in H; discriminate H].
  destruct (bcFacesSorted (reg (rs rd)) !! [2; 3; 5]) as [v|] eqn:Hv.
  2:{ exfalso. pose proof H as H'. vm_compute in H'. injection H' as <-.
      vm_compute in Hv. discriminate Hv. }
  exists rd, v. split; [reflexivity|]. split; [exact Hv|].
  exact (boundary_index_range baffleMesh rd [2; 3; 5] v H Hv).
Defined.

(** ** When step [1] raises *)

Section Conflict.
Variable mesh : Mesh.

Lemma register_faces_dom gr ids : ∀ r r' k,
  foldM (register_face mesh gr) r ids = Ok r' →
  is_Some (bcFacesSorted r' !! k) →
  is_Some (bcFacesSorted r !! k) ∨ k ∈ key_of mesh <$> ids.
Proof.
  induction ids as [|s ids IH]; intros r r' k; simpl.
  - intros [= <-]. by left.
  - destruct (register_face mesh gr r s) as [r1|] eqn:E; simpl; [|done].
    apply register_face_Ok in E as [_ ->].
    intros Hrest Hk. destruct (IH _ _ k Hrest Hk) as [Hk'|Hk'].
    + simpl in Hk'. destruct (decide (key_of mesh s = k)) as [<-|Hne].
      * right. by left.
      * rewrite lookup_insert_ne in Hk' by done. by left.
    + right. by right.
Qed.

Lemma register_reversed_dom ids : ∀ r k,
  is_Some (bcFacesSorted (foldl (register_reversed mesh) r ids) !! k) →
  is_Some (bcFacesSorted r !! k) ∨ k ∈ rkey_of mesh <$> ids.
Proof.
  induction ids as [|s ids IH]; intros r k; simpl; [by left|].
  intros [Hk|Hk]%IH.
  - unfold register_reversed in Hk. cbn [bcFacesSorted] in Hk.
    destruct (decide (rkey_of mesh s = k)) as [<-|Hne].
    + right. by left.
    + unfold rkey_of in Hne. rewrite lookup_insert_ne in Hk by done. by left.
  - right. by right.
Qed.

Lemma register_face_fresh gr r s :
  bcFacesSorted r !! key_of mesh s = None →
  register_face mesh gr r s = Ok (push_face r (key_of mesh s) (GetElemNodes mesh s)).
Proof. unfold register_face, key_of. by intros ->. Qed.

Lemma register_faces_succeeds gr ids : ∀ r,
  (∀ id, id ∈ ids → bcFacesSorted r !! key_of mesh id = None) →
  NoDup (key_of mesh <$> ids) →
  ∃ r', foldM (register_face mesh gr) r ids = Ok r'.
Proof.
  induction ids as [|s ids IH]; intros r Hfresh Hnd; simpl; [by eexists|].
  apply NoDup_cons in Hnd as [Hs Hnd].
  rewrite register_face_fresh by (apply Hfresh; by left).
  cbn [mbind res_bind]. apply IH; [|done].
  intros id Hid. cbn [push_face bcFacesSorted]. rewrite lookup_insert_ne.
  - apply Hfresh. by right.
  - intros Heq. apply Hs. rewrite Heq. apply list_elem_of_fmap. by exists id.
Qed.

Lemma register_faces_raise gr ids : ∀ r e,
  foldM (register_face mesh gr) r ids = Raise e →
  ∃ sfid, sfid ∈ ids ∧
    e = Exception (conflict_msg sfid (GetElemNodes mesh sfid) (GetName gr)).
Proof.
  induction ids as [|s ids IH]; intros r e; simpl; [done|].
  destruct (register_face mesh gr r s) as [r1|e1] eqn:E; simpl.
  - intros (sfid & Hin & ->)%IH. exists sfid. split; [by right|done].
  - intros [= <-]. exists s. split; [by left|].
    unfold register_face in E.
    destruct (bcFacesSorted r !! Key (GetElemNodes mesh s)); by inversion E.
Qed.

Lemma process_group_succeeds st gr r :
  GetType gr = FACE →
  foldM (register_face mesh gr) (reg st) (GetIDs gr) = Ok r →
  ∃ st', process_group mesh st gr = Ok st'.
Proof.
  intros Hty Hr. unfold process_group. rewrite decide_True by done.
  rewrite Hr. cbn [mbind res_bind].
  destruct (isGroupBaffle gr (extFaces mesh)) eqn:Hb; [|by eexists].
  apply isGroupBaffle_loop_true in Hb as (sid & Hin & _).
  destruct (GetIDs gr) as [|i ids] eqn:Hids; [by apply elem_of_nil in Hin|].
  rewrite bool_decide_eq_true_2 by (simpl length; lia).
  rewrite setitem_last. by eexists.
Qed.

Lemma process_group_raise st gr e :
  process_group mesh st gr = Raise e →
  GetType gr = FACE ∧
  ∃ sfid, sfid ∈ GetIDs gr ∧
    e = Exception (conflict_msg sfid (GetElemNodes mesh sfid) (GetName gr)).
Proof.
  intros Hstep. destruct (decide (GetType gr = FACE)) as [Hty|Hty].
  2:{ by rewrite process_group_other in Hstep. }
  split; [done|].
  destruct (foldM (register_face mesh gr) (reg st) (GetIDs gr)) as [r|e'] eqn:Hr.
  - destruct (process_group_succeeds st gr r Hty Hr) as [st' Hst']. congruence.
  - unfold process_group in Hstep. rewrite decide_True, Hr in Hstep by done.
    injection Hstep as <-. by eapply register_faces_raise.
Qed.

Lemma key_rkey_same (a b : Z) : key_of mesh a = rkey_of mesh b → key_of mesh a = key_of mesh b.
Proof.
  intros H. unfold key_of, rkey_of in *.
  by rewrite <- (Key_idemp (GetElemNodes mesh a)), H, Key_ReverseKey.
Qed.

Lemma process_group_table st gr st' P :
  GetType gr = FACE → table_of mesh (reg st) P →
  process_group mesh st gr = Ok st' → table_of mesh (reg st') (P ++ GetIDs gr).
Proof.
  intros Hty [Hdom Hmem] Hstep.
  apply process_group_face in Hstep as (r & Hr & _ & Hcase); [|done].
  assert (Hr_dom : ∀ k, is_Some (bcFacesSorted r !! k) →
            ∃ p, p ∈ P ++ GetIDs gr ∧ (k = key_of mesh p ∨ k = rkey_of mesh p)).
  { intros k Hk. destruct (register_faces_dom gr _ _ _ k Hr Hk) as [Hk'|Hk'].
    - destruct (Hdom k Hk') as (p & Hp & Hkp). exists p.
      split; [apply elem_of_app; by left|done].
    - apply list_elem_of_fmap in Hk' as (p & -> & Hp). exists p.
      split; [apply elem_of_app; by right|by left]. }
  apply register_faces_Ok in Hr as (_ & _ & _ & _ & Hsome & Hkeep).
  assert (Hr_mem : ∀ p, p ∈ P ++ GetIDs gr → is_Some (bcFacesSorted r !! key_of mesh p)).
  { intros p [Hp|Hp]%elem_of_app; [|by apply Hsome].
    rewrite Hkeep; by apply Hmem. }
  destruct (isGroupBaffle gr _).
  - destruct Hcase as (_ & _ & _ & -> & _). split.
    + intros k [Hk|Hk]%register_reversed_dom; [by apply Hr_dom|].
      apply list_elem_of_fmap in Hk as (p & -> & Hp). exists p.
      split; [apply elem_of_app; by right|by right].
    + intros p Hp. by apply register_reversed_keeps, Hr_mem.
  - destruct Hcase as (_ & _ & _ & -> & _). by split.
Qed.

Lemma group_loop_iff groups : ∀ st P,
  table_of mesh (reg st) P → NoDup (key_of mesh <$> P) →
  (∃ st', foldM (process_group mesh) st groups = Ok st')
  ↔ NoDup (key_of mesh <$> (P ++ members groups)).
Proof.
  induction groups as [|gr groups IH]; intros st P Htab HP; simpl.
  - rewrite app_nil_r. split; [done|by eexists].
  - destruct (decide (GetType gr = FACE)) as [Hty|Hty].
    2:{ rewrite process_group_other by done. simpl. by apply IH. }
    rewrite app_assoc. split.
    + intros [st' Hloop].
      destruct (process_group mesh st gr) as [st1|] eqn:Hstep; simpl in Hloop; [|done].
      pose proof (process_group_table st gr st1 P Hty Htab Hstep) as Htab1.
      apply IH with (st := st1); [done| |by eexists].
      apply process_group_face in Hstep as (r & Hr & _); [|done].
      apply register_faces_Ok in Hr as (_ & _ & Hnd & Hnone & _).
      rewrite fmap_app. apply NoDup_app. split_and!; [done| |done].
      intros k (p & -> & Hp)%list_elem_of_fmap (q & Heq & Hq)%list_elem_of_fmap.
      destruct Htab as [_ Hmem]. specialize (Hmem p Hp).
      rewrite Heq, (Hnone q Hq) in Hmem. by destruct Hmem.
    + intros Hnd.
      assert (Hnd1 : NoDup (key_of mesh <$> (P ++ GetIDs gr))).
      { rewrite fmap_app in Hnd. by apply NoDup_app in Hnd as (? & _ & _). }
      rewrite fmap_app in Hnd1. apply NoDup_app in Hnd1 as (_ & Hdisj & Hids).
      destruct (register_faces_succeeds gr (GetIDs gr) (reg st)) as [r Hr]; [|done|].
      { intros id Hid.
        destruct (bcFacesSorted (reg st) !! key_of mesh id) as [v|] eqn:Hv; [|done].
        exfalso. destruct Htab as [Hdom _].
        destruct (Hdom (key_of mesh id) ltac:(by eexists)) as (p & Hp & Hkp).
        assert (Hsame : key_of mesh id = key_of mesh p).
        { destruct Hkp as [?|?]; [done|by apply key_rkey_same]. }
        apply (Hdisj (key_of mesh p)).
        - apply list_elem_of_fmap. by exists p.
        - rewrite <- Hsame. apply list_elem_of_fmap. by exists id. }
      destruct (process_group_succeeds st gr r Hty Hr) as [st1 Hstep].
      rewrite Hstep. simpl.
      apply IH with (P := P ++ GetIDs gr); [|by rewrite fmap_app; apply NoDup_app|done].
      by eapply process_group_table.
Qed.

Lemma group_loop_raise groups : ∀ st e,
  foldM (process_group mesh) st groups = Raise e →
  ∃ gr sfid, gr ∈ groups ∧ GetType gr = FACE ∧ sfid ∈ GetIDs gr ∧
    e = Exception (conflict_msg sfid (GetElemNodes mesh sfid) (GetName gr)).
Proof.
  induction groups as [|gr groups IH]; intros st e; simpl; [done|].
  destruct (process_group mesh st gr) as [st1|e1] eqn:Hstep; simpl.
  - intros (g & sfid & Hg & H)%IH. exists g, sfid. split; [by right|done].
  - intros [= <-]. apply process_group_raise in Hstep as (Hty & sfid & Hin & ->).
    exists gr, sfid. split; [by left|done].
Qed.

End Conflict.

(** Property X8. Step [1] ends well exactly when no two member faces of
    the face groups, read group by group and member by member, have the
    same key: a face element listed twice, in one group or in two, or
    two face elements on the same nodes, and nothing else, make it
    raise. *)
Theorem step1_succeeds_iff_distinct_keys mesh :
  (∃ rd, resolve_groups mesh = Ok rd)
  ↔ NoDup (key_of mesh <$> members (GetGroups mesh)).
Proof.
  rewrite <- (group_loop_iff mesh (GetGroups mesh) (resolver_init mesh) []).
  - unfold resolve_groups. split.
    + intros [rd Hrd]. destruct (foldM _ _ _) as [st|]; [by eexists|done].
    + intros [st ->]. by eexists.
  - split; simpl.
    + intros k Hk. rewrite lookup_empty in Hk. by destruct Hk.
    + intros ? ?%elem_of_nil. done.
  - constructor.
Qed.

(** Property X9. The only exception step [1] raises is the conflict
    message, and it names a member face of a face group of the mesh,
    the nodes of that face and the name of that group. *)
Theorem step1_raises_only_conflict mesh e :
  resolve_groups mesh = Raise e →
  ∃ gr sfid, gr ∈ GetGroups mesh ∧ GetType gr = FACE ∧ sfid ∈ GetIDs gr ∧
    e = Exception (conflict_msg sfid (GetElemNodes mesh sfid) (GetName gr)).
Proof.
  unfold resolve_groups.
  destruct (foldM _ _ _) as [st|e'] eqn:Hloop; simpl; [done|].
  intros [= <-]. by eapply group_loop_raise.
Qed.

(** Witness of X9: the mesh whose two groups both hold face 12. *)
Lemma step1_raises_only_conflict_witness :
  ∃ e, resolve_groups conflictMesh = Raise e ∧
    ∃ gr sfid, gr ∈ GetGroups conflictMesh ∧ GetType gr = FACE ∧ sfid ∈ GetIDs gr ∧
      e = Exception (conflict_msg sfid (GetElemNodes conflictMesh sfid) (GetName gr)).
Proof.
  destruct (resolve_groups conflictMesh) as [rd|e] eqn:H;
    [vm_compute in H; discriminate H|].
  exists e. split; [reflexivity|].
  exact (step1_raises_only_conflict conflictMesh e H).
Defined.

(** ** The geometry kernel on short node lists *)

Lemma cog_Ok mesh nodes : nodes ≠ [] → ∃ c, cog mesh nodes = Ok c.
Proof.
  intros Hn. unfold cog. destruct nodes as [|n nodes]; [done|].
  destruct (foldl _ _ _) as [[c0 c1] c2]. by eexists.
Qed.

Lemma cog_nil mesh : cog mesh [] = Raise ZeroDivisionError.
Proof. reflexivity. Qed.

(** Property X10. [__verifyFaceOrder__] answers only for a cell with
    nodes and a face with two nodes or more. Without nodes of the cell,
    or of the face, the centre of gravity divides by zero; a face of
    one node makes [__calcNormal__] read [fnodes[1]] out of range.
    Nothing else is raised. *)
Theorem verifyFaceOrder_domain mesh vnodes fnodes :
  match verifyFaceOrder mesh vnodes fnodes with
  | Ok _ => vnodes ≠ [] ∧ (2 ≤ length fnodes)%nat
  | Raise e =>
      (e = ZeroDivisionError ∧ (vnodes = [] ∨ fnodes = [])) ∨
      (e = IndexError ∧ vnodes ≠ [] ∧ length fnodes = 1%nat)
  end.
Proof.
  unfold verifyFaceOrder, orientation.
  destruct vnodes as [|v vnodes].
  { rewrite cog_nil. simpl. left. split; [done|by left]. }
  destruct (cog_Ok mesh (v :: vnodes)) as [vc ->]; [done|].
  cbn [mbind res_bind].
  destruct fnodes as [|a [|b fnodes]].
  - rewrite cog_nil. simpl. left. split; [done|by right].
  - destruct (cog_Ok mesh [a]) as [fc ->]; [done|]. cbn [mbind res_bind].
    right. done.
  - destruct (cog_Ok mesh (a :: b :: fnodes)) as [fc ->]; [done|].
    cbn [mbind res_bind]. unfold calcNormal.
    rewrite (getitem_nonneg _ 0), (getitem_nonneg _ 1) by lia.
    cbn [lookup list_lookup Z.to_nat Pos.to_nat Pos.iter_op Nat.add mbind res_bind].
    assert (Hlast : ∃ z, getitem (a :: b :: fnodes) (-1) = Ok z).
    { unfold getitem, index. rewrite bool_decide_eq_false_2 by lia.
      rewrite bool_decide_eq_true_2 by (simpl length; lia).
      destruct (lookup_lt_is_Some_2 (a :: b :: fnodes)
                  (Z.to_nat (Z.of_nat (length (a :: b :: fnodes)) + -1)))
        as [z ->]; [simpl length; lia|by eexists]. }
    destruct Hlast as [z ->]. simpl. split; [done|lia].
Qed.

(** ** The face cache *)

Lemma buffer_loop_prefix (answers : list (list Z)) :
  ∃ rest, answers = buffer_loop answers ++ rest ∧
    (rest = [] ∨ head rest = Some []) ∧
    Forall (fun f => f ≠ []) (buffer_loop answers).
Proof.
  induction answers as [|f answers (rest & IH1 & IH2 & IH3)]; simpl.
  - exists []. split_and!; [done|by left|constructor].
  - destruct f as [|n f].
    + exists ([] :: answers). split_and!; [done|by right|constructor].
    + exists rest. simpl. split_and!; [by f_equal|done|by constructor].
Qed.

(** Property X11. The face cache of a [MeshBuffer] holds the answers of
    the host up to the first empty one, which it leaves out: the cached
    faces are non-empty, face [i] of the cache is face [i] of the host,
    and the host has no face at the index after the last one. *)
Theorem MeshBuffer_stops_at_empty mesh v :
  let b := MeshBuffer_init mesh v in
  ∃ rest,
    volumeFaces mesh v = buf_faces b ++ rest ∧
    (rest = [] ∨ head rest = Some []) ∧
    Forall (fun f => f ≠ []) (buf_faces b) ∧
    (∀ i : nat, (i < length (buf_faces b))%nat →
       buf_faces b !! i = Some (GetElemFaceNodes mesh v i)) ∧
    GetElemFaceNodes mesh v (length (buf_faces b)) = [].
Proof.
  simpl. destruct (buffer_loop_prefix (volumeFaces mesh v)) as (rest & H1 & H2 & H3).
  exists rest. split_and!; [done..| |].
  - intros i Hi. unfold GetElemFaceNodes. rewrite H1 at 2.
    rewrite lookup_app_l by done.
    by destruct (lookup_lt_is_Some_2 _ _ Hi) as [f ->].
  - unfold GetElemFaceNodes. rewrite H1 at 2.
    rewrite lookup_app_r by lia. rewrite Nat.sub_diag.
    destruct H2 as [->|H2]; [done|]. by destruct rest as [|[|??] ?].
Qed.

(** ** Runs that complete *)

Lemma write_patches_all names : ∀ labels counts starts ind,
  0 ≤ ind →
  ind + Z.of_nat (length names) ≤ Z.of_nat (length labels) →
  ind + Z.of_nat (length names) ≤ Z.of_nat (length counts) →
  ind + Z.of_nat (length names) ≤ Z.of_nat (length starts) →
  write_patches labels counts starts ind names
  = (patch_events names (drop (Z.to_nat ind) labels) (drop (Z.to_nat ind) counts)
       (drop (Z.to_nat ind) starts), Ok ()).
Proof.
  induction names as [|g names IH]; intros labels counts starts ind Hi Hl Hc Hs.
  - reflexivity.
  - simpl in *. rewrite !getitem_nonneg by lia.
    destruct (labels !! Z.to_nat ind) as [l|] eqn:El.
    2:{ apply lookup_ge_None_1 in El. lia. }
    destruct (counts !! Z.to_nat ind) as [n|] eqn:Ec.
    2:{ apply lookup_ge_None_1 in Ec. lia. }
    destruct (starts !! Z.to_nat ind) as [s|] eqn:Es.
    2:{ apply lookup_ge_None_1 in Es. lia. }
    rewrite IH by lia.
    rewrite (drop_S _ _ _ El), (drop_S _ _ _ Ec), (drop_S _ _ _ Es).
    replace (Z.to_nat (ind + 1)) with (S (Z.to_nat ind)) by lia. done.
Qed.

(** Every face group has a member: the entries keep up with the names. *)
Lemma group_loop_aligned mesh groups : ∀ st st',
  Forall (fun gr => GetType gr = FACE → GetIDs gr ≠ []) groups →
  foldM (process_group mesh) st groups = Ok st' →
  (length (grpNrFaces st') + length (grpNames st)
   = length (grpNrFaces st) + length (grpNames st'))%nat.
Proof.
  intros st st' Hne. revert st.
  induction Hne as [|gr groups Hgr _ IH]; intros st; simpl.
  - by intros [= <-].
  - destruct (process_group mesh st gr) as [st1|] eqn:E; simpl; [|done].
    intros Hrest%IH.
    destruct (decide (GetType gr = FACE)) as [Hty|Hty].
    + apply process_group_face in E as (r & _ & Hn & Hcase); [|done].
      assert (Hc : length (grpNrFaces st1) = S (length (grpNrFaces st))).
      { destruct (isGroupBaffle gr _).
        - destruct Hcase as (_ & _ & _ & _ & _ & -> & _). rewrite length_app. simpl. lia.
        - destruct Hcase as (_ & _ & _ & _ & _ & -> & _). rewrite length_app.
          rewrite bool_decide_eq_true_2; [simpl; lia|].
          specialize (Hgr Hty). destruct (GetIDs gr); [done|simpl; lia]. }
      rewrite Hn, length_app in Hrest. simpl in Hrest. lia.
    + rewrite process_group_other in E by done. by injection E as <-.
Qed.

(** Property X13. If one of the five files cannot be opened the export
    is aborted before anything is written: the trace holds fewer than
    five events, none of them a write. *)
Theorem export_aborts_unopened env mesh f :
  openable env f = false →
  ∃ evs, exportToFoam env mesh = (evs, Aborted) ∧
    Forall (fun ev => is_write ev = false) evs ∧ (length evs < 5)%nat.
Proof.
  intros Hf. unfold exportToFoam. simpl.
  destruct (openable env filePoints) eqn:H1;
    [destruct (openable env fileFaces) eqn:H2;
     [destruct (openable env fileOwner) eqn:H3;
      [destruct (openable env fileNeighbour) eqn:H4;
       [destruct (openable env fileBoundary) eqn:H5|]|]|]|];
    try (eexists; split; [reflexivity|]; split; [repeat constructor|simpl; lia]).
  destruct f; congruence.
Qed.

(** Witness of X13: [owner] cannot be opened. *)
Lemma export_aborts_unopened_witness :
  ∃ evs,
    exportToFoam
      {| py3 := true; verify := true; bound := [];
         openable := fun f => match f with fileOwner => false | _ => true end |}
      baffleMesh = (evs, Aborted) ∧
    Forall (fun ev => is_write ev = false) evs ∧ (length evs < 5)%nat.
Proof.
  apply (export_aborts_unopened
           {| py3 := true; verify := true; bound := [];
              openable := fun f => match f with fileOwner => false | _ => true end |}
           baffleMesh fileOwner).
  reflexivity.
Defined.

(** ** The cell pass *)

Lemma setitem_Ok {A} (l : list A) (i : Z) (x : A) (l' : list A) :
  setitem l i x = Ok l' → ∃ k : nat, (k < length l)%nat ∧ l' = <[k:=x]> l ∧
    (0 ≤ i → k = Z.to_nat i).
Proof.
  unfold setitem. destruct (index (length l) i) as [k|] eqn:E; [|done].
  intros [= <-]. exists k. split_and!; [by eapply index_lt|done|].
  intros Hi. unfold index in E. case_bool_decide; [by injection E|].
  case_bool_decide; [lia|done].
Qed.

Lemma setitem_Forall {A} (P : A → Prop) (l : list A) (i : Z) (x : A) (l' : list A) :
  setitem l i x = Ok l' → Forall P l → P x → Forall P l'.
Proof.
  intros (k & Hk & -> & _)%setitem_Ok Hl Hx. by apply Forall_insert.
Qed.

Lemma oriented_Ok verify mesh nodes fnodes f :
  oriented verify mesh nodes fnodes = Ok f → f = fnodes ∨ f = reverse fnodes.
Proof.
  unfold oriented. destruct verify; [|intros [= <-]; by left].
  destruct (verifyFaceOrder _ _ _) as [[|]|]; simpl; [| |done];
    intros [= <-]; [by left|by right].
Qed.

Lemma zip_keys (fs : list (list Z)) (p : list Z * list Z) :
  p ∈ zip fs (Key <$> fs) → p.2 = Key p.1.
Proof.
  induction fs as [|f fs IH]; simpl; [by intros ?%elem_of_nil|].
  intros [->|Hp]%elem_of_cons; [done|by apply IH].
Qed.

Section CellPass.
Variables (verify : bool) (mesh : Mesh) (st : Resolver).


Lemma pass_inv_mono n t : 0 ≤ n → pass_inv n t → pass_inv (n + 1) t.
Proof.
  intros Hn (Ho & Hnb & Hf). split_and!; [| |done];
    (eapply Forall_impl; [eassumption|]); intros c [->|Hc]; [by left|right; lia
    |by left|right; lia].
Qed.

Lemma faces_ok_owner_insert t (k : nat) (c : Z) (o : list Z) (t' : Topology) :
  0 ≤ c → faces_ok t →
  owner t' = <[k:=c]> (owner t) → faces t' = faces t →
  facesSorted t' = facesSorted t → offid t' = offid t → faces_ok t'.
Proof.
  intros Hc (Hoff & Hlen & Hown & Hkeys) Ho Hf Hs Hi.
  unfold faces_ok. rewrite Ho, Hf, Hs, Hi, length_insert. split_and!; [done..| |done].
  intros i Hlt. destruct (decide (k = i)) as [->|Hne].
  - exists c. split; [|done]. apply list_lookup_insert_eq. lia.
  - rewrite list_lookup_insert_ne by done. by apply Hown.
Qed.

Lemma new_internal_face_inv nodes ofvid t fnodes t' :
  0 ≤ ofvid → pass_inv (ofvid + 1) t →
  new_internal_face verify mesh nodes ofvid t fnodes (Key fnodes) = Ok t' →
  pass_inv (ofvid + 1) t'.
Proof.
  intros Hv (Ho & Hnb & Hoff & Hlen & Hown & Hkeys). unfold new_internal_face.
  destruct (oriented _ _ _ _) as [f|] eqn:Hor; simpl; [|done].
  destruct (setitem (owner t) _ _) as [o|] eqn:Es; simpl; [|done].
  intros [= <-]. pose proof Es as Es'.
  apply setitem_Ok in Es' as (k & Hk & -> & Hk').
  rewrite Hk' in * by lia. rewrite Hoff, Nat2Z.id in *.
  unfold pass_inv, faces_ok. split_and!; simpl.
  - apply Forall_insert; [done|]. right. lia.
  - done.
  - rewrite length_app. simpl. lia.
  - rewrite length_insert, length_app. simpl. lia.
  - rewrite length_app. simpl. intros i Hi.
    destruct (decide (length (faces t) = i)) as [<-|Hne].
    + exists ofvid. split; [|done]. by apply list_lookup_insert_eq.
    + rewrite list_lookup_insert_ne by done. apply Hown. lia.
  - intros k' i Hi. destruct (decide (Key fnodes = k')) as [<-|Hne].
    + rewrite lookup_insert_eq in Hi. injection Hi as <-. split; [lia|].
      exists f. rewrite Nat2Z.id. split; [by apply list_lookup_middle|].
      apply oriented_Ok in Hor as [->| ->]; [done|].
      apply Key_Permutation, reverse_Permutation.
    + rewrite lookup_insert_ne in Hi by done.
      destruct (Hkeys k' i Hi) as (Hr & f' & Hf' & Hkf). split; [lia|].
      exists f'. split; [|done]. rewrite lookup_app_l; [done|].
      by eapply lookup_lt_Some.
Qed.

Lemma visit_face_inv nodes ofvid t fnodes t' :
  0 ≤ ofvid → pass_inv (ofvid + 1) t →
  visit_face verify mesh st nodes ofvid t (fnodes, Key fnodes) = Ok t' →
  pass_inv (ofvid + 1) t'.
Proof.
  intros Hv Hinv. pose proof Hinv as (Ho & Hnb & Hf). unfold visit_face.
  assert (Hc : cell_or_unset (ofvid + 1) ofvid) by (right; lia).
  destruct (facesSorted t !! Key fnodes).
  { destruct (setitem (neighbour t) _ _) as [nb|] eqn:E; simpl; [|done].
    intros [= <-]. split_and!; simpl; [done| |done].
    by eapply setitem_Forall. }
  destruct (bcFacesSorted (reg st) !! Key fnodes);
    [|by apply new_internal_face_inv].
  destruct (getitem (owner t) _); simpl; [|done].
  case_bool_decide.
  - destruct (setitem (owner t) _ _) as [o|] eqn:E; simpl; [|done].
    destruct (setitem (cellBcFaces t) _ _); simpl; [|done].
    intros [= <-]. split_and!; simpl; [by eapply setitem_Forall|done|].
    apply setitem_Ok in E as (k & _ & -> & _).
    by eapply (faces_ok_owner_insert t k ofvid).
  - destruct (bcFacesSorted (reg st) !! _); [|by apply new_internal_face_inv].
    destruct (setitem (cellBcFaces t) _ _); simpl; [|done].
    destruct (setitem (owner t) _ _) as [o|] eqn:E; simpl; [|done].
    intros [= <-]. split_and!; simpl; [by eapply setitem_Forall|done|].
    apply setitem_Ok in E as (k & _ & -> & _).
    by eapply (faces_ok_owner_insert t k ofvid).
Qed.

Lemma visit_cell_inv t ofvid v t' n' :
  0 ≤ ofvid → pass_inv ofvid t →
  visit_cell verify mesh st (t, ofvid) (MeshBuffer_init mesh v) = Ok (t', n') →
  n' = ofvid + 1 ∧ pass_inv n' t'.
Proof.
  intros Hv Hinv. unfold visit_cell.
  destruct (foldM _ _ _) as [t1|] eqn:E; simpl; [|done].
  intros [= <- <-]. split; [done|]. revert E.
  apply (foldM_invariant (pass_inv (ofvid + 1))); [|by apply pass_inv_mono].
  intros s [f k] s' Hin Hs. apply zip_keys in Hin. simpl in Hin. subst k.
  by apply visit_face_inv.
Qed.

Lemma cell_loop_inv vs : ∀ t ofvid t' n,
  0 ≤ ofvid → pass_inv ofvid t →
  foldM (visit_cell verify mesh st) (t, ofvid) (MeshBuffer_init mesh <$> vs) = Ok (t', n) →
  n = ofvid + Z.of_nat (length vs) ∧ pass_inv n t'.
Proof.
  induction vs as [|v vs IH]; intros t ofvid t' n Hv Hinv.
  - simpl. intros [= <- <-]. split; [lia|done].
  - rewrite fmap_cons. cbn [foldM].
    destruct (visit_cell verify mesh st (t, ofvid) (MeshBuffer_init mesh v))
      as [[t1 n1]|] eqn:E; cbn [mbind res_bind]; [|done].
    apply visit_cell_inv in E as [-> Hinv1]; [|done..].
    intros [-> Hr]%IH; [|lia|done]. split; [simpl length; lia|done].
Qed.

End CellPass.

(** Property X14. When the cell pass ends well it has numbered every
    volume of the mesh, and every entry of [owner] and of [neighbour]
    is [-1] (never written) or the number of a cell. *)
Theorem cell_pass_cell_numbers verify mesh st t n :
  cell_pass verify mesh st = Ok (t, n) →
  n = Z.of_nat (length (volumeIds mesh)) ∧
  Forall (cell_or_unset n) (owner t) ∧ Forall (cell_or_unset n) (neighbour t).
Proof.
  unfold cell_pass, buffers.
  intros (-> & Ho & Hnb & _)%cell_loop_inv; [done|done|].
  split_and!.
  - apply Forall_replicate. by left.
  - apply Forall_replicate. by left.
  - split_and!; simpl; [done|lia|intros; lia|].
    intros k i Hi. by rewrite lookup_empty in Hi.
Qed.

(** Witness of X14: the mesh with a baffle group. *)
Lemma cell_pass_cell_numbers_witness :
  ∃ rd t n, resolve_groups baffleMesh = Ok rd ∧
    cell_pass true baffleMesh (rs rd) = Ok (t, n) ∧
    n = Z.of_nat (length (volumeIds baffleMesh)) ∧
    Forall (cell_or_unset n) (owner t) ∧ Forall (cell_or_unset n) (neighbour t).
Proof.
  destruct (resolve_groups baffleMesh) as [rd|e] eqn:H;
    [|vm_compute in H; discriminate H].
  destruct (cell_pass true baffleMesh (rs rd)) as [[t n]|e] eqn:Hc.
  2:{ exfalso. pose proof H as H'. vm_compute in H'. injection H' as <-.
      vm_compute in Hc. discriminate Hc. }
  exists rd, t, n. split; [reflexivity|]. split; [exact Hc|].
  exact (cell_pass_cell_numbers true baffleMesh (rs rd) t n Hc).
Defined.

(** Property X15. When the cell pass ends well the table of internal
    faces is well formed: [offid] is the number of faces in [faces];
    every one of them has a slot in [owner], which holds a cell; and
    every index of [facesSorted] addresses the face whose nodes have
    that key. *)
Theorem internal_faces_keyed verify mesh st t n :
  cell_pass verify mesh st = Ok (t, n) → faces_ok t.
Proof.
  unfold cell_pass, buffers.
  intros (_ & _ & _ & Hf)%cell_loop_inv; [done|done|].
  split_and!.
  - apply Forall_replicate. by left.
  - apply Forall_replicate. by left.
  - split_and!; simpl; [done|lia|intros; lia|].
    intros k i Hi. by rewrite lookup_empty in Hi.
Qed.

(** Witness of X15: three tetrahedra with two internal faces. *)
Lemma internal_faces_keyed_witness :
  ∃ rd t n, resolve_groups threeTets = Ok rd ∧
    cell_pass true threeTets (rs rd) = Ok (t, n) ∧ faces_ok t.
Proof.
  destruct (resolve_groups threeTets) as [rd|e] eqn:H;
    [|vm_compute in H; discriminate H].
  destruct (cell_pass true threeTets (rs rd)) as [[t n]|e] eqn:Hc.
  2:{ exfalso. pose proof H as H'. vm_compute in H'. injection H' as <-.
      vm_compute in Hc. discriminate Hc. }
  exists rd, t, n. split; [reflexivity|]. split; [exact Hc|].
  exact (internal_faces_keyed true threeTets (rs rd) t n Hc).
Defined.

(** ** The cellZones file *)

Lemma scToOFc_from_lookup volumes : ∀ of_ m v i,
  scToOFc_from of_ volumes m !! v = Some i →
  (m !! v = Some i ∧ v ∉ volumes) ∨
  (of_ ≤ i ∧ volumes !! Z.to_nat (i - of_) = Some v).
Proof.
  induction volumes as [|sa rest IH]; intros of_ m v i; simpl.
  - intros H. left. split; [done|]. by intros ?%elem_of_nil.
  - intros [[Hm Hnot]|[Hle Hl]]%IH.
    + destruct (decide (sa = v)) as [->|Hne].
      * rewrite lookup_insert_eq in Hm. injection Hm as <-. right.
        split; [lia|]. by rewrite Z.sub_diag.
      * rewrite lookup_insert_ne in Hm by done. left. split; [done|].
        intros [?|?]%elem_of_cons; done.
    + right. split; [lia|].
      replace (Z.to_nat (i - of_)) with (S (Z.to_nat (i - (of_ + 1)))) by lia. done.
Qed.

Lemma scToOFc_from_Some volumes : ∀ of_ m v,
  v ∈ volumes ∨ is_Some (m !! v) → is_Some (scToOFc_from of_ volumes m !! v).
Proof.
  induction volumes as [|sa rest IH]; intros of_ m v; simpl.
  - intros [?%elem_of_nil|?]; done.
  - intros [[->|Hin]%elem_of_cons|Hm]; apply IH.
    + right. rewrite lookup_insert_eq. eauto.
    + by left.
    + right. destruct (decide (sa = v)) as [->|Hne].
      * rewrite lookup_insert_eq. eauto.
      * by rewrite lookup_insert_ne.
Qed.

Lemma scToOFc_from_first volumes : ∀ of_ m v (j : nat),
  NoDup volumes → volumes !! j = Some v →
  scToOFc_from of_ volumes m !! v = Some (of_ + Z.of_nat j).
Proof.
  induction volumes as [|sa rest IH]; intros of_ m v j Hnd Hj; [done|].
  apply NoDup_cons in Hnd as [Hsa Hnd]. simpl.
  destruct j as [|j]; simpl in Hj.
  - injection Hj as ->.
    destruct (scToOFc_from (of_ + 1) rest (<[v:=of_]> m) !! v) as [i|] eqn:E.
    + apply scToOFc_from_lookup in E as [[Hm _]|[Hle Hl]].
      * rewrite lookup_insert_eq in Hm. injection Hm as <-. f_equal. lia.
      * apply list_elem_of_lookup_2 in Hl. done.
    + assert (Hs : is_Some (scToOFc_from (of_ + 1) rest (<[v:=of_]> m) !! v)).
      { apply scToOFc_from_Some. right. rewrite lookup_insert_eq. eauto. }
      rewrite E in Hs. by destruct Hs.
  - rewrite (IH (of_ + 1) _ v j Hnd Hj). f_equal. lia.
Qed.

Lemma scToOFc_dom (volumes : list Z) (v : Z) :
  is_Some (scToOFc volumes !! v) ↔ v ∈ volumes.
Proof.
  unfold scToOFc. split.
  - intros [i Hi]. apply scToOFc_from_lookup in Hi as [[Hm _]|[_ Hl]].
    + by rewrite lookup_empty in Hm.
    + by eapply list_elem_of_lookup_2.
  - intros Hv. apply scToOFc_from_Some. by left.
Qed.

(** Property X16. The dictionary [scToOFc] knows exactly the volumes of
    the mesh; the number it gives for a volume is a position of the
    list of volumes at which that volume stands; and when no volume is
    listed twice it is the position of the volume, which is the cell
    number the cell pass gave it. *)
Theorem scToOFc_positions (volumes : list Z) (v : Z) :
  (is_Some (scToOFc volumes !! v) ↔ v ∈ volumes) ∧
  (∀ i, scToOFc volumes !! v = Some i →
        0 ≤ i < Z.of_nat (length volumes) ∧ volumes !! Z.to_nat i = Some v) ∧
  (NoDup volumes → ∀ j : nat, volumes !! j = Some v →
        scToOFc volumes !! v = Some (Z.of_nat j)).
Proof.
  unfold scToOFc. split_and!.
  - split.
    + intros [i Hi]. apply scToOFc_from_lookup in Hi as [[Hm _]|[_ Hl]].
      * by rewrite lookup_empty in Hm.
      * by eapply list_elem_of_lookup_2.
    + intros Hv. apply scToOFc_from_Some. by left.
  - intros i Hi. apply scToOFc_from_lookup in Hi as [[Hm _]|[Hle Hl]].
    + by rewrite lookup_empty in Hm.
    + rewrite Z.sub_0_r in Hl. split; [|done].
      apply lookup_lt_Some in Hl. lia.
  - intros Hnd j Hj. by rewrite (scToOFc_from_first volumes 0 ∅ v j Hnd Hj).
Qed.

Lemma write_zone_labels_spec m ids :
  let '(evs, ok) := write_zone_labels m ids in
  (ok = true ↔ ∀ id, id ∈ ids → is_Some (m !! id)) ∧
  (ok = true → Forall2 (fun id ev => ∃ l, m !! id = Some l ∧ ev = WriteZoneLabel l) ids evs).
Proof.
  induction ids as [|id ids IH]; simpl.
  - split; [|by constructor]. split; [|done]. by intros _ ? ?%elem_of_nil.
  - destruct (m !! id) as [l|] eqn:El.
    + destruct (write_zone_labels m ids) as [evs ok]. destruct IH as [IH1 IH2].
      split.
      * rewrite IH1. split.
        -- intros H x [->|Hx]%elem_of_cons; [by rewrite El|by apply H].
        -- intros H x Hx. apply H. by right.
      * intros Hok. constructor; [by exists l|by apply IH2].
    + split; [|done]. split; [done|]. intros H.
      destruct (H id) as [? Hs]; [by left|]. by rewrite El in Hs.
Qed.

Lemma write_zones_ok m groups :
  (write_zones m groups).2 = true
  ↔ ∀ grp id, grp ∈ groups → GetType grp = VOLUME → id ∈ GetIDs grp → is_Some (m !! id).
Proof.
  induction groups as [|grp groups IH]; simpl.
  - split; [|done]. by intros _ ? ? ?%elem_of_nil.
  - destruct (decide (GetType grp = VOLUME)) as [Hty|Hty].
    + pose proof (write_zone_labels_spec m (GetIDs grp)) as Hl.
      destruct (write_zone_labels m (GetIDs grp)) as [evs ok].
      destruct Hl as [Hl _]. destruct ok.
      * destruct (write_zones m groups) as [evs' ok']. simpl in *.
        rewrite IH. split.
        -- intros H g id [->|Hg]%elem_of_cons Hgt Hid; [by apply Hl|by eapply H].
        -- intros H g id Hg. apply H. by right.
      * simpl. split; [done|]. intros H. apply Hl. intros id Hid.
        by apply (H grp id); [left|..].
    + rewrite IH. split.
      * intros H g id [->|Hg]%elem_of_cons Hgt Hid; [done|by eapply H].
      * intros H g id Hg. apply H. by right.
Qed.

(** Property X17. The cellZones part: without a group of volumes nothing
    is opened or written; with one, and a file that cannot be opened,
    the part ends in the [UnboundLocalError] of [fileCellZones] with
    nothing written; with a file that opens, the zones are written to
    the end exactly when every member of every group of volumes is a
    volume of the mesh, and the only other end is the [KeyError] of
    [scToOFc[csId]]. *)
Theorem cellZones_outcome can_open mesh groups :
  let zones := filter (fun grp => GetType grp = VOLUME) groups in
  let r := write_cellZones can_open mesh groups in
  (zones = [] → r = ([], NoZones)) ∧
  (zones ≠ [] → can_open = false → r = ([], ZonesUnboundLocalError)) ∧
  (zones ≠ [] → can_open = true →
     (r.2 = ZonesWritten
      ↔ ∀ grp id, grp ∈ zones → id ∈ GetIDs grp → id ∈ volumeIds mesh) ∧
     (r.2 = ZonesWritten ∨ r.2 = ZonesKeyError)).
Proof.
  cbv zeta. unfold write_cellZones.
  destruct (filter _ groups) as [|z zones] eqn:Hz.
  { split_and!; [done|done..]. }
  rewrite bool_decide_eq_true_2 by (simpl length; lia).
  split_and!; [done|by intros _ ->|]. intros _ ->.
  pose proof (write_zones_ok (scToOFc (volumeIds mesh)) groups) as Hok.
  destruct (write_zones _ groups) as [evs ok]. simpl in Hok.
  assert (Hiff : ok = true ↔
    ∀ grp id, grp ∈ z :: zones → id ∈ GetIDs grp → id ∈ volumeIds mesh).
  { rewrite Hok, <- Hz. split.
    - intros H grp id [Hg Hty]%list_elem_of_filter Hid.
      by apply (scToOFc_dom (volumeIds mesh) id), (H grp).
    - intros H grp id Hg Hty Hid.
      apply (scToOFc_dom (volumeIds mesh) id), (H grp); [|done].
      by apply list_elem_of_filter. }
  destruct ok; simpl.
  - split; [|by left]. split; [intros _; by apply Hiff|done].
  - split; [|by right]. split; [done|]. intros H%Hiff. done.
Qed.

(** ** Runs that end well *)

Lemma last_zone_event (a b c : ZoneEvent) (evs : list ZoneEvent) :
  last (a :: b :: evs ++ [c]) = Some c.
Proof. rewrite !app_comm_cons. apply last_snoc. Qed.

(** Property X12. From the five [open] calls on, [exportToFoam] runs to
    its last line without an exception when: the five files open; no
    face group of the mesh is empty; the conversion ends well; there is
    a combo box for every patch; every member of a group of volumes is
    a volume of the mesh; and the cellZones file opens, or there is no
    group of volumes. Then [grpNrFaces] and [grpStartFace] are as long
    as [grpNames]; after the five writes of the mesh files the boundary
    file gets name, type, size and start of every patch, in the order of
    the names; and the cellZones part either has nothing to do and
    opens no file, or writes its zones and closes the file. *)
Theorem export_completes env zones_openable mesh x :
  (∀ f, openable env f = true) →
  Forall (fun gr => GetType gr = FACE → GetIDs gr ≠ []) (GetGroups mesh) →
  convert env mesh = Ok x →
  (length (x_grpNames x) ≤ length (bound env))%nat →
  Forall (fun gr => GetType gr = VOLUME →
                    Forall (fun id => id ∈ volumeIds mesh) (GetIDs gr))
         (GetGroups mesh) →
  zones_openable = true ∨ Forall (fun gr => GetType gr ≠ VOLUME) (GetGroups mesh) →
  length (x_grpNrFaces x) = length (x_grpNames x) ∧
  length (x_grpStartFace x) = length (x_grpNames x) ∧
  ∃ evs zevs z,
    exportToFoam_cellZones env zones_openable mesh
    = (opened_all ++ evs
         ++ patch_events (x_grpNames x) (bound env) (x_grpNrFaces x) (x_grpStartFace x),
       Completed x, Some (zevs, z)) ∧
    length evs = 5%nat ∧
    ((z = NoZones ∧ zevs = []) ∨ (z = ZonesWritten ∧ last zevs = Some CloseCellZones)).
Proof.
  intros Hopen Hne Hconv Hbound Hvol Hzopen.
  pose proof Hconv as Hc.
  apply convert_Ok in Hc
    as (rd & t & Hres & _ & _ & _ & _ & Hnames & Hstarts & Hcounts & Hdef).
  apply resolve_groups_Ok in Hres as (st & Hloop & ->).
  pose proof (resolver_inv_loop mesh _ _ _ (resolver_inv_init mesh) Hloop) as Hinv.
  destruct (default_group_tiles mesh st Hinv) as [Hlen _].
  destruct (default_group_names mesh st) as [_ Hdl].
  pose proof (group_loop_aligned mesh _ _ _ Hne Hloop) as Hal. simpl in Hal.
  rewrite <- Hnames, <- Hstarts, <- Hcounts in *.
  assert (H1 : length (x_grpNrFaces x) = length (x_grpNames x)) by lia.
  split_and!; [done|lia|].
  assert (Hexp : ∃ evs, exportToFoam env mesh
    = (opened_all ++ evs
         ++ patch_events (x_grpNames x) (bound env) (x_grpNrFaces x) (x_grpStartFace x),
       Completed x) ∧ length evs = 5%nat).
  { unfold exportToFoam. rewrite open_files_all, Hconv by done.
    unfold write_files. rewrite write_patches_all by lia. simpl drop.
    eexists [_; _; _; _; _]. split; [|done]. simpl. done. }
  destruct Hexp as (evs & Hexp & Hevs).
  unfold exportToFoam_cellZones. rewrite Hexp.
  set (groups := GetGroups mesh ++ option_list (x_defGroup x)).
  assert (Hgroups : ∀ gr, gr ∈ groups → GetType gr = VOLUME → gr ∈ GetGroups mesh).
  { intros gr [Hgr|Hgr]%elem_of_app Hty; [done|]. exfalso.
    rewrite Hdef in Hgr.
    destruct (default_group_unfold mesh st)
      as [(_ & r & ids & _ & _ & Hd)|(_ & Hd)]; rewrite Hd in Hgr; simpl in Hgr.
    - apply list_elem_of_singleton in Hgr as ->. done.
    - by apply elem_of_nil in Hgr. }
  destruct (write_cellZones zones_openable mesh groups) as [zevs z] eqn:Hz.
  exists evs, zevs, z. split; [reflexivity|]. split; [done|].
  unfold write_cellZones in Hz.
  destruct (filter (fun grp => GetType grp = VOLUME) groups) as [|g gs] eqn:Hf.
  { rewrite bool_decide_eq_false_2 in Hz by (simpl; lia).
    injection Hz as <- <-. by left. }
  rewrite bool_decide_eq_true_2 in Hz by (simpl length; lia).
  assert (Hg : GetType g = VOLUME ∧ g ∈ groups).
  { apply (list_elem_of_filter (fun grp => GetType grp = VOLUME)).
    rewrite Hf. by left. }
  destruct Hg as [Hgty Hg].
  assert (zones_openable = true) as ->.
  { destruct Hzopen as [->|Hno]; [done|]. exfalso.
    rewrite Forall_forall in Hno. by apply (Hno g (Hgroups g Hg Hgty)). }
  pose proof (write_zones_ok (scToOFc (volumeIds mesh)) groups) as Hok.
  destruct (write_zones (scToOFc (volumeIds mesh)) groups) as [evs' ok].
  simpl in Hok.
  assert (ok = true) as ->.
  { apply Hok. intros gr id Hgr Hty Hid. apply scToOFc_dom.
    rewrite Forall_forall in Hvol.
    pose proof (Hvol gr (Hgroups gr Hgr Hty) Hty) as Hids.
    rewrite Forall_forall in Hids. by apply Hids. }
  injection Hz as <- <-. right. split; [done|]. apply last_zone_event.
Qed.

(** Witness of X12: two tetrahedra with a face group and a group of
    volumes that holds the second. *)
Lemma export_completes_witness :
  ∃ x,
    convert (run_env true)
      (twoTets [mkGroup "inlet" FACE [11; 12]; mkGroup "fluid" VOLUME [2]]) = Ok x ∧
    length (x_grpNrFaces x) = length (x_grpNames x) ∧
    length (x_grpStartFace x) = length (x_grpNames x) ∧
    ∃ evs zevs z,
      exportToFoam_cellZones (run_env true) true
        (twoTets [mkGroup "inlet" FACE [11; 12]; mkGroup "fluid" VOLUME [2]])
      = (opened_all ++ evs
           ++ patch_events (x_grpNames x) (bound (run_env true))
                (x_grpNrFaces x) (x_grpStartFace x),
         Completed x, Some (zevs, z)) ∧
      length evs = 5%nat ∧
      ((z = NoZones ∧ zevs = [])
       ∨ (z = ZonesWritten ∧ last zevs = Some CloseCellZones)).
Proof.
  destruct (convert (run_env true)
              (twoTets [mkGroup "inlet" FACE [11; 12]; mkGroup "fluid" VOLUME [2]]))
    as [x|e] eqn:H; [|vm_compute in H; discriminate H].
  exists x. split; [reflexivity|].
  apply (export_completes (run_env true) true
           (twoTets [mkGroup "inlet" FACE [11; 12]; mkGroup "fluid" VOLUME [2]]) x);
    [reflexivity| |exact H| | |by left].
  - constructor; [intros _; discriminate|].
    constructor; [intros Hty; discriminate Hty|constructor].
  - pose proof H as H'. vm_compute in H'. injection H' as <-.
    vm_compute. repeat constructor.
  - constructor; [intros Hty; discriminate Hty|].
    constructor; [|constructor].
    intros _. constructor; [|constructor]. vm_compute. repeat constructor.
Defined.

(** ** The post-pass in general *)

Lemma mapM_length {A B} (f : A → res B) l : ∀ v, mapM f l = Ok v → length v = length l.
Proof.
  induction l as [|a l IH]; intros v; simpl; [by intros [= <-]|].
  destruct (f a); simpl; [|done]. destruct (mapM f l) as [w|]; simpl; [|done].
  intros [= <-]. simpl. by rewrite (IH w).
Qed.

Lemma mapM_item_or {A} (d : A) (l : list A) inds : ∀ xs,
  mapM (getitem l) inds = Ok xs → xs = item_or d l <$> inds.
Proof.
  induction inds as [|i inds IH]; intros xs; simpl; [by intros [= <-]|].
  unfold item_or at 1.
  destruct (getitem l i); simpl; [|done].
  destruct (mapM _ inds) as [w|]; simpl; [|done].
  intros [= <-]. by rewrite (IH w).
Qed.

Lemma mapM_all_Ok {A B} (f : A → res B) l :
  (∀ x, x ∈ l → ∃ y, f x = Ok y) → ∃ v, mapM f l = Ok v.
Proof.
  induction l as [|a l IH]; intros H; simpl; [by eexists|].
  destruct (H a) as [y ->]; [by left|]. simpl.
  destruct IH as [v ->]; [intros x Hx; apply H; by right|]. simpl. by eexists.
Qed.

Lemma mapM_zip_Forall {A B} (f : A → res B) l : ∀ v,
  mapM f l = Ok v → Forall (fun q => f q.2 = Ok q.1) (zip v l).
Proof.
  induction l as [|a l IH]; intros v; simpl.
  - intros [= <-]. constructor.
  - destruct (f a) as [b|] eqn:E; simpl; [|done].
    destruct (mapM f l) as [w|]; simpl; [|done].
    intros [= <-]. simpl. constructor; [done|by apply IH].
Qed.

Lemma Forall_mapM {A B} (f : A → res B) (p : list (B * A)) :
  Forall (fun q => f q.2 = Ok q.1) p → mapM f p.*2 = Ok p.*1.
Proof.
  induction 1 as [|q p Hq _ IH]; [done|].
  rewrite !fmap_cons. cbn [mapM]. rewrite Hq. cbn [mbind res_bind]. by rewrite IH.
Qed.

Lemma range_elem s e i : i ∈ range s e ↔ s ≤ i < e.
Proof.
  unfold range. rewrite list_elem_of_fmap. split.
  - intros (k & -> & Hk%elem_of_seq). lia.
  - intros H. exists (Z.to_nat (i - s)). split; [lia|]. apply elem_of_seq. lia.
Qed.

Lemma getitem_in_range {A} (l : list A) i :
  0 ≤ i < Z.of_nat (length l) → ∃ x, getitem l i = Ok x.
Proof.
  intros H. rewrite getitem_nonneg by lia.
  destruct (l !! Z.to_nat i) eqn:E; [by eexists|].
  apply lookup_ge_None_1 in E. lia.
Qed.

Lemma setslice_in {A} (l : list A) (s e : Z) xs :
  0 ≤ s ≤ e → e ≤ Z.of_nat (length l) →
  setslice l s e xs = take (Z.to_nat s) l ++ xs ++ drop (Z.to_nat e) l.
Proof.
  intros Hs He. unfold setslice, clamp.
  rewrite !bool_decide_eq_false_2 by lia.
  rewrite !Z.min_l by lia. by rewrite Nat.max_r by lia.
Qed.

Lemma slice_item_or {A} (d : A) (l : list A) (s e : Z) :
  0 ≤ s → e ≤ Z.of_nat (length l) →
  take (Z.to_nat (e - s)) (drop (Z.to_nat s) l) = item_or d l <$> range s e.
Proof.
  intros Hs He. apply mapM_item_or. by apply mapM_getitem_range.
Qed.

Lemma zip_fmap_same {A B C} (f : A → B) (g : A → C) (l : list A) :
  zip (f <$> l) (g <$> l) = (fun a => (f a, g a)) <$> l.
Proof.
  induction l as [|a l IH]; [done|].
  rewrite !fmap_cons. cbn [zip_with]. by rewrite IH.
Qed.

Lemma Sorted_adjacent (l : list Z) : Sorted Z.le l →
  ∀ (j : nat) x y, l !! j = Some x → l !! S j = Some y → x ≤ y.
Proof.
  induction 1 as [|a l Hs IH Hhd]; intros j x y Hx Hy; [done|].
  destruct j as [|j]; simpl in *.
  - injection Hx as <-. destruct Hhd as [|b l' Hab]; [done|].
    simpl in Hy. by injection Hy as <-.
  - by eapply IH.
Qed.

(** What [sort_inds] returns: a rearrangement of the indices, whose
    neighbours can be read and, without Python 3, ascend. *)
Lemma sort_inds_spec py3 nb inds out :
  sort_inds py3 nb inds = Ok out →
  out ≡ₚ inds ∧
  ∃ keys, mapM (getitem nb) out = Ok keys ∧ (py3 = false → Sorted Z.le keys).
Proof.
  unfold sort_inds.
  destruct (mapM (getitem nb) inds) as [keys|] eqn:Hk; simpl; [|done].
  intros [= <-]. destruct py3.
  { split; [done|]. exists keys. by split. }
  pose proof (sorted_by_Permutation fst (zip keys inds)) as Hp.
  split.
  - rewrite Hp. rewrite snd_zip; [done|]. by rewrite (mapM_length _ _ _ Hk).
  - exists (sorted_by fst (zip keys inds)).*1. split.
    + apply Forall_mapM. rewrite Hp. by apply mapM_zip_Forall.
    + intros _. eapply Sorted_fmap; [|apply (sorted_by_Sorted fst)].
      intros ? ? H. exact H.
Qed.

(** The three ways one round of the loop can end well. *)
Lemma reorder_step_cases py3 own r k r' :
  0 ≤ k → 1 ≤ ownedfaces r ≤ k + 1 →
  reorder_step py3 own r k = Ok r' →
  ∃ c c', own !! Z.to_nat k = Some c ∧ own !! S (Z.to_nat k) = Some c' ∧
   ((c = c' ∧ r' = mkReorder (ownedfaces r + 1) (r_neighbour r) (r_faces r)) ∨
    (c ≠ c' ∧ ownedfaces r = 1 ∧ r' = mkReorder 1 (r_neighbour r) (r_faces r)) ∨
    (c ≠ c' ∧ 1 < ownedfaces r ∧
     ∃ inds,
       inds ≡ₚ range (k - ownedfaces r + 1) (k + 1) ∧
       k + 1 ≤ Z.of_nat (length (r_neighbour r)) ∧
       k + 1 ≤ Z.of_nat (length (r_faces r)) ∧
       (py3 = false → Sorted Z.le (item_or 0 (r_neighbour r) <$> inds)) ∧
       r' = mkReorder 1
              (take (Z.to_nat (k - ownedfaces r + 1)) (r_neighbour r)
                 ++ (item_or 0 (r_neighbour r) <$> inds)
                 ++ drop (Z.to_nat (k + 1)) (r_neighbour r))
              (take (Z.to_nat (k - ownedfaces r + 1)) (r_faces r)
                 ++ (item_or [] (r_faces r) <$> inds)
                 ++ drop (Z.to_nat (k + 1)) (r_faces r)))).
Proof.
  intros Hk Hm. unfold reorder_step.
  rewrite !getitem_nonneg by lia.
  replace (Z.to_nat (k + 1)) with (S (Z.to_nat k)) by lia.
  destruct (own !! Z.to_nat k) as [c|]; simpl; [|done].
  destruct (own !! S (Z.to_nat k)) as [c'|]; simpl; [|done].
  intros Hstep. exists c, c'. split; [done|]. split; [done|]. revert Hstep.
  case_bool_decide as Hc.
  { intros [= <-]. by left. }
  case_bool_decide as Hgt.
  2:{ intros [= <-]. right; left. split; [done|]. split; [lia|done]. }
  destruct (sort_inds _ _ _) as [inds|] eqn:Hs; simpl; [|done].
  apply sort_inds_spec in Hs as (Hperm & keys & Hkeys & Hsorted).
  rewrite Hkeys. simpl.
  destruct (mapM (getitem (r_faces r)) inds) as [fs|] eqn:Hfs; simpl; [|done].
  intros [= <-]. right; right. split; [done|]. split; [lia|].
  assert (Hin : k ∈ inds) by (rewrite Hperm; apply range_elem; lia).
  assert (Hnb : k + 1 ≤ Z.of_nat (length (r_neighbour r))).
  { destruct (mapM_Ok_elem _ _ _ k Hkeys Hin) as [y Hy].
    rewrite getitem_nonneg in Hy by lia.
    destruct (r_neighbour r !! Z.to_nat k) eqn:E; [|done].
    apply lookup_lt_Some in E. lia. }
  assert (Hfl : k + 1 ≤ Z.of_nat (length (r_faces r))).
  { destruct (mapM_Ok_elem _ _ _ k Hfs Hin) as [y Hy].
    rewrite getitem_nonneg in Hy by lia.
    destruct (r_faces r !! Z.to_nat k) eqn:E; [|done].
    apply lookup_lt_Some in E. lia. }
  exists inds. split; [done|]. split; [done|]. split; [done|].
  rewrite !setslice_in by lia.
  rewrite (mapM_item_or 0 _ _ _ Hkeys), (mapM_item_or [] _ _ _ Hfs).
  split; [|by replace (S (Z.to_nat k)) with (Z.to_nat (k + 1)) by lia].
  intros Hpy. rewrite <- (mapM_item_or 0 _ _ _ Hkeys). by apply Hsorted.
Qed.

(** A slice replaced by a rearrangement of itself. *)
Lemma slice_rearranged {A B} (d1 : A) (d2 : B) (l1 : list A) (l2 : list B)
    (s e : Z) (inds : list Z) :
  0 ≤ s ≤ e → e ≤ Z.of_nat (length l1) → e ≤ Z.of_nat (length l2) →
  inds ≡ₚ range s e →
  let l1' := take (Z.to_nat s) l1 ++ (item_or d1 l1 <$> inds) ++ drop (Z.to_nat e) l1 in
  let l2' := take (Z.to_nat s) l2 ++ (item_or d2 l2 <$> inds) ++ drop (Z.to_nat e) l2 in
  length l1' = length l1 ∧ length l2' = length l2 ∧
  zip l1' l2' ≡ₚ zip l1 l2 ∧
  (∀ n, (Z.to_nat e ≤ n)%nat → drop n l1' = drop n l1 ∧ drop n l2' = drop n l2) ∧
  (∀ n, (n < Z.to_nat s)%nat → l1' !! n = l1 !! n).
Proof.
  intros Hs H1 H2 Hperm l1' l2'.
  assert (Hlen : length inds = Z.to_nat (e - s)).
  { by rewrite Hperm, range_length. }
  assert (E1 : l1 = take (Z.to_nat s) l1 ++ (item_or d1 l1 <$> range s e)
                      ++ drop (Z.to_nat e) l1).
  { rewrite <- slice_item_or by lia.
    rewrite <- (take_drop (Z.to_nat s) l1) at 1. f_equal.
    rewrite <- (take_drop (Z.to_nat (e - s)) (drop (Z.to_nat s) l1)) at 1. f_equal.
    rewrite drop_drop. f_equal. lia. }
  assert (E2 : l2 = take (Z.to_nat s) l2 ++ (item_or d2 l2 <$> range s e)
                      ++ drop (Z.to_nat e) l2).
  { rewrite <- slice_item_or by lia.
    rewrite <- (take_drop (Z.to_nat s) l2) at 1. f_equal.
    rewrite <- (take_drop (Z.to_nat (e - s)) (drop (Z.to_nat s) l2)) at 1. f_equal.
    rewrite drop_drop. f_equal. lia. }
  assert (L1 : length l1' = length l1).
  { unfold l1'. rewrite !length_app, length_fmap, length_take, length_drop. lia. }
  assert (L2 : length l2' = length l2).
  { unfold l2'. rewrite !length_app, length_fmap, length_take, length_drop. lia. }
  split_and!; [done|done| | |].
  - rewrite E1, E2 at 1. unfold l1', l2'.
    rewrite !zip_with_app by (rewrite ?length_fmap, ?length_take; lia).
    rewrite !zip_fmap_same. by rewrite Hperm.
  - intros n Hn. unfold l1', l2'. rewrite !app_assoc. split.
    + rewrite drop_app_ge; rewrite length_app, length_fmap, length_take; [|lia].
      rewrite drop_drop. f_equal. lia.
    + rewrite drop_app_ge; rewrite length_app, length_fmap, length_take; [|lia].
      rewrite drop_drop. f_equal. lia.
  - intros n Hn. unfold l1'.
    rewrite lookup_app_l by (rewrite length_take; lia).
    by rewrite lookup_take_lt.
Qed.


Lemma reorder_step_rearranged py3 own r k r' (e : nat) :
  0 ≤ k → k + 1 ≤ Z.of_nat e → 1 ≤ ownedfaces r ≤ k + 1 →
  reorder_step py3 own r k = Ok r' →
  rearranged e r r' ∧ 1 ≤ ownedfaces r' ≤ k + 2.
Proof.
  intros Hk He Hm Hstep.
  destruct (reorder_step_cases _ _ _ _ _ Hk Hm Hstep)
    as (c & c' & _ & _ & [(_ & ->)|[(_ & _ & ->)|(_ & Hgt & inds & Hp & H1 & H2 & _ & ->)]]).
  - split; [by repeat split|simpl; lia].
  - split; [by repeat split|simpl; lia].
  - destruct (slice_rearranged 0 [] (r_neighbour r) (r_faces r)
                (k - ownedfaces r + 1) (k + 1) inds)
      as (L1 & L2 & Hz & Hd & _); [lia|done|done|done|].
    split; [|simpl; lia]. unfold rearranged. simpl.
    destruct (Hd e) as [D1 D2]; [lia|]. by split_and!.
Qed.

Lemma reorder_loop_rearranged py3 own (e : nat) (n : nat) : ∀ k r r',
  n = Z.to_nat (Z.of_nat e - k) → 0 ≤ k → 1 ≤ ownedfaces r ≤ k + 1 →
  foldM (reorder_step py3 own) r (range k (Z.of_nat e)) = Ok r' →
  rearranged e r r'.
Proof.
  induction n as [|n IH]; intros k r r' Hn Hk Hm.
  - rewrite range_nil by lia. intros [= <-]. by repeat split.
  - rewrite range_cons by lia. simpl.
    destruct (reorder_step py3 own r k) as [r1|] eqn:E; simpl; [|done].
    apply (reorder_step_rearranged _ _ _ _ _ e) in E as [(A1 & A2 & A3 & A4 & A5) Hm1];
      [|lia..].
    intros Hrest. apply IH in Hrest as (B1 & B2 & B3 & B4 & B5); [|lia..].
    unfold rearranged. split_and!; try congruence. by rewrite B3.
Qed.

(** Property X18. Whatever the interpreter, when the post-pass ends well
    it has only rearranged the internal faces: [neighbour] and [faces]
    keep their lengths, every face keeps its neighbour (the pairs of
    the two arrays are the same, in another order), and the positions
    from [nrIntFaces] on are as they were. *)
Theorem upper_triangular_rearranges py3 nrInt own nb fs nb' fs' :
  upper_triangular py3 nrInt own nb fs = Ok (nb', fs') →
  length nb' = length nb ∧ length fs' = length fs ∧
  zip nb' fs' ≡ₚ zip nb fs ∧
  drop (Z.to_nat nrInt) nb' = drop (Z.to_nat nrInt) nb ∧
  drop (Z.to_nat nrInt) fs' = drop (Z.to_nat nrInt) fs.
Proof.
  unfold upper_triangular.
  destruct (foldM _ _ _) as [r|] eqn:E; simpl; [|done].
  intros [= <- <-].
  destruct (decide (0 ≤ nrInt)) as [Hn|Hn].
  - rewrite <- (Z2Nat.id nrInt) in E by done.
    eapply reorder_loop_rearranged in E; [exact E|done|done|simpl; lia].
  - rewrite range_nil in E by lia. injection E as <-. by repeat split.
Qed.

(** Witness of X18: the example of the source's comment. *)
Lemma upper_triangular_rearranges_witness :
  ∃ nb' fs',
    upper_triangular false 4 [0; 0; 0; 1; 1] [15; 3; 17; 5] [[1]; [2]; [3]; [4]]
    = Ok (nb', fs') ∧
    length nb' = length [15; 3; 17; 5] ∧
    length fs' = length [[1]; [2]; [3]; [4]] ∧
    zip nb' fs' ≡ₚ zip [15; 3; 17; 5] [[1]; [2]; [3]; [4]] ∧
    drop (Z.to_nat 4) nb' = drop (Z.to_nat 4) [15; 3; 17; 5] ∧
    drop (Z.to_nat 4) fs' = drop (Z.to_nat 4) [[1]; [2]; [3]; [4]].
Proof.
  assert (H : upper_triangular false 4 [0; 0; 0; 1; 1] [15; 3; 17; 5]
                [[1]; [2]; [3]; [4]]
              = Ok ([3; 15; 17; 5], [[2]; [1]; [3]; [4]]))
    by (vm_compute; reflexivity).
  exists [3; 15; 17; 5], [[2]; [1]; [3]; [4]]. split; [exact H|].
  exact (upper_triangular_rearranges false 4 [0; 0; 0; 1; 1] [15; 3; 17; 5]
           [[1]; [2]; [3]; [4]] _ _ H).
Defined.


Lemma reorder_step_sorted own r k r' :
  0 ≤ k → sorted_so_far own k r →
  reorder_step false own r k = Ok r' → sorted_so_far own (k + 1) r'.
Proof.
  intros Hk ([Hm Hrun] & Hstart & Hord) Hstep.
  destruct (reorder_step_cases _ _ _ _ _ Hk Hm Hstep)
    as (c & c' & Hc & Hc' & [(-> & ->)|[(Hne & H1 & ->)|(Hne & Hgt & inds & Hp & H1 & H2 & Hs & ->)]]);
    unfold sorted_so_far; simpl.
  - split_and!.
    + split; [lia|]. intros j Hj.
      destruct (decide (Z.of_nat j = k)) as [<-|].
      * rewrite Nat2Z.id in Hc, Hc'. by rewrite Hc, Hc'.
      * apply Hrun. lia.
    + intros j Hj. apply Hstart. lia.
    + by replace (k + 1 - (ownedfaces r + 1) + 1) with (k - ownedfaces r + 1) by lia.
  - split_and!.
    + split; [lia|]. intros j Hj. lia.
    + intros j Hj. replace j with (Z.to_nat k) by lia. rewrite Hc, Hc'. congruence.
    + intros i a x y Hi Ha Ha' Hx Hy.
      destruct (decide (Z.of_nat i + 1 = k)) as [Hik|Hik].
      * exfalso. apply (Hstart i); [lia|]. by rewrite Ha, Ha'.
      * eapply (Hord i); eauto. lia.
  - split_and!.
    + split; [lia|]. intros j Hj. lia.
    + intros j Hj. replace j with (Z.to_nat k) by lia. rewrite Hc, Hc'. congruence.
    + set (s := k - ownedfaces r + 1) in *.
      assert (Hlen : length inds = Z.to_nat (k + 1 - s)) by (by rewrite Hp, range_length).
      intros i a x y Hi Ha Ha' Hx Hy.
      destruct (decide (Z.of_nat i + 1 < s)) as [Hlt|Hge].
      { rewrite lookup_app_l in Hx by (rewrite length_take; lia).
        rewrite lookup_app_l in Hy by (rewrite length_take; lia).
        rewrite lookup_take_lt in Hx by lia. rewrite lookup_take_lt in Hy by lia.
        eapply (Hord i); eauto. }
      destruct (decide (Z.of_nat i + 1 = s)) as [Heq|Hne'].
      { exfalso. apply (Hstart i); [done|]. by rewrite Ha, Ha'. }
      rewrite lookup_app_r in Hx by (rewrite length_take; lia).
      rewrite lookup_app_r in Hy by (rewrite length_take; lia).
      rewrite length_take in Hx, Hy.
      rewrite lookup_app_l in Hx by (rewrite length_fmap; lia).
      rewrite lookup_app_l in Hy by (rewrite length_fmap; lia).
      replace (S i - Z.to_nat s `min` length (r_neighbour r))%nat
        with (S (i - Z.to_nat s `min` length (r_neighbour r)))%nat in Hy by lia.
      eapply Sorted_adjacent; [by apply Hs|exact Hx|exact Hy].
Qed.

Lemma reorder_loop_sorted own e (n : nat) : ∀ k r r',
  n = Z.to_nat (e - k) → 0 ≤ k ≤ e → sorted_so_far own k r →
  foldM (reorder_step false own) r (range k e) = Ok r' → sorted_so_far own e r'.
Proof.
  induction n as [|n IH]; intros k r r' Hn Hk Hinv.
  - rewrite range_nil by lia. intros [= <-]. by replace e with k by lia.
  - rewrite range_cons by lia. simpl.
    destruct (reorder_step false own r k) as [r1|] eqn:E; simpl; [|done].
    apply reorder_step_sorted in E; [|lia|done].
    apply IH; [lia|lia|done].
Qed.

Lemma upper_triangular_closed_runs nrInt own nb fs nb' fs' :
  upper_triangular false nrInt own nb fs = Ok (nb', fs') →
  (∀ (i k : nat) c x y,
     (i < k)%nat → Z.of_nat k < nrInt → own !! k ≠ own !! S k →
     own !! i = Some c → own !! S i = Some c →
     nb' !! i = Some x → nb' !! S i = Some y → x ≤ y) ∧
  (∀ k : nat, Z.of_nat k + 1 = nrInt → own !! k ≠ own !! S k →
     upper_triangular_order nrInt own nb').
Proof.
  unfold upper_triangular.
  destruct (foldM _ _ _) as [r|] eqn:E; simpl; [|done].
  intros [= <- <-].
  assert (Hmain : ∀ (i k : nat) c x y,
     (i < k)%nat → Z.of_nat k < nrInt → own !! k ≠ own !! S k →
     own !! i = Some c → own !! S i = Some c →
     r_neighbour r !! i = Some x → r_neighbour r !! S i = Some y → x ≤ y).
  { intros i k c x y Hik Hk Hch Hc Hc' Hx Hy.
    apply (reorder_loop_sorted own nrInt (Z.to_nat (nrInt - 0)) 0) in E;
      [|done|lia|].
    2:{ split_and!; simpl.
        - split; [lia|]. intros j Hj. lia.
        - intros j Hj. lia.
        - intros j ? ? ? Hj. lia. }
    destruct E as ([Hm Hrun] & _ & Hord).
    assert (Z.of_nat k < nrInt - ownedfaces r + 1).
    { destruct (decide (Z.of_nat k < nrInt - ownedfaces r + 1)); [done|].
      exfalso. apply Hch, Hrun. lia. }
    eapply (Hord i); eauto. lia. }
  split; [exact Hmain|].
  intros k Hk Hch i c x y Hi. apply (Hmain i k); [lia|lia|done].
Qed.

Lemma reorder_step_returns py3 own r k (nrInt : Z) :
  0 ≤ k < nrInt → 1 ≤ ownedfaces r ≤ k + 1 →
  nrInt < Z.of_nat (length own) →
  nrInt ≤ Z.of_nat (length (r_neighbour r)) →
  nrInt ≤ Z.of_nat (length (r_faces r)) →
  ∃ r', reorder_step py3 own r k = Ok r'.
Proof.
  intros Hk Hm Ho Hn Hf. unfold reorder_step.
  destruct (getitem_in_range own k) as [c ->]; [lia|].
  destruct (getitem_in_range own (k + 1)) as [c' ->]; [lia|]. simpl.
  case_bool_decide; [by eexists|].
  case_bool_decide; [|by eexists].
  destruct (sort_inds py3 (r_neighbour r) (range (k - ownedfaces r + 1) (k + 1)))
    as [inds|e] eqn:Hs.
  2:{ unfold sort_inds in Hs. rewrite mapM_getitem_range in Hs by lia. done. }
  simpl. pose proof Hs as (Hperm & keys & -> & _)%sort_inds_spec. simpl.
  destruct (mapM_all_Ok (getitem (r_faces r)) inds) as [fs ->]; [|by eexists].
  intros i Hi. rewrite Hperm in Hi. apply range_elem in Hi.
  apply getitem_in_range. lia.
Qed.

Lemma upper_triangular_total py3 nrInt own nb fs :
  nrInt < Z.of_nat (length own) →
  nrInt ≤ Z.of_nat (length nb) →
  nrInt ≤ Z.of_nat (length fs) →
  ∃ nb' fs', upper_triangular py3 nrInt own nb fs = Ok (nb', fs').
Proof.
  intros Ho Hn Hf. unfold upper_triangular.
  enough (Hloop : ∀ (n : nat) k r,
    n = Z.to_nat (nrInt - k) → 0 ≤ k → 1 ≤ ownedfaces r ≤ k + 1 →
    nrInt ≤ Z.of_nat (length (r_neighbour r)) →
    nrInt ≤ Z.of_nat (length (r_faces r)) →
    ∃ r', foldM (reorder_step py3 own) r (range k nrInt) = Ok r').
  { destruct (Hloop (Z.to_nat (nrInt - 0)) 0 (mkReorder 1 nb fs)) as [r' ->];
      simpl; [done|done|lia|done|done|]. by eexists _, _. }
  induction n as [|n IH]; intros k r Hk0 Hk Hm H1 H2.
  - rewrite range_nil by lia. by eexists.
  - rewrite range_cons by lia. simpl.
    destruct (reorder_step_returns py3 own r k nrInt) as [r1 Hr1]; [lia|done..|].
    rewrite Hr1. simpl.
    apply (reorder_step_rearranged _ _ _ _ _ (Z.to_nat nrInt)) in Hr1
      as [(A1 & A2 & _) Hm1]; [|lia..].
    apply IH; [lia|lia|lia|lia|lia].
Qed.

(** Property X19. Without Python 3, on arrays long enough for
    [nrIntFaces] the post-pass ends well, and afterwards the neighbours
    ascend along every run of internal faces with one owner that ends
    before the last internal face; if the owner changes after the last
    internal face too, [owner] and [neighbour] are in upper-triangular
    order. *)
Theorem upper_triangular_py2_sorts nrInt own nb fs :
  nrInt < Z.of_nat (length own) →
  nrInt ≤ Z.of_nat (length nb) →
  nrInt ≤ Z.of_nat (length fs) →
  ∃ nb' fs', upper_triangular false nrInt own nb fs = Ok (nb', fs') ∧
    (∀ (i k : nat) c x y,
       (i < k)%nat → Z.of_nat k < nrInt → own !! k ≠ own !! S k →
       own !! i = Some c → own !! S i = Some c →
       nb' !! i = Some x → nb' !! S i = Some y → x ≤ y) ∧
    (∀ k : nat, Z.of_nat k + 1 = nrInt → own !! k ≠ own !! S k →
       upper_triangular_order nrInt own nb').
Proof.
  intros Ho Hn Hf.
  destruct (upper_triangular_total false nrInt own nb fs Ho Hn Hf) as (nb' & fs' & H).
  exists nb', fs'. split; [done|]. by eapply upper_triangular_closed_runs.
Qed.

(** Witness of X19: the example of the source's comment. *)
Lemma upper_triangular_py2_sorts_witness :
  ∃ nb' fs',
    upper_triangular false 4 [0; 0; 0; 1; 1] [15; 3; 17; 5] [[1]; [2]; [3]; [4]]
    = Ok (nb', fs') ∧
    (∀ (i k : nat) c x y,
       (i < k)%nat → Z.of_nat k < 4 →
       [0; 0; 0; 1; 1] !! k ≠ [0; 0; 0; 1; 1] !! S k →
       [0; 0; 0; 1; 1] !! i = Some c → [0; 0; 0; 1; 1] !! S i = Some c →
       nb' !! i = Some x → nb' !! S i = Some y → x ≤ y) ∧
    (∀ k : nat, Z.of_nat k + 1 = 4 →
       [0; 0; 0; 1; 1] !! k ≠ [0; 0; 0; 1; 1] !! S k →
       upper_triangular_order 4 [0; 0; 0; 1; 1] nb').
Proof.
  apply (upper_triangular_py2_sorts 4 [0; 0; 0; 1; 1] [15; 3; 17; 5]
           [[1]; [2]; [3]; [4]]); simpl; lia.
Defined.

(** Property X20. With Python 3, on arrays long enough for [nrIntFaces]
    the post-pass ends well and returns [neighbour] and [faces] as it
    got them, in whatever order they are. *)
Theorem upper_triangular_py3_unchanged nrInt own nb fs :
  nrInt < Z.of_nat (length own) →
  nrInt ≤ Z.of_nat (length nb) →
  nrInt ≤ Z.of_nat (length fs) →
  upper_triangular true nrInt own nb fs = Ok (nb, fs).
Proof.
  intros Ho Hn Hf.
  destruct (upper_triangular_total true nrInt own nb fs Ho Hn Hf) as (nb' & fs' & H).
  by destruct (upper_triangular_py3_identity _ _ _ _ _ _ H) as [-> ->].
Qed.

(** Witness of X20: the example of the source's comment, which is not in
    order. *)
Lemma upper_triangular_py3_unchanged_witness :
  upper_triangular true 4 [0; 0; 0; 1; 1] [15; 3; 17; 5] [[1]; [2]; [3]; [4]]
  = Ok ([15; 3; 17; 5], [[1]; [2]; [3]; [4]]).
Proof.
  apply (upper_triangular_py3_unchanged 4 [0; 0; 0; 1; 1] [15; 3; 17; 5]
           [[1]; [2]; [3]; [4]]); simpl; lia.
Defined.
